(** * tomlbuilder: a shallow embedding of the Go package and its properties

    The package buffers the text of a TOML file.  A [TomlBuilder] is a Go
    struct reached through a pointer; its [buf] field is a pointer to a
    [bytes.Buffer] that a builder shares with the child builders made by
    [AddTable] and [AddArrayOfTables].  The embedding keeps both kinds of
    object in a heap, so that sharing and copying are visible, and runs the
    methods in a state monad whose failure case is a Go run-time panic. *)

From Stdlib Require Import ZArith String Ascii List Lia.
From Stdlib Require Import Floats.SpecFloat.
From stdpp Require Import gmap strings.

Open Scope Z_scope.

(** ** Go values *)

(** Go's [int] on a 64-bit platform: a machine integer that wraps around. *)
Definition int_min : Z := - 2 ^ 63.
Definition int_max : Z := 2 ^ 63 - 1.
Definition int_wrap (z : Z) : Z := (z + 2 ^ 63) mod 2 ^ 64 - 2 ^ 63.
Definition int_sub (x y : Z) : Z := int_wrap (x - y).
Definition is_int (z : Z) : Prop := int_min <= z <= int_max.

(** A Go [string] is a sequence of bytes; [len] counts them. *)
Definition len (s : string) : Z := Z.of_nat (String.length s).

(** The two characters the source writes as escapes. *)
Definition nl : string := String (ascii_of_nat 10) EmptyString.
Definition dq : string := String (ascii_of_nat 34) EmptyString.

(** [strconv.FormatBool]. *)
Definition FormatBool (b : bool) : string := if b then "true" else "false".

(** Base-10 text of an integer, as [%v] and [%d] print an [int]: the loop
    of [strconv] that peels off the last digit until one digit is left.  The
    fuel is above the number of digits. *)
Definition digit_char (k : Z) : ascii := ascii_of_nat (48 + Z.to_nat k).

Fixpoint utoa (fuel : nat) (u : Z) (acc : string) : string :=
  match fuel with
  | O => acc
  | S fuel' =>
      if u <? 10 then String (digit_char u) acc
      else utoa fuel' (u / 10) (String (digit_char (u mod 10)) acc)
  end.

Definition FormatUint (u : Z) : string :=
  utoa (S (Z.to_nat (Z.log2 u))) u EmptyString.

Definition FormatInt (z : Z) : string :=
  if z <? 0 then "-" +:+ FormatUint (- z) else FormatUint z.

(** ** float64 and the standard library's float formatting

    A [float64] is an IEEE-754 binary64 value, taken from the standard
    library's specification of floating-point numbers: a finite value
    [S754_finite s m e] is (-1)^s * m * 2^e. *)

Definition prec : Z := 53.
Definition emax : Z := 1024.
Definition float64 : Type := spec_float.
Definition valid_float64 (f : float64) : bool := valid_binary prec emax f.

(** The conversion [float64(n)] of an [int64]: round to nearest, ties to even. *)
Definition float64_of_int64 (n : Z) : float64 := binary_normalize prec emax n 0 false.

(** The conversion [int64(val)] truncates toward zero.  When the value does
    not fit, Go leaves the result to the implementation; amd64 yields the
    smallest int64, which is what is modelled here. *)
Definition int64_of_float64 (val : float64) : Z :=
  match val with
  | S754_zero _ => 0
  | S754_finite s m e =>
      let t := if 0 <=? e then Z.pos m * 2 ^ e else Z.pos m / 2 ^ (- e) in
      let z := if s then - t else t in
      if (int_min <=? z) && (z <=? int_max) then z else int_min
  | S754_infinity _ | S754_nan => int_min
  end.

(** Go's [==] on float64. *)
Definition float64_eqb (x y : float64) : bool := SFeqb x y.

(** *** The reals that round to a float

    Every binary64 value is a multiple of 2^-1074, so 2^1076 times a value,
    a midpoint between two neighbours, or the point a quarter of a step
    below a power of two, is an integer.  A real [num / den] rounds to
    [m * 2^e] (to nearest, ties to even) when it lies between the midpoints
    to the two neighbours; the midpoints count when [m] is even.  Just below
    [m = 2^52] the neighbour is half a step away. *)

Definition midpoint_below (m : positive) (e : Z) : Z :=
  (if (Z.pos m =? 2 ^ (prec - 1)) && (emin prec emax <? e)
   then 4 * Z.pos m - 1 else 4 * Z.pos m - 2) * 2 ^ (e + 1074).
Definition midpoint_above (m : positive) (e : Z) : Z :=
  (4 * Z.pos m + 2) * 2 ^ (e + 1074).

Definition in_rounding_interval (m : positive) (e : Z) (num den : Z) : bool :=
  let x := num * 2 ^ 1076 in
  if Z.even (Z.pos m)
  then (midpoint_below m e * den <=? x) && (x <=? midpoint_above m e * den)
  else (midpoint_below m e * den <? x) && (x <? midpoint_above m e * den).

(** *** Shortest decimal digits

    [strconv] with precision -1 uses the fewest decimal digits that still
    identify the value: the shortest decimal among the reals that round to
    [m * 2^e], and of those the nearest to it.  With [q = dec_scale e]
    decimals, [m * 2^e] is the integer [scaled_value m e] over [10^q]; the
    candidates with [j] digits fewer are the two multiples of [10^j] next to
    that integer. *)

Definition dec_scale (e : Z) : Z := Z.max 0 (- e).
Definition scaled_value (m : positive) (e : Z) : Z :=
  Z.pos m * 2 ^ Z.max 0 e * 5 ^ Z.max 0 (- e).

Definition round_down (m : positive) (e j : Z) : Z :=
  scaled_value m e / 10 ^ j * 10 ^ j.
Definition round_up (m : positive) (e j : Z) : Z :=
  round_down m e j + 10 ^ j.
Definition okdown (m : positive) (e j : Z) : bool :=
  in_rounding_interval m e (round_down m e j) (10 ^ dec_scale e).
Definition okup (m : positive) (e j : Z) : bool :=
  in_rounding_interval m e (round_up m e j) (10 ^ dec_scale e).

(** Drop digits for as long as one of the two candidates stays inside. *)
Fixpoint drop_digits (fuel : nat) (m : positive) (e j : Z) : Z :=
  match fuel with
  | O => j
  | S fuel' =>
      if okdown m e (j + 1) || okup m e (j + 1)
      then drop_digits fuel' m e (j + 1)
      else j
  end.

Definition shortest_exp (m : positive) (e : Z) : Z :=
  drop_digits (Z.to_nat (Z.log2 (scaled_value m e)) + 1) m e 0.

(** With both candidates inside, the nearer one; halfway, the even one. *)
Definition shortest_scaled (m : positive) (e : Z) : Z :=
  let j := shortest_exp m e in
  let r := scaled_value m e mod 10 ^ j in
  if okdown m e j && okup m e j then
    match 2 * r ?= 10 ^ j with
    | Lt => round_down m e j
    | Gt => round_up m e j
    | Eq => if Z.even (scaled_value m e / 10 ^ j) then round_down m e j
            else round_up m e j
    end
  else if okdown m e j then round_down m e j
  else round_up m e j.

(** [strconv]'s [decimalSlice]: the digits [d] and the position [dp] of the
    decimal point, for the value 0.d * 10^dp. *)
Record decimalSlice := mkDecimal { d : string; dp : Z }.
Definition nd (digs : decimalSlice) : Z := len (d digs).

Definition shortest_digits (m : positive) (e : Z) : decimalSlice :=
  let j := shortest_exp m e in
  let ds := FormatUint (shortest_scaled m e / 10 ^ j) in
  {| d := ds; dp := len ds + j - dec_scale e |}.

(** *** The layouts of [strconv]'s ftoa.go *)

Fixpoint zeros (n : nat) : string :=
  match n with
  | O => EmptyString
  | S n' => String "0" (zeros n')
  end.

(** The digit at index [j], or the character 0 outside the digits. *)
Definition digit_at (digs : decimalSlice) (j : Z) : ascii :=
  if (0 <=? j) && (j <? nd digs)
  then match String.get (Z.to_nat j) (d digs) with Some c => c | None => "0"%char end
  else "0"%char.

Fixpoint fraction (digs : decimalSlice) (i : Z) (n : nat) : string :=
  match n with
  | O => EmptyString
  | S n' => String (digit_at digs (dp digs + i)) (fraction digs (i + 1) n')
  end.

(** [%f]: -ddddddd.ddddd *)
Definition fmtF (neg : bool) (digs : decimalSlice) (prc : Z) : string :=
  (if neg then "-" else EmptyString) +:+
  (if 0 <? dp digs
   then let m := Z.min (nd digs) (dp digs) in
        substring 0 (Z.to_nat m) (d digs) +:+ zeros (Z.to_nat (dp digs - m))
   else "0") +:+
  (if 0 <? prc then "." +:+ fraction digs 0 (Z.to_nat prc) else EmptyString).

(** The exponent of [%e], two digits at least. *)
Definition fmt_exponent (exp : Z) : string :=
  (if exp <? 0 then "-" else "+") +:+
  (let a := Z.abs exp in if a <? 10 then "0" +:+ FormatUint a else FormatUint a).

(** [%e]: -d.ddddde+dd *)
Definition fmtE (neg : bool) (digs : decimalSlice) (prc : Z) : string :=
  (if neg then "-" else EmptyString) +:+
  String (digit_at digs 0) EmptyString +:+
  (if 0 <? prc
   then let m := Z.min (nd digs) (prc + 1) in
        "." +:+ substring 1 (Z.to_nat (m - 1)) (d digs) +:+ zeros (Z.to_nat (prc + 1 - Z.max m 1))
   else EmptyString) +:+
  "e" +:+ fmt_exponent (if nd digs =? 0 then 0 else dp digs - 1).

(** [%g] with the shortest precision: [%e] when the exponent is below -4 or
    at least 6 (the precision this decision uses for shortest output),
    [%f] otherwise. *)
Definition fmtG (neg : bool) (digs : decimalSlice) : string :=
  let exp := dp digs - 1 in
  if (exp <? -4) || (6 <=? exp)
  then fmtE neg digs (nd digs - 1)
  else fmtF neg digs (Z.max (nd digs - dp digs) 0).

Inductive verb : Type := verb_f | verb_g.

(** [strconv.FormatFloat(val, fmt, -1, 64)]. *)
Definition FormatFloat (val : float64) (fmt : verb) : string :=
  match val with
  | S754_nan => "NaN"
  | S754_infinity s => if s then "-Inf" else "+Inf"
  | S754_zero s | S754_finite s _ _ =>
      let digs :=
        match val with
        | S754_finite _ m e => shortest_digits m e
        | _ => {| d := EmptyString; dp := 0 |}
        end in
      match fmt with
      | verb_f => fmtF s digs (Z.max (nd digs - dp digs) 0)
      | verb_g => fmtG s digs
      end
  end.

(** ** fmt.Sprintf

    The arguments the package passes to [Sprintf], and the two verbs its
    format strings use.  [%v] prints a string as it is, an int in base 10
    and a float64 as [%g] with the shortest precision. *)

Inductive arg : Type :=
  | AString (s : string)
  | AInt (n : Z)
  | AFloat (f : float64).

Definition arg_type (a : arg) : string :=
  match a with
  | AString _ => "string"
  | AInt _ => "int"
  | AFloat _ => "float64"
  end.

Definition fmt_v (a : arg) : string :=
  match a with
  | AString s => s
  | AInt n => FormatInt n
  | AFloat f => FormatFloat f verb_g
  end.

(** A verb applied to an operand: [%d] of a value that is no integer gives
    Go's bad-verb text. *)
Definition fmt_verb (c : ascii) (a : arg) : string :=
  if Ascii.eqb c "v" then fmt_v a
  else match a with
       | AInt n => FormatInt n
       | _ => "%!" +:+ String c ("(" +:+ arg_type a +:+ "=" +:+ fmt_v a +:+ ")")
       end.

Fixpoint fmt_extra (args : list arg) : string :=
  match args with
  | [] => EmptyString
  | [a] => arg_type a +:+ "=" +:+ fmt_v a
  | a :: rest => arg_type a +:+ "=" +:+ fmt_v a +:+ ", " +:+ fmt_extra rest
  end.

Fixpoint Sprintf (format : string) (args : list arg) : string :=
  match format with
  | EmptyString =>
      match args with
      | [] => EmptyString
      | _ => "%!(EXTRA " +:+ fmt_extra args +:+ ")"
      end
  | String c rest =>
      if Ascii.eqb c "%" then
        match rest with
        | EmptyString => "%!(NOVERB)"
        | String v rest' =>
            if Ascii.eqb v "%" then String "%" (Sprintf rest' args)
            else match args with
                 | [] => "%!" +:+ String v "(MISSING)" +:+ Sprintf rest' []
                 | a :: args' => fmt_verb v a +:+ Sprintf rest' args'
                 end
        end
      else String c (Sprintf rest args)
  end.

(** ** formatFloat *)

Definition formatFloat (val : float64) : string :=
  if float64_eqb val (float64_of_int64 (int64_of_float64 val))
  then Sprintf "%v.0" [AFloat val]
  else Sprintf "%v" [AString (FormatFloat val verb_f)].

(** The float64 nearest to [num / den], for writing down test values. *)
Definition float64_of_ratio (num den : Z) : float64 :=
  SFdiv prec emax (float64_of_int64 num) (float64_of_int64 den).

(** ** Reading a decimal back

    [strconv.ParseFloat] on a decimal without exponent: an optional sign,
    digits with at most one point among them, and the float64 nearest to the
    number they write, ties to even.  Exponents, hexadecimal digits,
    underscores and the names of the infinities and of NaN are left out. *)

(** The float64 nearest to the real [num / den], both positive.  [y] is the
    integer part of the real times 2^1075; its size tells the binade, and so
    the exponent [E] of the result, which is -1074 at least.  The real is
    then divided by 2^E and rounded to an integer mantissa. *)
Definition round_half_even (q r step : Z) : Z :=
  match 2 * r ?= step with
  | Lt => q
  | Gt => q + 1
  | Eq => if Z.even q then q else q + 1
  end.

Definition round_ratio (s : bool) (num den : Z) : float64 :=
  let x := num * 2 ^ 1075 in
  let y := x / den in
  if y =? 0 then S754_zero s
  else
    let E := Z.max (Z.log2 y - 1127) (-1074) in
    let step := den * 2 ^ (E + 1075) in
    let m := round_half_even (x / step) (x mod step) step in
    if m =? 2 ^ 53 then
      if E + 1 <=? 971 then S754_finite s (Z.to_pos (2 ^ 52)) (E + 1)
      else S754_infinity s
    else
      match m with
      | Z.pos p => if E <=? 971 then S754_finite s p E else S754_infinity s
      | _ => S754_zero s
      end.

Definition is_digit (c : ascii) : bool :=
  (48 <=? nat_of_ascii c)%nat && (nat_of_ascii c <=? 57)%nat.
Definition digit_value (c : ascii) : Z := Z.of_nat (nat_of_ascii c) - 48.

(** The scan of the digits: [mant] collects them, [nfrac] counts those
    after the point. *)
Fixpoint scan_digits (s : string) (sawdot sawdigits : bool) (mant nfrac : Z)
  : option (Z * Z) :=
  match s with
  | EmptyString => if sawdigits then Some (mant, nfrac) else None
  | String c rest =>
      if Ascii.eqb c "." then
        if sawdot then None else scan_digits rest true sawdigits mant nfrac
      else if is_digit c then
        scan_digits rest sawdot true (10 * mant + digit_value c)
                    (if sawdot then nfrac + 1 else nfrac)
      else None
  end.

Definition ParseFloat (s : string) : option float64 :=
  let '(neg, body) :=
    match s with
    | String c rest =>
        if Ascii.eqb c "-" then (true, rest)
        else if Ascii.eqb c "+" then (false, rest)
        else (false, s)
    | EmptyString => (false, s)
    end in
  match scan_digits body false false 0 0 with
  | Some (mant, nfrac) =>
      Some (if mant =? 0 then S754_zero neg else round_ratio neg mant (10 ^ nfrac))
  | None => None
  end.

(** The float64 nearest to [digits * 10^exp10], for a decimal given by its
    digits and exponent. *)
Definition round_decimal (s : bool) (digits exp10 : Z) : float64 :=
  if 0 <=? exp10 then round_ratio s (digits * 10 ^ exp10) 1
  else round_ratio s digits (10 ^ (- exp10)).

(** ** Kinds of float64 *)

Definition is_finite (val : float64) : bool :=
  match val with
  | S754_zero _ | S754_finite _ _ _ => true
  | S754_infinity _ | S754_nan => false
  end.

(** A finite value that is a whole number. *)
Definition is_integral (val : float64) : bool :=
  match val with
  | S754_zero _ => true
  | S754_finite _ m e => (0 <=? e) || (Z.pos m mod 2 ^ (- e) =? 0)
  | S754_infinity _ | S754_nan => false
  end.

(** ** Shapes of a decimal text *)

Fixpoint all_digits (s : string) : bool :=
  match s with
  | EmptyString => true
  | String c rest => is_digit c && all_digits rest
  end.

(** Digits, a point, digits: no sign here, no exponent. *)
Fixpoint digits_point_digits (s : string) (seen : bool) : bool :=
  match s with
  | EmptyString => false
  | String c rest =>
      if Ascii.eqb c "." then seen && negb (String.eqb rest EmptyString) && all_digits rest
      else is_digit c && digits_point_digits rest true
  end.

Definition plain_decimal (s : string) : bool :=
  match s with
  | String c rest =>
      if Ascii.eqb c "-" then digits_point_digits rest false
      else digits_point_digits s false
  | EmptyString => false
  end.

Fixpoint last_char (s : string) : option ascii :=
  match s with
  | EmptyString => None
  | String c EmptyString => Some c
  | String _ rest => last_char rest
  end.

(** The digits of a text from its first digit other than 0 on. *)
Fixpoint count_digits (s : string) : Z :=
  match s with
  | EmptyString => 0
  | String c rest => (if is_digit c then 1 else 0) + count_digits rest
  end.

Fixpoint significant_digits (s : string) : Z :=
  match s with
  | EmptyString => 0
  | String c rest =>
      if is_digit c && negb (Ascii.eqb c "0") then count_digits s
      else significant_digits rest
  end.

(** ** The heap and the monad of the methods *)

Definition loc : Type := positive.

Record TomlBuilder : Type := mkTomlBuilder {
  IndentSize : Z;
  indentation : string;
  buf : loc
}.

(** Builders and buffers live at addresses; a buffer holds the bytes written
    so far. *)
Record heap : Type := mkHeap {
  builders : gmap loc TomlBuilder;
  buffers : gmap loc string
}.

Definition empty_heap : heap := mkHeap ∅ ∅.

(** A method call returns, or panics and leaves the heap as it was then. *)
Inductive result (A : Type) : Type :=
  | Ok (a : A) (h : heap)
  | Panic (msg : string) (h : heap).
Arguments Ok {A} a h.
Arguments Panic {A} msg h.

Definition M (A : Type) : Type := heap -> result A.

Definition ret {A} (a : A) : M A := fun h => Ok a h.
Definition bind {A B} (m : M A) (k : A -> M B) : M B :=
  fun h => match m h with
           | Ok a h' => k a h'
           | Panic msg h' => Panic msg h'
           end.
Definition panic {A} (msg : string) : M A := fun h => Panic msg h.

Declare Scope go_scope.
Delimit Scope go_scope with go.
Notation "x <- m ;; k" := (bind m (fun x => k))
  (at level 100, m at next level, right associativity) : go_scope.
Notation "m ;; k" := (bind m (fun _ => k))
  (at level 100, right associativity) : go_scope.
Open Scope go_scope.

Definition heap_of {A} (r : result A) : heap :=
  match r with Ok _ h | Panic _ h => h end.
Definition value_of {A} (r : result A) : option A :=
  match r with Ok a _ => Some a | Panic _ _ => None end.

Definition nil_dereference : string := "invalid memory address or nil pointer dereference".
Definition slice_out_of_range : string := "slice bounds out of range".

(** Reading the struct behind a [*TomlBuilder]. *)
Definition load (w : loc) : M TomlBuilder :=
  fun h => match builders h !! w with
           | Some b => Ok b h
           | None => Panic nil_dereference h
           end.

Definition store (w : loc) (b : TomlBuilder) : M unit :=
  fun h => Ok tt (mkHeap (<[w := b]> (builders h)) (buffers h)).

(** The assignments [w.IndentSize = n] and [w.indentation = s]. *)
Definition set_IndentSize (w : loc) (n : Z) : M unit :=
  b <- load w ;; store w (mkTomlBuilder n (indentation b) (buf b)).
Definition set_indentation (w : loc) (s : string) : M unit :=
  b <- load w ;; store w (mkTomlBuilder (IndentSize b) s (buf b)).

(** [new(bytes.Buffer)], [&TomlBuilder{...}], [Buffer.Write] and
    [Buffer.String]. *)
Definition new_Buffer : M loc :=
  fun h => let p := fresh (dom (buffers h)) in
           Ok p (mkHeap (builders h) (<[p := EmptyString]> (buffers h))).
Definition new_TomlBuilder (b : TomlBuilder) : M loc :=
  fun h => let w := fresh (dom (builders h)) in
           Ok w (mkHeap (<[w := b]> (builders h)) (buffers h)).
Definition Buffer_Write (p : loc) (s : string) : M unit :=
  fun h => match buffers h !! p with
           | Some text => Ok tt (mkHeap (builders h) (<[p := text +:+ s]> (buffers h)))
           | None => Panic nil_dereference h
           end.
Definition Buffer_String (p : loc) : M string :=
  fun h => match buffers h !! p with
           | Some text => Ok text h
           | None => Panic nil_dereference h
           end.

(** The slice expression [s[:n]]. *)
Definition slice_to (s : string) (n : Z) : M string :=
  if (0 <=? n) && (n <=? len s) then ret (substring 0 (Z.to_nat n) s)
  else panic slice_out_of_range.

(** A [for _, val := range array] loop. *)
Fixpoint for_range {A} (array : list A) (body : A -> M unit) : M unit :=
  match array with
  | [] => ret tt
  | val :: rest => body val ;; for_range rest body
  end.

(** ** The package *)

Definition New : M loc :=
  p <- new_Buffer ;;
  new_TomlBuilder (mkTomlBuilder 2 EmptyString p).

Definition write (w : loc) (format : string) (args : list arg) : M unit :=
  b <- load w ;;
  Buffer_Write (buf b) (indentation b +:+ Sprintf format args).

Definition indent (w : loc) : M unit :=
  b <- load w ;;
  set_indentation w (indentation b +:+ "  ").

Definition unindent (w : loc) : M unit :=
  b <- load w ;;
  if len (indentation b) =? 0 then ret tt
  else if len (indentation b) <=? IndentSize b then set_indentation w EmptyString
  else
    s <- slice_to (indentation b) (int_sub (len (indentation b)) (IndentSize b)) ;;
    set_indentation w s.

Definition AddNewLine (w : loc) : M unit :=
  write w nl [].

Definition AddComment (w : loc) (msg : string) : M unit :=
  write w "# %v" [AString msg].

Definition AddString (w : loc) (key value : string) : M unit :=
  write w ("%v = " +:+ dq +:+ "%v" +:+ dq +:+ nl) [AString key; AString value].

Definition AddInt (w : loc) (key : string) (value : Z) : M unit :=
  write w ("%v = %v" +:+ nl) [AString key; AInt value].

Definition AddFloat (w : loc) (key : string) (value : float64) : M unit :=
  write w ("%v = %v" +:+ nl) [AString key; AString (formatFloat value)].

Definition AddBool (w : loc) (key : string) (value : bool) : M unit :=
  write w ("%v = %v" +:+ nl) [AString key; AString (FormatBool value)].

Definition addArray (w : loc) (key : string) (array : list string) : M unit :=
  write w ("%v = [" +:+ nl) [AString key] ;;
  indent w ;;
  for_range array (fun val => write w ("%v," +:+ nl) [AString val]) ;;
  unindent w ;;
  write w ("]" +:+ nl) [].

Definition AddStringArray (w : loc) (key : string) (array : list string) : M unit :=
  addArray w key (map (fun val => Sprintf (dq +:+ "%v" +:+ dq) [AString val]) array).

Definition AddIntArray (w : loc) (key : string) (array : list Z) : M unit :=
  addArray w key (map (fun val => Sprintf "%d" [AInt val]) array).

Definition AddFloatArray (w : loc) (key : string) (array : list float64) : M unit :=
  addArray w key (map formatFloat array).

Definition AddBoolArray (w : loc) (key : string) (array : list bool) : M unit :=
  addArray w key (map FormatBool array).

(** The child builder copies the two fields and shares the buffer. *)
Definition AddTable (w : loc) (name : string) (write_body : loc -> M unit) : M unit :=
  write w ("[%v]" +:+ nl) [AString name] ;;
  b <- load w ;;
  child <- new_TomlBuilder (mkTomlBuilder (IndentSize b) (indentation b) (buf b)) ;;
  write_body child.

Definition AddArrayOfTables (w : loc) (name : string) (write_body : loc -> M unit) : M unit :=
  write w ("[[%v]]" +:+ nl) [AString name] ;;
  b <- load w ;;
  child <- new_TomlBuilder (mkTomlBuilder (IndentSize b) (indentation b) (buf b)) ;;
  write_body child.

Definition String_ (w : loc) : M string :=
  b <- load w ;;
  Buffer_String (buf b).

(** The heap [h] in which the builder at [w] is [b] and the buffer of [b]
    holds [text]. *)
Definition upd (h : heap) (w : loc) (b : TomlBuilder) (text : string) : heap :=
  mkHeap (<[w := b]> (builders h)) (<[buf b := text]> (buffers h)).

Definition indentation_at (h : heap) (w : loc) : option string :=
  indentation <$> builders h !! w.

(** The lines of the elements of an array, each at the prefix [ind]. *)
Fixpoint element_lines (ind : string) (vals : list string) : string :=
  match vals with
  | [] => EmptyString
  | val :: rest => ind +:+ val +:+ "," +:+ nl +:+ element_lines ind rest
  end.

(** The text of an array: the opening line at the prefix [ind], one line per
    element two spaces deeper, the closing line at the prefix [ind']. *)
Definition array_text (ind key : string) (vals : list string) (ind' : string) : string :=
  ind +:+ key +:+ " = [" +:+ nl +:+
  element_lines (ind +:+ "  ") vals +:+
  ind' +:+ "]" +:+ nl.

(** The prefix [unindent] leaves when it returns. *)
Definition unindented (n : Z) (ind : string) : string :=
  if len ind <=? n then EmptyString
  else substring 0 (Z.to_nat (len ind - n)) ind.

(** A computation that leaves the struct of the builder at [w] as it is. *)
Definition preserves {A} (w : loc) (m : M A) : Prop :=
  forall h, is_Some (builders h !! w) ->
            builders (heap_of (m h)) !! w = builders h !! w.

(** The heap after [New()] on an empty heap: one builder, at address 1, and
    its empty buffer, at address 1 of the buffers. *)
Definition fresh_builder : TomlBuilder := mkTomlBuilder 2 EmptyString 1%positive.
Definition fresh_heap : heap := upd empty_heap 1%positive fresh_builder EmptyString.

(** The scenario of the README. *)
Definition readme_scenario : M string :=
  w <- New ;;
  AddString w "title" "x" ;;
  AddFloat w "budget" (float64_of_int64 50) ;;
  AddTable w "g" (fun b => AddString b "c" "y" ;; AddInt b "n" 3) ;;
  String_ w.

(** ** The earlier interface

    [tomlbuilder.go] holds the package as it was before the methods were
    renamed from [Write...] to [Add...]: the same struct, the same [New],
    [String], [write], [indent] and [unindent], a [WriteFloat] that hands
    the float64 to [%v] itself, and one array method, which writes the
    quotes in the format of the element line. *)
Module Legacy.

Definition WriteNewLine (w : loc) : M unit :=
  write w nl [].

Definition WriteComment (w : loc) (msg : string) : M unit :=
  write w "# %v" [AString msg].

Definition WriteString (w : loc) (key value : string) : M unit :=
  write w ("%v = " +:+ dq +:+ "%v" +:+ dq +:+ nl) [AString key; AString value].

Definition WriteInt (w : loc) (key : string) (value : Z) : M unit :=
  write w ("%v = %v" +:+ nl) [AString key; AInt value].

Definition WriteFloat (w : loc) (key : string) (value : float64) : M unit :=
  write w ("%v = %v" +:+ nl) [AString key; AFloat value].

Definition WriteStringArray (w : loc) (key : string) (array : list string) : M unit :=
  write w ("%v = [" +:+ nl) [AString key] ;;
  indent w ;;
  for_range array (fun val => write w (dq +:+ "%v" +:+ dq +:+ "," +:+ nl) [AString val]) ;;
  unindent w ;;
  write w ("]" +:+ nl) [].

Definition WriteArrayOfTables (w : loc) (name : string) (write_body : loc -> M unit) : M unit :=
  write w ("[[%v]]" +:+ nl) [AString name] ;;
  b <- load w ;;
  child <- new_TomlBuilder (mkTomlBuilder (IndentSize b) (indentation b) (buf b)) ;;
  write_body child.

End Legacy.

(** The magnitude of a finite float64 [m * 2^e], cut to a whole number, as
    the conversion to int64 cuts it. *)
Definition truncated (m : positive) (e : Z) : Z :=
  if 0 <=? e then Z.pos m * 2 ^ e else Z.pos m / 2 ^ (- e).

(** The number a run of digits writes after the digits read before it,
    whose number is [acc]. *)
Fixpoint decimal_value (s : string) (acc : Z) : Z :=
  match s with
  | EmptyString => acc
  | String c rest => decimal_value rest (10 * acc + digit_value c)
  end.

(** Every buffer of [h] is there in [h'] and holds what it held, and maybe
    more after it. *)
Definition extends (h h' : heap) : Prop :=
  forall p text, buffers h !! p = Some text ->
                 exists more, buffers h' !! p = Some (text +:+ more).

(** A computation that only ever appends to buffers, also when it panics. *)
Definition append_only {A} (m : M A) : Prop :=
  forall h, extends h (heap_of (m h)).

(** * Properties *)

(** ** Strings *)

Lemma app_nil_l (t : string) : EmptyString +:+ t = t.
Proof. reflexivity. Qed.

Lemma app_cons (c : ascii) (s t : string) : String c s +:+ t = String c (s +:+ t).
Proof. reflexivity. Qed.

Lemma app_nil_r (s : string) : s +:+ EmptyString = s.
Proof. induction s as [|c s IH]; rewrite ?app_cons, ?app_nil_l; congruence. Qed.

Lemma app_assoc (s t u : string) : (s +:+ t) +:+ u = s +:+ (t +:+ u).
Proof. induction s as [|c s IH]; rewrite ?app_cons, ?app_nil_l; congruence. Qed.

Lemma length_app (s t : string) :
  String.length (s +:+ t) = (String.length s + String.length t)%nat.
Proof.
  induction s as [|c s IH]; rewrite ?app_cons, ?app_nil_l; [done|].
  cbn [String.length]. by rewrite IH.
Qed.

Lemma substring_app (s t : string) : substring 0 (String.length s) (s +:+ t) = s.
Proof.
  induction s as [|c s IH]; rewrite ?app_cons, ?app_nil_l.
  - by destruct t.
  - cbn [String.length substring]. by rewrite IH.
Qed.

Lemma int_wrap_id (z : Z) : is_int z -> int_wrap z = z.
Proof.
  unfold is_int, int_min, int_max, int_wrap. intros Hz.
  rewrite Z.mod_small; lia.
Qed.

(** ** The monad *)

Lemma bind_Ok {A B} (m : M A) (k : A -> M B) (h h' : heap) (a : A) :
  m h = Ok a h' -> bind m k h = k a h'.
Proof. unfold bind. by intros ->. Qed.

Lemma bind_Panic {A B} (m : M A) (k : A -> M B) (h h' : heap) (msg : string) :
  m h = Panic msg h' -> bind m k h = Panic msg h'.
Proof. unfold bind. by intros ->. Qed.

Create HintDb go discriminated.

(** Run the next call of a sequence with a lemma of the hint database. *)
Ltac step := erewrite bind_Ok by eauto with go.

(** ** The heap operations on a builder and its buffer *)

Lemma upd_id (h : heap) (w : loc) (b : TomlBuilder) (text : string) :
  builders h !! w = Some b -> buffers h !! buf b = Some text -> upd h w b text = h.
Proof.
  intros Hb Ht. destruct h as [bs fs]. unfold upd. cbn in *.
  by rewrite !insert_id.
Qed.

Lemma load_upd (h : heap) (w : loc) (b : TomlBuilder) (text : string) :
  load w (upd h w b text) = Ok b (upd h w b text).
Proof. unfold load, upd. cbn. by rewrite lookup_insert_eq. Qed.
#[export] Hint Resolve load_upd : go.

Lemma write_upd (h : heap) (w : loc) (b : TomlBuilder) (text format : string)
    (args : list arg) :
  write w format args (upd h w b text)
  = Ok tt (upd h w b (text +:+ indentation b +:+ Sprintf format args)).
Proof.
  unfold write. step. unfold Buffer_Write, upd. cbn.
  rewrite lookup_insert_eq. by rewrite !insert_insert_eq.
Qed.
#[export] Hint Resolve write_upd : go.

Lemma set_indentation_upd (h : heap) (w : loc) (b : TomlBuilder) (text s : string) :
  set_indentation w s (upd h w b text)
  = Ok tt (upd h w (mkTomlBuilder (IndentSize b) s (buf b)) text).
Proof.
  unfold set_indentation. step. unfold store, upd. cbn.
  by rewrite !insert_insert_eq.
Qed.
#[export] Hint Resolve set_indentation_upd : go.

Lemma indent_upd (h : heap) (w : loc) (b : TomlBuilder) (text : string) :
  indent w (upd h w b text)
  = Ok tt (upd h w (mkTomlBuilder (IndentSize b) (indentation b +:+ "  ") (buf b)) text).
Proof. unfold indent. step. apply set_indentation_upd. Qed.
#[export] Hint Resolve indent_upd : go.

(** [unindent] at the empty prefix returns at once. *)
Lemma unindent_empty (h : heap) (w : loc) (b : TomlBuilder) :
  builders h !! w = Some b -> indentation b = EmptyString ->
  unindent w h = Ok tt h.
Proof.
  intros Hb Hi. unfold unindent, bind, load. rewrite Hb, Hi. reflexivity.
Qed.

Lemma unindent_upd (h : heap) (w : loc) (b : TomlBuilder) (text : string) :
  0 <= IndentSize b -> len (indentation b) <= int_max ->
  unindent w (upd h w b text)
  = Ok tt (upd h w (mkTomlBuilder (IndentSize b)
                      (unindented (IndentSize b) (indentation b)) (buf b)) text).
Proof.
  intros Hn Hl. unfold unindent. step. unfold unindented.
  assert (Hlen : 0 <= len (indentation b)) by (unfold len; lia).
  destruct (Z.eqb_spec (len (indentation b)) 0) as [H0|H0].
  - destruct (Z.leb_spec (len (indentation b)) (IndentSize b)); [|lia].
    unfold ret. f_equal. destruct b as [n ind p]; cbn in *.
    destruct ind; [done|]. unfold len in H0. cbn in H0. lia.
  - destruct (Z.leb_spec (len (indentation b)) (IndentSize b)).
    + apply set_indentation_upd.
    + unfold int_sub. rewrite int_wrap_id by (unfold is_int, int_min, int_max in *; lia).
      unfold slice_to.
      destruct (Z.leb_spec 0 (len (indentation b) - IndentSize b)); [|lia].
      destruct (Z.leb_spec (len (indentation b) - IndentSize b) (len (indentation b))); [|lia].
      cbn [andb]. unfold ret. step. apply set_indentation_upd.
Qed.

Lemma unindented_default (ind : string) : unindented 2 (ind +:+ "  ") = ind.
Proof.
  unfold unindented, len. rewrite length_app. cbn [String.length].
  destruct (Z.leb_spec (Z.of_nat (String.length ind + 2)) 2) as [H|H].
  - destruct ind; [done|]. cbn [String.length] in H. lia.
  - replace (Z.to_nat (Z.of_nat (String.length ind + 2) - 2)) with (String.length ind) by lia.
    apply substring_app.
Qed.

(** ** Arrays *)

Lemma Sprintf_element (val : string) :
  Sprintf ("%v," +:+ nl) [AString val] = val +:+ "," +:+ nl.
Proof. reflexivity. Qed.

Lemma Sprintf_open (key : string) :
  Sprintf ("%v = [" +:+ nl) [AString key] = key +:+ " = [" +:+ nl.
Proof. reflexivity. Qed.

Lemma Sprintf_close : Sprintf ("]" +:+ nl) [] = "]" +:+ nl.
Proof. reflexivity. Qed.

Lemma for_range_upd (h : heap) (w : loc) (b : TomlBuilder) (vals : list string) :
  forall text,
  for_range vals (fun val => write w ("%v," +:+ nl) [AString val]) (upd h w b text)
  = Ok tt (upd h w b (text +:+ element_lines (indentation b) vals)).
Proof.
  induction vals as [|val rest IH]; intros text; cbn [for_range element_lines].
  - rewrite app_nil_r. reflexivity.
  - step. rewrite IH, Sprintf_element. do 2 f_equal. by rewrite !app_assoc.
Qed.
#[export] Hint Resolve for_range_upd : go.

Lemma addArray_upd (h : heap) (w : loc) (b : TomlBuilder) (text key : string)
    (vals : list string) :
  0 <= IndentSize b -> len (indentation b) + 2 <= int_max ->
  let ind' := unindented (IndentSize b) (indentation b +:+ "  ") in
  addArray w key vals (upd h w b text)
  = Ok tt (upd h w (mkTomlBuilder (IndentSize b) ind' (buf b))
             (text +:+ array_text (indentation b) key vals ind')).
Proof.
  intros Hn Hl ind'. unfold addArray.
  step. step. step.
  erewrite bind_Ok.
  2:{ apply unindent_upd; cbn [IndentSize indentation]; [done|].
      unfold len in *. rewrite length_app. cbn [String.length]. lia. }
  rewrite write_upd. cbn [IndentSize indentation buf]. fold ind'.
  rewrite Sprintf_open, Sprintf_close.
  do 2 f_equal. unfold array_text. by rewrite !app_assoc.
Qed.

Lemma Sprintf_quoted (val : string) :
  Sprintf (dq +:+ "%v" +:+ dq) [AString val] = dq +:+ val +:+ dq.
Proof. reflexivity. Qed.

Lemma Sprintf_d (val : Z) : Sprintf "%d" [AInt val] = FormatInt val.
Proof. cbn. apply app_nil_r. Qed.

Example New_fresh_heap : New empty_heap = Ok 1%positive fresh_heap.
Proof. reflexivity. Qed.

(** X18: on a builder whose IndentSize is not negative, each array emitter
    returns and appends the opening line [key = [], one line per
    element in the order of the input (duplicates kept), each element
    formatted as the scalar emitter formats it and followed by a comma, and
    the closing line; the opening line stands at the builder's prefix, the
    element lines two spaces deeper, the closing line at the prefix the
    call leaves, which is the prefix before the call when IndentSize is the
    default 2.  For an empty input the closing line follows the opening
    line at once. *)
Theorem array_emitters_text (h : heap) (w : loc) (b : TomlBuilder)
    (text key : string) (strs : list string) (ints : list Z)
    (floats : list float64) (bools : list bool) :
  builders h !! w = Some b -> buffers h !! buf b = Some text ->
  0 <= IndentSize b -> len (indentation b) + 2 <= int_max ->
  let ind' := unindented (IndentSize b) (indentation b +:+ "  ") in
  let appended (vals : list string) : result unit :=
    Ok tt (upd h w (mkTomlBuilder (IndentSize b) ind' (buf b))
             (text +:+ array_text (indentation b) key vals ind')) in
  AddStringArray w key strs h = appended (map (fun s => dq +:+ s +:+ dq) strs) /\
  AddIntArray w key ints h = appended (map FormatInt ints) /\
  AddFloatArray w key floats h = appended (map formatFloat floats) /\
  AddBoolArray w key bools h = appended (map FormatBool bools) /\
  (IndentSize b = 2 -> ind' = indentation b) /\
  array_text (indentation b) key [] ind'
  = indentation b +:+ key +:+ " = [" +:+ nl +:+ ind' +:+ "]" +:+ nl.
Proof.
  intros Hb Ht Hn Hl ind' appended.
  rewrite <- (upd_id h w b text Hb Ht) at 1 2 3 4.
  unfold AddStringArray, AddIntArray, AddFloatArray, AddBoolArray, appended.
  repeat split.
  - by rewrite addArray_upd.
  - rewrite addArray_upd by done. fold ind'.
    by rewrite (map_ext _ FormatInt Sprintf_d).
  - by rewrite addArray_upd.
  - by rewrite addArray_upd.
  - intros H2. unfold ind'. rewrite H2. apply unindented_default.
Qed.

Lemma array_emitters_text_witness :
  AddIntArray 1%positive "a" [] fresh_heap
  = Ok tt (upd fresh_heap 1%positive fresh_builder ("a = [" +:+ nl +:+ "]" +:+ nl))
  /\ AddStringArray 1%positive "a" ["x"; "y"; "x"]%string fresh_heap
  = Ok tt (upd fresh_heap 1%positive fresh_builder
             ("a = [" +:+ nl +:+
              "  " +:+ dq +:+ "x" +:+ dq +:+ "," +:+ nl +:+
              "  " +:+ dq +:+ "y" +:+ dq +:+ "," +:+ nl +:+
              "  " +:+ dq +:+ "x" +:+ dq +:+ "," +:+ nl +:+
              "]" +:+ nl)).
Proof.
  pose proof (array_emitters_text fresh_heap 1%positive fresh_builder EmptyString "a"
                ["x"; "y"; "x"]%string [] [] []
                eq_refl eq_refl ltac:(vm_compute; discriminate)
                ltac:(vm_compute; discriminate)) as (Hs & Hi & _).
  split; [exact Hi | exact Hs].
Defined.

(** C6: after IndentSize is set to -1, [AddIntArray] with the elements 1
    and 2 does not append the closing line: it panics in [unindent], and
    the buffer then holds the opening line and the two element lines and
    nothing after them. *)
Theorem array_closing_line_missing :
  exists h : heap,
    (w <- New ;; set_IndentSize w (-1) ;; AddIntArray w "a" [1; 2]) empty_heap
    = Panic slice_out_of_range h /\
    buffers h !! 1%positive
    = Some ("a = [" +:+ nl +:+ "  1," +:+ nl +:+ "  2," +:+ nl).
Proof. eexists. split; vm_compute; reflexivity. Qed.

(** ** Indentation *)

(** C9: at the empty prefix [unindent] returns without a panic and leaves
    the whole heap, so also the empty prefix, as it was, whatever the value
    of IndentSize. *)
Theorem unindent_at_root (h : heap) (w : loc) (b : TomlBuilder) :
  builders h !! w = Some b -> indentation b = EmptyString ->
  unindent w h = Ok tt h /\ indentation_at h w = Some EmptyString.
Proof.
  intros Hb Hi. split.
  - by apply unindent_empty with b.
  - unfold indentation_at. by rewrite Hb, <- Hi.
Qed.

Lemma unindent_at_root_witness :
  unindent 1%positive (upd empty_heap 1%positive (mkTomlBuilder (-7) EmptyString 1%positive) EmptyString)
  = Ok tt (upd empty_heap 1%positive (mkTomlBuilder (-7) EmptyString 1%positive) EmptyString).
Proof.
  exact (proj1 (unindent_at_root
                  (upd empty_heap 1%positive (mkTomlBuilder (-7) EmptyString 1%positive) EmptyString)
                  1%positive (mkTomlBuilder (-7) EmptyString 1%positive) eq_refl eq_refl)).
Defined.

(** C2: with IndentSize set to 1 an array emitter on a fresh builder leaves
    the prefix one space long, where it was empty before the call: [indent]
    adds two spaces whatever IndentSize is, [unindent] removes IndentSize
    bytes. *)
Theorem array_prefix_not_restored :
  exists h0 h1 : heap,
    (w <- New ;; set_IndentSize w 1 ;; ret w) empty_heap = Ok 1%positive h0 /\
    indentation_at h0 1%positive = Some EmptyString /\
    AddIntArray 1%positive "a" [1] h0 = Ok tt h1 /\
    indentation_at h1 1%positive = Some " "%string.
Proof.
  eexists _, _. split; [reflexivity|]. split; [reflexivity|].
  split; [vm_compute; reflexivity|]. reflexivity.
Qed.

(** With IndentSize set to 4 the element lines still stand two spaces
    deeper than the opening line. *)
Example array_elements_two_spaces :
  value_of ((w <- New ;; set_IndentSize w 4 ;; AddIntArray w "a" [1] ;; String_ w) empty_heap)
  = Some ("a = [" +:+ nl +:+ "  1," +:+ nl +:+ "]" +:+ nl).
Proof. reflexivity. Qed.

(** C3: after IndentSize is set to -1 an array emitter panics: [unindent]
    slices the prefix beyond its length. *)
Theorem array_emitter_panics :
  exists h : heap,
    (w <- New ;; set_IndentSize w (-1) ;; AddIntArray w "a" []) empty_heap
    = Panic slice_out_of_range h.
Proof. eexists. vm_compute. reflexivity. Qed.

(** ** Scalars *)

(** C8: [AddNewLine] appends the builder's prefix and then one newline
    character, so one newline character alone when the prefix is empty; the
    builder is left as it was. *)
Theorem AddNewLine_appends (h : heap) (w : loc) (b : TomlBuilder) (text : string) :
  builders h !! w = Some b -> buffers h !! buf b = Some text ->
  AddNewLine w h = Ok tt (upd h w b (text +:+ indentation b +:+ nl)) /\
  (indentation b = EmptyString ->
   AddNewLine w h = Ok tt (upd h w b (text +:+ nl))).
Proof.
  intros Hb Ht. rewrite <- (upd_id h w b text Hb Ht) at 1 3.
  unfold AddNewLine. rewrite write_upd. split; [done|].
  by intros ->.
Qed.

Lemma AddNewLine_appends_witness :
  AddNewLine 1%positive fresh_heap = Ok tt (upd fresh_heap 1%positive fresh_builder nl).
Proof.
  exact (proj2 (AddNewLine_appends fresh_heap 1%positive fresh_builder EmptyString
                  eq_refl eq_refl) eq_refl).
Defined.

(** A builder whose prefix is two spaces, as an array emitter leaves it when
    IndentSize is 0: [AddNewLine] appends the two spaces before the
    newline. *)
Lemma AddNewLine_prepends_prefix :
  exists h0 h1 : heap,
    (w <- New ;; set_IndentSize w 0 ;; AddIntArray w "a" [] ;; ret w) empty_heap
    = Ok 1%positive h0 /\
    buffers h0 !! 1%positive = Some ("a = [" +:+ nl +:+ "  ]" +:+ nl) /\
    AddNewLine 1%positive h0 = Ok tt h1 /\
    buffers h1 !! 1%positive = Some (("a = [" +:+ nl +:+ "  ]" +:+ nl) +:+ "  " +:+ nl) /\
    buffers h1 !! 1%positive <> Some (("a = [" +:+ nl +:+ "  ]" +:+ nl) +:+ nl).
Proof.
  eexists _, _. split; [vm_compute; reflexivity|]. split; [reflexivity|].
  split; [vm_compute; reflexivity|]. split; [reflexivity|].
  vm_compute. discriminate.
Qed.

(** ** Tables *)

Lemma new_TomlBuilder_fresh (h : heap) (b : TomlBuilder) :
  builders h !! fresh (dom (builders h)) = None.
Proof. apply not_elem_of_dom, is_fresh. Qed.

Lemma table_upd (h : heap) (w : loc) (b : TomlBuilder) (text format : string)
    (args : list arg) (write_body : loc -> M unit) :
  builders h !! w = Some b -> buffers h !! buf b = Some text ->
  (write w format args ;;
   b <- load w ;;
   child <- new_TomlBuilder (mkTomlBuilder (IndentSize b) (indentation b) (buf b)) ;;
   write_body child) h
  = write_body (fresh (dom (builders h)))
      (mkHeap (<[fresh (dom (builders h)) := b]> (builders h))
              (<[buf b := text +:+ indentation b +:+ Sprintf format args]> (buffers h))).
Proof.
  intros Hb Ht. rewrite <- (upd_id h w b text Hb Ht) at 1.
  step. step. unfold bind, new_TomlBuilder, upd. cbn [builders buffers].
  rewrite (insert_id (builders h) w b Hb). by destruct b.
Qed.

Lemma Sprintf_table (name : string) :
  Sprintf ("[%v]" +:+ nl) [AString name] = ("[" +:+ name +:+ "]") +:+ nl.
Proof. rewrite !app_assoc. reflexivity. Qed.

Lemma Sprintf_tables (name : string) :
  Sprintf ("[[%v]]" +:+ nl) [AString name] = ("[[" +:+ name +:+ "]]") +:+ nl.
Proof. rewrite !app_assoc. reflexivity. Qed.

(** C7: [AddTable] appends the line [[name]] at the builder's prefix, then
    runs the callback, once, on a new builder that has the same IndentSize
    and the same prefix and points to the same buffer; what the callback
    returns, heap and all, is what the call returns, so nothing is appended
    after it.  [AddArrayOfTables] does the same with the line [[[name]]]. *)
Theorem tables_run_body_once (h : heap) (w : loc) (b : TomlBuilder)
    (text name : string) (write_body : loc -> M unit) :
  builders h !! w = Some b -> buffers h !! buf b = Some text ->
  let child := fresh (dom (builders h)) in
  let entered (header : string) : heap :=
    mkHeap (<[child := b]> (builders h))
           (<[buf b := text +:+ indentation b +:+ header +:+ nl]> (buffers h)) in
  builders h !! child = None /\
  AddTable w name write_body h
  = write_body child (entered ("[" +:+ name +:+ "]")) /\
  AddArrayOfTables w name write_body h
  = write_body child (entered ("[[" +:+ name +:+ "]]")).
Proof.
  intros Hb Ht child entered. split; [by apply new_TomlBuilder_fresh|].
  unfold AddTable, AddArrayOfTables.
  rewrite !(table_upd h w b text _ _ _ Hb Ht).
  by rewrite Sprintf_table, Sprintf_tables.
Qed.

Lemma tables_run_body_once_witness :
  AddTable 1%positive "t" (fun c => AddString c "k" "v") fresh_heap
  = Ok tt (mkHeap (<[2%positive := fresh_builder]> (builders fresh_heap))
             (<[1%positive := "[t]" +:+ nl +:+ "k = " +:+ dq +:+ "v" +:+ dq +:+ nl]>
                (buffers fresh_heap))).
Proof.
  rewrite (proj1 (proj2 (tables_run_body_once fresh_heap 1%positive fresh_builder
                           EmptyString "t" (fun c => AddString c "k" "v")
                           eq_refl eq_refl))).
  vm_compute. reflexivity.
Defined.

(** ** What a call leaves of another builder *)

Section Preserves.
Variable w : loc.

Lemma preserves_ret {A} (a : A) : preserves w (ret a).
Proof. by intros h _. Qed.

Lemma preserves_panic {A} (msg : string) : preserves w (@panic A msg).
Proof. by intros h _. Qed.

Lemma preserves_bind {A B} (m : M A) (k : A -> M B) :
  preserves w m -> (forall a, preserves w (k a)) -> preserves w (bind m k).
Proof.
  intros Hm Hk h Hs. specialize (Hm h Hs). unfold bind.
  destruct (m h) as [a h'|msg h']; cbn [heap_of] in *; [|done].
  rewrite <- Hm. apply Hk. by rewrite Hm.
Qed.

Lemma preserves_load (c : loc) : preserves w (load c).
Proof. intros h _. unfold load. by destruct (builders h !! c). Qed.

Lemma preserves_store (c : loc) (b : TomlBuilder) : c <> w -> preserves w (store c b).
Proof. intros Hc h _. unfold store. cbn. by rewrite lookup_insert_ne. Qed.

Lemma preserves_new_TomlBuilder (b : TomlBuilder) : preserves w (new_TomlBuilder b).
Proof.
  intros h Hs. unfold new_TomlBuilder. cbn. rewrite lookup_insert_ne; [done|].
  intros Heq. apply elem_of_dom in Hs. rewrite <- Heq in Hs.
  by apply is_fresh in Hs.
Qed.

Lemma preserves_Buffer_Write (p : loc) (s : string) : preserves w (Buffer_Write p s).
Proof. intros h _. unfold Buffer_Write. by destruct (buffers h !! p). Qed.

Lemma preserves_slice_to (s : string) (n : Z) : preserves w (slice_to s n).
Proof. intros h _. unfold slice_to. by destruct (_ && _). Qed.

Hint Resolve preserves_ret preserves_panic preserves_load preserves_store
  preserves_new_TomlBuilder preserves_Buffer_Write preserves_slice_to : go.

(** Take a sequence of calls apart. *)
Ltac frame := repeat (apply preserves_bind; [|intros]); eauto with go.

Lemma preserves_for_range {A} (array : list A) (body : A -> M unit) :
  (forall val, preserves w (body val)) -> preserves w (for_range array body).
Proof. intros Hb. induction array as [|val rest IH]; cbn [for_range]; frame. Qed.

Lemma preserves_write (c : loc) (format : string) (args : list arg) :
  preserves w (write c format args).
Proof. unfold write. frame. Qed.

Lemma preserves_set_IndentSize (c : loc) (n : Z) :
  c <> w -> preserves w (set_IndentSize c n).
Proof. intros Hc. unfold set_IndentSize. frame. Qed.

Lemma preserves_set_indentation (c : loc) (s : string) :
  c <> w -> preserves w (set_indentation c s).
Proof. intros Hc. unfold set_indentation. frame. Qed.

Hint Resolve preserves_write preserves_set_IndentSize preserves_set_indentation : go.

Lemma preserves_addArray (c : loc) (key : string) (array : list string) :
  c <> w -> preserves w (addArray c key array).
Proof.
  intros Hc. unfold addArray, indent, unindent. frame.
  - apply preserves_for_range. eauto with go.
  - repeat case_match; frame.
Qed.

(** The callback of a table runs on a new builder, which is not [w]. *)
Lemma preserves_child (b : TomlBuilder) (write_body : loc -> M unit) :
  (forall c', c' <> w -> preserves w (write_body c')) ->
  preserves w (child <- new_TomlBuilder b ;; write_body child).
Proof.
  intros Hf h Hs. unfold bind, new_TomlBuilder.
  set (c' := fresh (dom (builders h))).
  assert (c' <> w) as Hc'.
  { intros Heq. apply elem_of_dom in Hs. rewrite <- Heq in Hs. by apply is_fresh in Hs. }
  rewrite Hf; cbn; rewrite ?lookup_insert_ne; done.
Qed.

Lemma preserves_AddTable (c : loc) (name : string) (write_body : loc -> M unit) :
  (forall c', c' <> w -> preserves w (write_body c')) ->
  preserves w (AddTable c name write_body).
Proof.
  intros Hf. unfold AddTable.
  apply preserves_bind; [apply preserves_write|intros _].
  apply preserves_bind; [apply preserves_load|intros b].
  by apply preserves_child.
Qed.

Lemma preserves_AddArrayOfTables (c : loc) (name : string) (write_body : loc -> M unit) :
  (forall c', c' <> w -> preserves w (write_body c')) ->
  preserves w (AddArrayOfTables c name write_body).
Proof.
  intros Hf. unfold AddArrayOfTables.
  apply preserves_bind; [apply preserves_write|intros _].
  apply preserves_bind; [apply preserves_load|intros b].
  by apply preserves_child.
Qed.

(** Every method of the package, called on another builder, leaves the
    builder at [w] as it is, and so does assigning to the other builder's
    IndentSize. *)
Lemma preserves_methods (c : loc) :
  c <> w ->
  preserves w (AddNewLine c) /\
  (forall msg, preserves w (AddComment c msg)) /\
  (forall key value, preserves w (AddString c key value)) /\
  (forall key value, preserves w (AddInt c key value)) /\
  (forall key value, preserves w (AddFloat c key value)) /\
  (forall key value, preserves w (AddBool c key value)) /\
  (forall key array, preserves w (AddStringArray c key array)) /\
  (forall key array, preserves w (AddIntArray c key array)) /\
  (forall key array, preserves w (AddFloatArray c key array)) /\
  (forall key array, preserves w (AddBoolArray c key array)) /\
  (forall n, preserves w (set_IndentSize c n)).
Proof.
  intros Hc. repeat split; intros;
    try (apply preserves_write);
    try (apply preserves_addArray; done);
    try (by apply preserves_set_IndentSize).
Qed.
End Preserves.

(** C10: when the callback leaves the struct of the builder at [w] as it is
    on every builder other than [w] it is handed, [AddTable] and
    [AddArrayOfTables] on [w] leave it too, IndentSize and prefix included:
    the callback gets a new builder, so what it does to the builder it is
    handed never reaches [w]. *)
Theorem tables_leave_parent (h : heap) (w : loc) (b : TomlBuilder) (name : string)
    (write_body : loc -> M unit) :
  (forall c, c <> w -> preserves w (write_body c)) ->
  builders h !! w = Some b ->
  builders (heap_of (AddTable w name write_body h)) !! w = Some b /\
  builders (heap_of (AddArrayOfTables w name write_body h)) !! w = Some b.
Proof.
  intros Hf Hb. rewrite <- Hb. split.
  - by apply preserves_AddTable.
  - by apply preserves_AddArrayOfTables.
Qed.

Lemma tables_leave_parent_witness :
  builders (heap_of (AddTable 1%positive "t"
                       (fun c => set_IndentSize c 7 ;; AddIntArray c "a" [1; 2])
                       fresh_heap)) !! 1%positive
  = Some fresh_builder.
Proof.
  refine (proj1 (tables_leave_parent fresh_heap 1%positive fresh_builder "t"
                   (fun c => set_IndentSize c 7 ;; AddIntArray c "a" [1; 2]) _ eq_refl)).
  intros c Hc. apply preserves_bind.
  - by apply preserves_set_IndentSize.
  - intros _. by apply preserves_addArray.
Defined.

(** A callback that assigns to the IndentSize of the builder the table is
    added to: the assignment is there after the call. *)
Lemma callback_writes_parent :
  exists h : heap,
    AddTable 1%positive "t" (fun _ => set_IndentSize 1%positive 7) fresh_heap = Ok tt h /\
    IndentSize <$> builders fresh_heap !! 1%positive = Some 2 /\
    IndentSize <$> builders h !! 1%positive = Some 7.
Proof. eexists. repeat split; vm_compute; reflexivity. Qed.

(** ** The scenario of the README *)

(** C1: the scenario renders with no blank line before the table: the
    header [[g]] follows the line of [budget] at once. *)
Theorem readme_scenario_text :
  value_of (readme_scenario empty_heap)
  = Some ("title = " +:+ dq +:+ "x" +:+ dq +:+ nl +:+
          "budget = 50.0" +:+ nl +:+
          "[g]" +:+ nl +:+
          "c = " +:+ dq +:+ "y" +:+ dq +:+ nl +:+
          "n = 3" +:+ nl).
Proof. vm_compute. reflexivity. Qed.

(** ** Floats *)

(** C4: the float 1000000 is integral and is rendered in scientific
    notation with [.0] after the exponent. *)
Theorem formatFloat_million :
  formatFloat (float64_of_int64 1000000) = "1e+06.0"%string.
Proof. vm_compute. reflexivity. Qed.

Example formatFloat_tests :
  formatFloat (float64_of_ratio 2345 100) = "23.45"%string /\
  formatFloat (float64_of_int64 8) = "8.0"%string /\
  formatFloat (float64_of_int64 0) = "0.0"%string /\
  formatFloat (float64_of_ratio 4 1000) = "0.004"%string.
Proof.
  split; [vm_compute; reflexivity|]. split; [vm_compute; reflexivity|].
  split; vm_compute; reflexivity.
Qed.

(** ** Scalar entries and comments *)

Lemma Sprintf_entry (key value : string) :
  Sprintf ("%v = %v" +:+ nl) [AString key; AString value]
  = key +:+ " = " +:+ value +:+ nl.
Proof. rewrite ?app_assoc. reflexivity. Qed.

Lemma Sprintf_int_entry (key : string) (value : Z) :
  Sprintf ("%v = %v" +:+ nl) [AString key; AInt value]
  = key +:+ " = " +:+ FormatInt value +:+ nl.
Proof. rewrite ?app_assoc. reflexivity. Qed.

Lemma Sprintf_string_entry (key value : string) :
  Sprintf ("%v = " +:+ dq +:+ "%v" +:+ dq +:+ nl) [AString key; AString value]
  = key +:+ " = " +:+ dq +:+ value +:+ dq +:+ nl.
Proof. rewrite ?app_assoc. reflexivity. Qed.

Lemma Sprintf_comment (msg : string) : Sprintf "# %v" [AString msg] = "# " +:+ msg.
Proof. cbn. by rewrite app_nil_r. Qed.

(** X1: each scalar emitter returns and appends one line: the prefix, the key,
    [ = ], the value and a newline.  The key and a string value are copied
    as they are: nothing is escaped, and no [%] in them is read as a verb.
    The struct of the builder and the other buffers stay as they were. *)
Theorem scalar_emitters_text (h : heap) (w : loc) (b : TomlBuilder)
    (text key : string) (s : string) (n : Z) (f : float64) (t : bool) :
  builders h !! w = Some b -> buffers h !! buf b = Some text ->
  let appended (line : string) : result unit :=
    Ok tt (upd h w b (text +:+ indentation b +:+ line +:+ nl)) in
  AddString w key s h = appended (key +:+ " = " +:+ dq +:+ s +:+ dq) /\
  AddInt w key n h = appended (key +:+ " = " +:+ FormatInt n) /\
  AddFloat w key f h = appended (key +:+ " = " +:+ formatFloat f) /\
  AddBool w key t h = appended (key +:+ " = " +:+ (if t then "true" else "false")).
Proof.
  intros Hb Ht appended.
  rewrite <- (upd_id h w b text Hb Ht) at 1 2 3 4.
  unfold AddString, AddInt, AddFloat, AddBool, appended.
  rewrite !write_upd, Sprintf_string_entry, Sprintf_int_entry, !Sprintf_entry.
  rewrite !app_assoc. by destruct t.
Qed.

Lemma scalar_emitters_text_witness :
  AddString 1%positive "k" "100%v" fresh_heap
  = Ok tt (upd fresh_heap 1%positive fresh_builder
             ("k = " +:+ dq +:+ "100%v" +:+ dq +:+ nl)).
Proof.
  exact (proj1 (scalar_emitters_text fresh_heap 1%positive fresh_builder EmptyString
                  "k" "100%v" 0 (S754_zero false) true eq_refl eq_refl)).
Defined.

(** X2: [AddComment] appends the prefix, [# ] and the message as it is, and no
    newline: an entry added next lands on the line of the comment. *)
Theorem AddComment_leaves_line_open (h : heap) (w : loc) (b : TomlBuilder)
    (text msg key value : string) :
  builders h !! w = Some b -> buffers h !! buf b = Some text ->
  AddComment w msg h = Ok tt (upd h w b (text +:+ indentation b +:+ "# " +:+ msg)) /\
  (AddComment w msg ;; AddString w key value) h
  = Ok tt (upd h w b (text +:+ indentation b +:+ "# " +:+ msg +:+
                      indentation b +:+ key +:+ " = " +:+ dq +:+ value +:+ dq +:+ nl)).
Proof.
  intros Hb Ht. rewrite <- (upd_id h w b text Hb Ht) at 1 3.
  unfold AddComment, AddString. split.
  - by rewrite write_upd, Sprintf_comment.
  - step. rewrite write_upd, Sprintf_comment, Sprintf_string_entry.
    by rewrite !app_assoc.
Qed.

Lemma AddComment_leaves_line_open_witness :
  (AddComment 1%positive "note" ;; AddString 1%positive "k" "v") fresh_heap
  = Ok tt (upd fresh_heap 1%positive fresh_builder
             ("# notek = " +:+ dq +:+ "v" +:+ dq +:+ nl)).
Proof.
  exact (proj2 (AddComment_leaves_line_open fresh_heap 1%positive fresh_builder
                  EmptyString "note" "k" "v" eq_refl eq_refl)).
Defined.

(** ** New and String *)

(** X3: [New] returns on every heap: the builder and its buffer are new
    addresses, the builder has IndentSize 2 and the empty prefix, the buffer
    is empty, so [String] on the new builder returns the empty text, and
    nothing that was in the heap is touched. *)
Theorem New_allocates (h : heap) :
  exists (w p : loc) (h' : heap),
    New h = Ok w h' /\
    builders h !! w = None /\ buffers h !! p = None /\
    h' = mkHeap (<[w := mkTomlBuilder 2 EmptyString p]> (builders h))
                (<[p := EmptyString]> (buffers h)) /\
    String_ w h' = Ok EmptyString h'.
Proof.
  eexists (fresh (dom (builders h))), (fresh (dom (buffers h))), _.
  split; [reflexivity|].
  split; [apply not_elem_of_dom, is_fresh|].
  split; [apply not_elem_of_dom, is_fresh|].
  split; [reflexivity|].
  unfold String_, bind, load, Buffer_String. cbn [builders buffers].
  rewrite lookup_insert_eq. cbn [buf builders buffers]. by rewrite lookup_insert_eq.
Qed.

(** ** Buffers only grow *)

Lemma extends_refl (h : heap) : extends h h.
Proof. intros p text Hp. exists EmptyString. by rewrite app_nil_r. Qed.

Lemma extends_trans (h1 h2 h3 : heap) : extends h1 h2 -> extends h2 h3 -> extends h1 h3.
Proof.
  intros H12 H23 p text Hp.
  destruct (H12 p text Hp) as [more Hq]. destruct (H23 p _ Hq) as [more' Hr].
  exists (more +:+ more'). by rewrite <- app_assoc.
Qed.

Lemma append_only_ret {A} (a : A) : append_only (ret a).
Proof. intros h. apply extends_refl. Qed.

Lemma append_only_panic {A} (msg : string) : append_only (@panic A msg).
Proof. intros h. apply extends_refl. Qed.

Lemma append_only_bind {A B} (m : M A) (k : A -> M B) :
  append_only m -> (forall a, append_only (k a)) -> append_only (bind m k).
Proof.
  intros Hm Hk h. specialize (Hm h). unfold bind.
  destruct (m h) as [a h'|msg h']; cbn [heap_of] in *; [|done].
  eapply extends_trans; [exact Hm|apply Hk].
Qed.

Lemma append_only_load (w : loc) : append_only (load w).
Proof. intros h. unfold load. destruct (builders h !! w); apply extends_refl. Qed.

Lemma append_only_store (w : loc) (b : TomlBuilder) : append_only (store w b).
Proof. intros h p text Hp. exists EmptyString. by rewrite app_nil_r. Qed.

Lemma append_only_new_TomlBuilder (b : TomlBuilder) : append_only (new_TomlBuilder b).
Proof. intros h p text Hp. exists EmptyString. by rewrite app_nil_r. Qed.

Lemma append_only_new_Buffer : append_only new_Buffer.
Proof.
  intros h p text Hp. exists EmptyString. rewrite app_nil_r.
  unfold new_Buffer. cbn. rewrite lookup_insert_ne; [done|].
  intros Heq. assert (p ∈ dom (buffers h)) as Hd by (apply elem_of_dom; eauto).
  rewrite <- Heq in Hd. by apply is_fresh in Hd.
Qed.

Lemma append_only_Buffer_Write (q : loc) (s : string) : append_only (Buffer_Write q s).
Proof.
  intros h p text Hp. unfold Buffer_Write.
  destruct (buffers h !! q) as [old|] eqn:Hq; cbn.
  - destruct (decide (q = p)) as [->|Hne].
    + rewrite lookup_insert_eq. exists s. congruence.
    + rewrite lookup_insert_ne by done. exists EmptyString. by rewrite app_nil_r.
  - exists EmptyString. by rewrite app_nil_r.
Qed.

Lemma append_only_Buffer_String (q : loc) : append_only (Buffer_String q).
Proof. intros h. unfold Buffer_String. destruct (buffers h !! q); apply extends_refl. Qed.

Lemma append_only_slice_to (s : string) (n : Z) : append_only (slice_to s n).
Proof. intros h. unfold slice_to. destruct (_ && _); apply extends_refl. Qed.

#[export] Hint Resolve append_only_ret append_only_panic append_only_load
  append_only_store append_only_new_TomlBuilder append_only_new_Buffer
  append_only_Buffer_Write append_only_Buffer_String append_only_slice_to : go.

(** Take a sequence of calls apart. *)
Ltac grow := repeat (apply append_only_bind; [|intros]); eauto with go.

Lemma append_only_for_range {A} (array : list A) (body : A -> M unit) :
  (forall val, append_only (body val)) -> append_only (for_range array body).
Proof. intros Hb. induction array as [|val rest IH]; cbn [for_range]; grow. Qed.

Lemma append_only_write (w : loc) (format : string) (args : list arg) :
  append_only (write w format args).
Proof. unfold write. grow. Qed.

Lemma append_only_set_indentation (w : loc) (s : string) :
  append_only (set_indentation w s).
Proof. unfold set_indentation. grow. Qed.

#[export] Hint Resolve append_only_write append_only_set_indentation : go.

Lemma append_only_addArray (w : loc) (key : string) (array : list string) :
  append_only (addArray w key array).
Proof.
  unfold addArray, indent, unindent. grow.
  - apply append_only_for_range. eauto with go.
  - repeat case_match; grow.
Qed.

Lemma append_only_table (w : loc) (format : string) (args : list arg)
    (write_body : loc -> M unit) :
  (forall c, append_only (write_body c)) ->
  append_only (write w format args ;;
               b <- load w ;;
               child <- new_TomlBuilder (mkTomlBuilder (IndentSize b) (indentation b) (buf b)) ;;
               write_body child).
Proof. intros Hf. grow. Qed.

(** X5: whatever the receiver and the arguments, and whether the call returns
    or panics, a method leaves in every buffer the text that was there, with
    at most more text after it; [New] leaves the buffers there are as they
    are.  The table methods do so when their callback does. *)
Theorem methods_append_only (w : loc) :
  append_only New /\
  append_only (AddNewLine w) /\
  (forall msg, append_only (AddComment w msg)) /\
  (forall key value, append_only (AddString w key value)) /\
  (forall key value, append_only (AddInt w key value)) /\
  (forall key value, append_only (AddFloat w key value)) /\
  (forall key value, append_only (AddBool w key value)) /\
  (forall key array, append_only (AddStringArray w key array)) /\
  (forall key array, append_only (AddIntArray w key array)) /\
  (forall key array, append_only (AddFloatArray w key array)) /\
  (forall key array, append_only (AddBoolArray w key array)) /\
  (forall name write_body, (forall c, append_only (write_body c)) ->
                           append_only (AddTable w name write_body)) /\
  (forall name write_body, (forall c, append_only (write_body c)) ->
                           append_only (AddArrayOfTables w name write_body)) /\
  append_only (String_ w).
Proof.
  repeat split; intros;
    try (apply append_only_write);
    try (apply append_only_addArray);
    try (by apply append_only_table).
  - unfold New. grow.
  - unfold String_. grow.
Qed.

(** A table whose callback sets IndentSize to -1 and adds an array: the call
    panics, and the text that was in the buffer is still the start of it. *)
Lemma methods_append_only_witness :
  exists more : string,
    buffers (heap_of (AddTable 1%positive "t"
                        (fun c => set_IndentSize c (-1) ;; AddIntArray c "a" [1])
                        (upd fresh_heap 1%positive fresh_builder "x = 1")))
      !! 1%positive
    = Some ("x = 1" +:+ more).
Proof.
  refine (proj1 (proj2 (proj2 (proj2 (proj2 (proj2 (proj2 (proj2 (proj2 (proj2 (proj2
            (proj2 (methods_append_only 1%positive))))))))))))
            "t" (fun c => set_IndentSize c (-1) ;; AddIntArray c "a" [1]) _
            (upd fresh_heap 1%positive fresh_builder "x = 1") 1%positive "x = 1" eq_refl).
  intros c. apply append_only_bind.
  - unfold set_IndentSize. grow.
  - intros _. apply append_only_addArray.
Defined.

(** ** A negative IndentSize *)

Lemma int_wrap_above (z : Z) : int_max < z < 2 ^ 64 -> int_wrap z = z - 2 ^ 64.
Proof.
  unfold int_max, int_wrap. intros Hz.
  replace (z + 2 ^ 63) with ((z - 2 ^ 63) + 1 * 2 ^ 64) by lia.
  rewrite Z.mod_add by lia. rewrite Z.mod_small; lia.
Qed.

Lemma unindent_negative (h : heap) (w : loc) (b : TomlBuilder) (text : string) :
  is_int (IndentSize b) -> IndentSize b < 0 ->
  0 < len (indentation b) <= int_max ->
  unindent w (upd h w b text) = Panic slice_out_of_range (upd h w b text).
Proof.
  intros Hi Hn Hl. unfold unindent. step.
  destruct (Z.eqb_spec (len (indentation b)) 0); [lia|].
  destruct (Z.leb_spec (len (indentation b)) (IndentSize b)); [lia|].
  erewrite bind_Panic; [reflexivity|].
  unfold slice_to, int_sub.
  assert (int_wrap (len (indentation b) - IndentSize b) < 0
          \/ len (indentation b) < int_wrap (len (indentation b) - IndentSize b)) as Hw.
  { destruct (Z_le_gt_dec (len (indentation b) - IndentSize b) int_max).
    - right. rewrite int_wrap_id; [lia|]. unfold is_int, int_min, int_max in *. lia.
    - left. rewrite int_wrap_above; unfold is_int, int_min, int_max in *; lia. }
  destruct (Z.leb_spec 0 (int_wrap (len (indentation b) - IndentSize b)));
    destruct (Z.leb_spec (int_wrap (len (indentation b) - IndentSize b))
                (len (indentation b))); cbn [andb]; try reflexivity; lia.
Qed.

Lemma addArray_negative (h : heap) (w : loc) (b : TomlBuilder) (text key : string)
    (vals : list string) :
  is_int (IndentSize b) -> IndentSize b < 0 -> len (indentation b) + 2 <= int_max ->
  addArray w key vals (upd h w b text)
  = Panic slice_out_of_range
      (upd h w (mkTomlBuilder (IndentSize b) (indentation b +:+ "  ") (buf b))
         (text +:+ indentation b +:+ key +:+ " = [" +:+ nl +:+
          element_lines (indentation b +:+ "  ") vals)).
Proof.
  intros Hi Hn Hl. unfold addArray.
  step. step. step.
  erewrite bind_Panic.
  2:{ apply unindent_negative; cbn [IndentSize indentation]; [done|done|].
      unfold len in *. rewrite length_app. cbn [String.length]. lia. }
  cbn [IndentSize indentation buf]. rewrite Sprintf_open.
  do 2 f_equal. by rewrite !app_assoc.
Qed.

(** X6: with a negative IndentSize each array emitter panics in [unindent], with
    Go's slice-bounds error: by then the opening line and the element lines
    are in the buffer and the prefix is two spaces longer; the closing line
    is never written. *)
Theorem array_emitters_negative_IndentSize (h : heap) (w : loc) (b : TomlBuilder)
    (text key : string) (strs : list string) (ints : list Z)
    (floats : list float64) (bools : list bool) :
  builders h !! w = Some b -> buffers h !! buf b = Some text ->
  is_int (IndentSize b) -> IndentSize b < 0 -> len (indentation b) + 2 <= int_max ->
  let cut_short (vals : list string) : result unit :=
    Panic slice_out_of_range
      (upd h w (mkTomlBuilder (IndentSize b) (indentation b +:+ "  ") (buf b))
         (text +:+ indentation b +:+ key +:+ " = [" +:+ nl +:+
          element_lines (indentation b +:+ "  ") vals)) in
  AddStringArray w key strs h = cut_short (map (fun s => dq +:+ s +:+ dq) strs) /\
  AddIntArray w key ints h = cut_short (map FormatInt ints) /\
  AddFloatArray w key floats h = cut_short (map formatFloat floats) /\
  AddBoolArray w key bools h = cut_short (map FormatBool bools).
Proof.
  intros Hb Ht Hi Hn Hl cut_short.
  rewrite <- (upd_id h w b text Hb Ht) at 1 2 3 4.
  unfold AddStringArray, AddIntArray, AddFloatArray, AddBoolArray, cut_short.
  repeat split.
  - by rewrite addArray_negative.
  - rewrite addArray_negative by done.
    by rewrite (map_ext _ FormatInt Sprintf_d).
  - by rewrite addArray_negative.
  - by rewrite addArray_negative.
Qed.

Lemma array_emitters_negative_IndentSize_witness :
  AddIntArray 1%positive "a" [1; 2]
    (upd empty_heap 1%positive (mkTomlBuilder (-1) EmptyString 1%positive) EmptyString)
  = Panic slice_out_of_range
      (upd empty_heap 1%positive (mkTomlBuilder (-1) "  " 1%positive)
         ("a = [" +:+ nl +:+ "  1," +:+ nl +:+ "  2," +:+ nl)).
Proof.
  pose proof (array_emitters_negative_IndentSize
                (upd empty_heap 1%positive (mkTomlBuilder (-1) EmptyString 1%positive) EmptyString)
                1%positive (mkTomlBuilder (-1) EmptyString 1%positive) EmptyString "a"
                [] [1; 2] [] [] eq_refl eq_refl
                ltac:(vm_compute; split; discriminate) ltac:(reflexivity)
                ltac:(vm_compute; discriminate)) as (_ & Hi & _).
  exact Hi.
Defined.

(** ** The earlier interface *)

Lemma for_range_map {A B} (g : A -> B) (array : list A) (body : B -> M unit) (h : heap) :
  for_range (map g array) body h = for_range array (fun val => body (g val)) h.
Proof.
  revert h. induction array as [|val rest IH]; intros h; cbn [map for_range]; [done|].
  unfold bind. destruct (body (g val) h); [apply IH|done].
Qed.

Lemma for_range_ext {A} (array : list A) (body body' : A -> M unit) (h : heap) :
  (forall val h', body val h' = body' val h') ->
  for_range array body h = for_range array body' h.
Proof.
  intros Hext. revert h. induction array as [|val rest IH]; intros h; cbn [for_range]; [done|].
  unfold bind. rewrite Hext. destruct (body' val h); [apply IH|done].
Qed.

Lemma Sprintf_quoted_element (val : string) :
  Sprintf (dq +:+ "%v" +:+ dq +:+ "," +:+ nl) [AString val]
  = Sprintf ("%v," +:+ nl) [AString (Sprintf (dq +:+ "%v" +:+ dq) [AString val])].
Proof. rewrite Sprintf_element, Sprintf_quoted, !app_assoc. reflexivity. Qed.

(** X8: the methods that were renamed from [Write...] to [Add...] do what they
    did, on every heap and also when they panic; for the array of strings,
    writing the quotes with the element line is the same as quoting the
    elements first.  ([WriteFloat] is the one that differs.) *)
Theorem renamed_methods_agree (h : heap) (w : loc) (key value msg : string) (n : Z)
    (array : list string) (write_body : loc -> M unit) :
  Legacy.WriteNewLine w h = AddNewLine w h /\
  Legacy.WriteComment w msg h = AddComment w msg h /\
  Legacy.WriteString w key value h = AddString w key value h /\
  Legacy.WriteInt w key n h = AddInt w key n h /\
  Legacy.WriteStringArray w key array h = AddStringArray w key array h /\
  Legacy.WriteArrayOfTables w key write_body h = AddArrayOfTables w key write_body h.
Proof.
  repeat split.
  unfold Legacy.WriteStringArray, AddStringArray, addArray, bind.
  destruct (write w _ [AString key] h) as [[] h1|]; [|done].
  destruct (indent w h1) as [[] h2|]; [|done].
  rewrite for_range_map.
  rewrite (for_range_ext array _
             (fun val => write w ("%v," +:+ nl)
                           [AString (Sprintf (dq +:+ "%v" +:+ dq) [AString val])])).
  - reflexivity.
  - intros val h'. unfold write. by rewrite Sprintf_quoted_element.
Qed.

(** ** Tables in tables, and what String shows *)

(** X7: a table added in the callback of a table: the two headers follow each
    other at the same prefix, the inner name is written as it is given, not
    qualified by the outer one, and the inner callback runs on a second new
    builder with the same fields and the same buffer. *)
Theorem nested_table_headers (h : heap) (w : loc) (b : TomlBuilder)
    (text outer inner : string) (write_body : loc -> M unit) :
  builders h !! w = Some b -> buffers h !! buf b = Some text ->
  let c1 := fresh (dom (builders h)) in
  let c2 := fresh (dom (<[c1 := b]> (builders h))) in
  AddTable w outer (fun c => AddTable c inner write_body) h
  = write_body c2
      (mkHeap (<[c2 := b]> (<[c1 := b]> (builders h)))
              (<[buf b := text +:+ indentation b +:+ "[" +:+ outer +:+ "]" +:+ nl +:+
                          indentation b +:+ "[" +:+ inner +:+ "]" +:+ nl]> (buffers h))).
Proof.
  intros Hb Ht c1 c2. unfold AddTable.
  rewrite (table_upd h w b text _ _ _ Hb Ht). fold c1.
  erewrite table_upd; cbn [builders buffers].
  2:{ apply lookup_insert_eq. }
  2:{ apply lookup_insert_eq. }
  fold c2. rewrite insert_insert_eq, !Sprintf_table, !app_assoc. reflexivity.
Qed.

Lemma nested_table_headers_witness :
  AddTable 1%positive "a" (fun c => AddTable c "b" (fun c' => AddInt c' "n" 1)) fresh_heap
  = Ok tt (mkHeap (<[3%positive := fresh_builder]>
                     (<[2%positive := fresh_builder]> (builders fresh_heap)))
             (<[1%positive := "[a]" +:+ nl +:+ "[b]" +:+ nl +:+ "n = 1" +:+ nl]>
                (buffers fresh_heap))).
Proof.
  rewrite (nested_table_headers fresh_heap 1%positive fresh_builder EmptyString
             "a" "b" (fun c' => AddInt c' "n" 1) eq_refl eq_refl).
  vm_compute. reflexivity.
Defined.

(** X4: [String] returns the text of the buffer and changes nothing.  The
    entry a table's callback adds through the child stands right after the
    header, at the parent's prefix, in what [String] on the parent returns
    afterwards. *)
Theorem String_shows_table_entries (h : heap) (w : loc) (b : TomlBuilder)
    (text name key value : string) :
  builders h !! w = Some b -> buffers h !! buf b = Some text ->
  let document := text +:+ indentation b +:+ "[" +:+ name +:+ "]" +:+ nl +:+
                  indentation b +:+ key +:+ " = " +:+ dq +:+ value +:+ dq +:+ nl in
  String_ w h = Ok text h /\
  (AddTable w name (fun c => AddString c key value) ;; String_ w) h
  = Ok document (mkHeap (<[fresh (dom (builders h)) := b]> (builders h))
                        (<[buf b := document]> (buffers h))).
Proof.
  intros Hb Ht document. split.
  - unfold String_, bind, load, Buffer_String. by rewrite Hb, Ht.
  - assert (fresh (dom (builders h)) <> w) as Hne.
    { intros Heq. assert (w ∈ dom (builders h)) as Hd by (apply elem_of_dom; eauto).
      rewrite <- Heq in Hd. by apply is_fresh in Hd. }
    unfold bind at 1. unfold AddTable.
    rewrite (table_upd h w b text _ _ _ Hb Ht).
    unfold String_, AddString, write, bind, load, Buffer_Write, Buffer_String.
    cbn [builders buffers]. rewrite lookup_insert_eq. cbn [buf builders buffers].
    rewrite lookup_insert_eq. cbn [builders buffers].
    rewrite lookup_insert_ne by done. rewrite Hb. cbn [buf builders buffers].
    rewrite lookup_insert_eq, insert_insert_eq.
    rewrite Sprintf_table, Sprintf_string_entry. unfold document.
    by rewrite !app_assoc.
Qed.

Lemma String_shows_table_entries_witness :
  (AddTable 1%positive "t" (fun c => AddString c "k" "v") ;; String_ 1%positive) fresh_heap
  = Ok ("[t]" +:+ nl +:+ "k = " +:+ dq +:+ "v" +:+ dq +:+ nl)
       (mkHeap (<[2%positive := fresh_builder]> (builders fresh_heap))
               (<[1%positive := "[t]" +:+ nl +:+ "k = " +:+ dq +:+ "v" +:+ dq +:+ nl]>
                  (buffers fresh_heap))).
Proof.
  exact (proj2 (String_shows_table_entries fresh_heap 1%positive fresh_builder EmptyString
                  "t" "k" "v" eq_refl eq_refl)).
Defined.

(** ** The shape of a valid float64 *)

Lemma pow2_pred (d : Z) : 0 < d -> 2 ^ d = 2 * 2 ^ (d - 1).
Proof.
  intros Hd. replace d with (Z.succ (d - 1)) at 1 by lia.
  apply Z.pow_succ_r. lia.
Qed.

Lemma digits2_pos_bounds (m : positive) :
  2 ^ (Z.pos (digits2_pos m) - 1) <= Z.pos m < 2 ^ Z.pos (digits2_pos m).
Proof.
  induction m as [m IH|m IH|]; cbn [digits2_pos];
    [rewrite Pos2Z.inj_succ; change (Z.pos m~1) with (2 * Z.pos m + 1)
    |rewrite Pos2Z.inj_succ; change (Z.pos m~0) with (2 * Z.pos m)
    |cbn; lia];
    set (k := Z.pos (digits2_pos m)) in *;
    assert (0 < k) as Hd by (unfold k; lia);
    replace (Z.succ k - 1) with k by lia;
    rewrite (Z.pow_succ_r 2 k) by lia;
    pose proof (pow2_pred k Hd) as Hp; lia.
Qed.

(** A valid finite float64 is normal, with a mantissa of 53 bits, or
    subnormal, with the least exponent. *)
Lemma bounded_inv (m : positive) (e : Z) :
  bounded prec emax m e = true ->
  -1074 <= e <= 971 /\ Z.pos m < 2 ^ 53 /\ (2 ^ 52 <= Z.pos m \/ e = -1074).
Proof.
  unfold bounded, canonical_mantissa, fexp, emin, prec, emax.
  intros H. apply andb_prop in H as [Hc He].
  apply Z.eqb_eq in Hc. apply Z.leb_le in He.
  pose proof (digits2_pos_bounds m) as [Hlo Hhi].
  set (dg := Z.pos (digits2_pos m)) in *.
  assert (0 < dg) by (unfold dg; lia).
  assert (dg <= 53 /\ (dg = 53 \/ e = -1074) /\ -1074 <= e) as (Hd & Hcase & Hmin) by lia.
  split; [lia|]. split.
  - eapply Z.lt_le_trans; [exact Hhi|]. apply Z.pow_le_mono_r; lia.
  - destruct Hcase as [-> | ->]; [left|right; reflexivity]. exact Hlo.
Qed.

(** ** Rounding to nearest, ties to even *)

(** Rounding [x / step] gives [m] exactly when [x / step] is within a half
    of [m], the halves counting when [m] is even. *)
Lemma round_half_even_spec (x step m : Z) :
  0 < step -> 0 <= x ->
  round_half_even (x / step) (x mod step) step = m <->
  if Z.even m
  then (2 * m - 1) * step <= 2 * x <= (2 * m + 1) * step
  else (2 * m - 1) * step < 2 * x < (2 * m + 1) * step.
Proof.
  intros Hs Hx.
  pose proof (Z.div_mod x step ltac:(lia)) as Hdm.
  pose proof (Z.mod_pos_bound x step Hs) as Hr.
  set (q := x / step) in *. set (r := x mod step) in *.
  unfold round_half_even.
  destruct (Z.compare_spec (2 * r) step) as [Heq|Hlt|Hgt].
  - destruct (Z.even q) eqn:Hq; split.
    + intros <-. rewrite Hq. nia.
    + destruct (Z.even m) eqn:Hm; intros H.
      * assert (m = q \/ m = q + 1) as [-> | ->] by nia; [done|].
        rewrite Z.even_add, Hq in Hm. discriminate.
      * nia.
    + intros <-. rewrite Z.even_add, Hq. cbn. nia.
    + destruct (Z.even m) eqn:Hm; intros H.
      * assert (m = q \/ m = q + 1) as [-> | ->] by nia; [|done].
        congruence.
      * nia.
  - split.
    + intros <-. destruct (Z.even q); nia.
    + destruct (Z.even m); nia.
  - split.
    + intros <-. destruct (Z.even (q + 1)); nia.
    + destruct (Z.even m); nia.
Qed.

Lemma pow2_pos (k : Z) : 0 <= k -> 0 < 2 ^ k.
Proof. intros. apply Z.pow_pos_nonneg; lia. Qed.

(** The binade of a quotient. *)
Lemma log2_div_binade (x den a : Z) :
  0 < den -> 0 <= a -> 2 ^ a * den <= x < 2 ^ (a + 1) * den ->
  Z.log2 (x / den) = a.
Proof.
  intros Hd Ha [Hlo Hhi]. apply Z.log2_unique; [done|]. split.
  - apply Z.div_le_lower_bound; lia.
  - replace (Z.succ a) with (a + 1) by lia.
    apply Z.div_lt_upper_bound; lia.
Qed.

Lemma div_binade (x den : Z) :
  0 < den -> 0 < x / den ->
  2 ^ Z.log2 (x / den) * den <= x < 2 ^ (Z.log2 (x / den) + 1) * den.
Proof.
  intros Hd Hy.
  pose proof (Z.log2_spec (x / den) Hy) as [Hlo Hhi].
  pose proof (Z.div_mod x den ltac:(lia)) as Hdm.
  pose proof (Z.mod_pos_bound x den Hd) as Hr.
  replace (Z.succ (Z.log2 (x / den))) with (Z.log2 (x / den) + 1) in Hhi by lia.
  nia.
Qed.

(** The two readings of the rounding interval: against 2^1076 times the
    real, and against the real over the step of the exponent. *)
Lemma in_rounding_interval_step (m : positive) (e num den : Z) :
  -1074 <= e -> 0 < den ->
  let step := den * 2 ^ (e + 1075) in
  let x := num * 2 ^ 1075 in
  let below := if (Z.pos m =? 2 ^ 52) && (-1074 <? e) then 1 else 2 in
  in_rounding_interval m e num den = true <->
  if Z.even (Z.pos m)
  then (4 * Z.pos m - below) * step <= 4 * x <= (4 * Z.pos m + 2) * step
  else (4 * Z.pos m - below) * step < 4 * x < (4 * Z.pos m + 2) * step.
Proof.
  intros He Hd step x below.
  unfold in_rounding_interval, midpoint_below, midpoint_above.
  change (emin prec emax) with (-1074). change (prec - 1) with 52.
  replace (if (Z.pos m =? 2 ^ 52) && (-1074 <? e) then 4 * Z.pos m - 1 else 4 * Z.pos m - 2)
    with (4 * Z.pos m - below) by (unfold below; destruct (_ && _); lia).
  assert (2 ^ (e + 1075) = 2 * 2 ^ (e + 1074)) as HG.
  { replace (e + 1075) with (Z.succ (e + 1074)) by lia. apply Z.pow_succ_r. lia. }
  assert (2 ^ 1076 = 2 * 2 ^ 1075) as HX by (change 1076 with (Z.succ 1075); apply Z.pow_succ_r; lia).
  pose proof (pow2_pos (e + 1074) ltac:(lia)) as HGpos.
  unfold step, x. rewrite HG, HX.
  set (G := 2 ^ (e + 1074)) in *. set (K := 2 ^ 1075) in *.
  clearbody G K below. clear HG HX.
  destruct (Z.even (Z.pos m)).
  - rewrite andb_true_iff, !Z.leb_le. split; intros [H1 H2]; split; nia.
  - rewrite andb_true_iff, !Z.ltb_lt. split; intros [H1 H2]; split; nia.
Qed.

Ltac literals :=
  change (2 ^ 52) with 4503599627370496 in *;
  change (2 ^ 53) with 9007199254740992 in *.

(** The outcome of [round_ratio] once the exponent and the mantissa are
    known. *)
Lemma round_ratio_at (s : bool) (num den E mant : Z) :
  0 < den -> 0 < num * 2 ^ 1075 / den ->
  Z.max (Z.log2 (num * 2 ^ 1075 / den) - 1127) (-1074) = E ->
  round_half_even (num * 2 ^ 1075 / (den * 2 ^ (E + 1075)))
                  ((num * 2 ^ 1075) mod (den * 2 ^ (E + 1075)))
                  (den * 2 ^ (E + 1075)) = mant ->
  round_ratio s num den =
    if mant =? 2 ^ 53 then
      if E + 1 <=? 971 then S754_finite s (Z.to_pos (2 ^ 52)) (E + 1)
      else S754_infinity s
    else
      match mant with
      | Z.pos p => if E <=? 971 then S754_finite s p E else S754_infinity s
      | _ => S754_zero s
      end.
Proof.
  intros Hd Hy HE Hm. unfold round_ratio.
  destruct (Z.eqb_spec (num * 2 ^ 1075 / den) 0) as [H0|_]; [lia|].
  cbv zeta. rewrite HE, Hm. reflexivity.
Qed.

(** The interval in the plain form: within half a step, the half counting
    for an even mantissa, and a quarter of a step below at most when the
    float is a power of two above the least exponent. *)
Lemma interval_facts (M below step x : Z) :
  1 <= below <= 2 ->
  (if Z.even M
   then (4 * M - below) * step <= 4 * x <= (4 * M + 2) * step
   else (4 * M - below) * step < 4 * x < (4 * M + 2) * step) ->
  0 < step ->
  (4 * M - below) * step <= 4 * x <= (4 * M + 2) * step /\
  (if Z.even M
   then (2 * M - 1) * step <= 2 * x <= (2 * M + 1) * step
   else (2 * M - 1) * step < 2 * x < (2 * M + 1) * step).
Proof.
  intros Hb Hin Hs. destruct (Z.even M); nia.
Qed.

(** A real of the rounding interval of a valid float64 rounds to it. *)
Lemma round_ratio_interval (s : bool) (m : positive) (e num den : Z) :
  bounded prec emax m e = true -> 0 < num -> 0 < den ->
  in_rounding_interval m e num den = true ->
  round_ratio s num den = S754_finite s m e.
Proof.
  intros Hb HN HD Hin. destruct (bounded_inv m e Hb) as (He & Hm & Hcase).
  apply in_rounding_interval_step in Hin; [|lia|done]. cbv zeta in Hin.
  pose proof (pow2_pos (e + 1075) ltac:(lia)) as HP.
  pose proof (pow2_pos 1075 ltac:(lia)) as HK.
  assert (0 < num * 2 ^ 1075) as Hx by (apply Z.mul_pos_pos; lia).
  assert (0 < den * 2 ^ (e + 1075)) as Hstep by (apply Z.mul_pos_pos; lia).
  assert (2 ^ (e + 1075) = 2 * 2 ^ (e + 1074)) as HG2.
  { replace (e + 1075) with (Z.succ (e + 1074)) by lia. apply Z.pow_succ_r. lia. }
  pose proof (pow2_pos (e + 1074) ltac:(lia)) as HG.
  assert (forall a, 0 <= a -> 2 ^ (a + (e + 1075)) * den = 2 ^ a * (den * 2 ^ (e + 1075))) as Hpow.
  { intros a Ha. rewrite Z.pow_add_r by lia. ring. }
  assert (forall a, 0 <= a -> 2 ^ (a + (e + 1074)) * den = 2 ^ a * (den * 2 ^ (e + 1074))) as Hpow'.
  { intros a Ha. rewrite Z.pow_add_r by lia. ring. }
  set (below := if (Z.pos m =? 2 ^ 52) && (-1074 <? e) then 1 else 2) in *.
  assert (1 <= below <= 2) as Hbelow by (unfold below; destruct (_ && _); lia).
  destruct (interval_facts _ _ _ _ Hbelow Hin Hstep) as ([Hlo Hhi] & Hhalf).
  assert (1 * (den * 2 ^ (e + 1075)) <= Z.pos m * (den * 2 ^ (e + 1075))) as HM1
    by (apply Z.mul_le_mono_nonneg_r; lia).
  assert (Z.pos m * (den * 2 ^ (e + 1075)) <= 9007199254740991 * (den * 2 ^ (e + 1075))) as HM2
    by (apply Z.mul_le_mono_nonneg_r; [lia|literals; lia]).
  assert (below * (den * 2 ^ (e + 1075)) <= 2 * (den * 2 ^ (e + 1075))) as HB2
    by (apply Z.mul_le_mono_nonneg_r; lia).
  destruct (Z.eq_dec e (-1074)) as [Hemin|Hnorm].
  - (* the least exponent *)
    assert (2 ^ (e + 1075) = 2) as H2 by (rewrite Hemin; reflexivity).
    assert (den <= num * 2 ^ 1075 < 2 ^ 54 * den) as [Hxlo Hxhi].
    { change (2 ^ 54) with 18014398509481984. rewrite H2 in *. lia. }
    assert (0 < num * 2 ^ 1075 / den) as Hy by (apply Z.div_str_pos; lia).
    assert (num * 2 ^ 1075 / den < 2 ^ 54) as Hy54 by (apply Z.div_lt_upper_bound; lia).
    apply Z.log2_lt_pow2 in Hy54; [|done].
    rewrite (round_ratio_at s num den e (Z.pos m)); try done; literals.
    + destruct (Z.eqb_spec (Z.pos m) 9007199254740992); [lia|].
      destruct (Z.leb_spec e 971); [done|lia].
    + lia.
    + apply round_half_even_spec; [done|lia|done].
  - destruct Hcase as [Hnormal|?]; [|lia]. literals.
    assert (4503599627370496 * (den * 2 ^ (e + 1075)) <= Z.pos m * (den * 2 ^ (e + 1075))) as HM3
      by (apply Z.mul_le_mono_nonneg_r; lia).
    destruct (Z.le_gt_cases (4503599627370496 * (den * 2 ^ (e + 1075))) (num * 2 ^ 1075))
      as [Hup|Hdown].
    + (* the binade of the float *)
      assert (2 ^ (e + 1127) * den <= num * 2 ^ 1075 < 2 ^ (e + 1127 + 1) * den) as Hbin.
      { replace (e + 1127 + 1) with (53 + (e + 1075)) by lia.
        replace (e + 1127) with (52 + (e + 1075)) by lia.
        rewrite !Hpow by lia. literals. lia. }
      pose proof (log2_div_binade _ den (e + 1127) HD ltac:(lia) Hbin) as Hlog.
      assert (0 < num * 2 ^ 1075 / den) as Hy.
      { apply Z.div_str_pos. split; [lia|].
        pose proof (pow2_pos (e + 1127) ltac:(lia)).
        assert (1 * den <= 2 ^ (e + 1127) * den) by (apply Z.mul_le_mono_nonneg_r; lia).
        lia. }
      rewrite (round_ratio_at s num den e (Z.pos m)); try done; literals.
      * destruct (Z.eqb_spec (Z.pos m) 9007199254740992); [lia|].
        destruct (Z.leb_spec e 971); [done|lia].
      * lia.
      * apply round_half_even_spec; [done|lia|done].
    + (* just below a power of two: the binade below *)
      assert (Z.pos m = 4503599627370496) as Hm52.
      { destruct (Z.le_gt_cases 4503599627370497 (Z.pos m)) as [Hbig|?]; [|lia].
        apply (Z.mul_le_mono_nonneg_r _ _ (den * 2 ^ (e + 1075))) in Hbig; lia. }
      assert (below = 1) as Hb1.
      { unfold below. rewrite Hm52.
        destruct (Z.ltb_spec (-1074) e); [reflexivity|lia]. }
      rewrite Hb1, Hm52 in *. rewrite HG2 in *.
      assert (2 ^ (e + 1126) * den <= num * 2 ^ 1075 < 2 ^ (e + 1126 + 1) * den) as Hbin.
      { replace (e + 1126 + 1) with (53 + (e + 1074)) by lia.
        replace (e + 1126) with (52 + (e + 1074)) by lia.
        rewrite !Hpow' by lia. literals. lia. }
      pose proof (log2_div_binade _ den (e + 1126) HD ltac:(lia) Hbin) as Hlog.
      assert (0 < num * 2 ^ 1075 / den) as Hy.
      { apply Z.div_str_pos. split; [lia|].
        pose proof (pow2_pos (e + 1126) ltac:(lia)).
        assert (1 * den <= 2 ^ (e + 1126) * den) by (apply Z.mul_le_mono_nonneg_r; lia).
        lia. }
      rewrite (round_ratio_at s num den (e - 1) 9007199254740992); try done; literals.
      * cbn [Z.eqb Pos.eqb]. replace (e - 1 + 1) with e by lia.
        destruct (Z.leb_spec e 971); [|lia].
        f_equal. apply Pos2Z.inj. rewrite Hm52. reflexivity.
      * lia.
      * replace (e - 1 + 1075) with (e + 1074) by lia.
        assert (0 < den * 2 ^ (e + 1074)) by (apply Z.mul_pos_pos; lia).
        apply round_half_even_spec; [done|lia|]. cbn [Z.even]. lia.
Qed.

(** A real that rounds to a finite float64 lies in its rounding interval. *)
Lemma round_ratio_inv (s s' : bool) (m : positive) (e num den : Z) :
  0 < num -> 0 < den ->
  round_ratio s num den = S754_finite s' m e ->
  s' = s /\ in_rounding_interval m e num den = true.
Proof.
  intros HN HD. unfold round_ratio.
  pose proof (pow2_pos 1075 ltac:(lia)) as HK.
  assert (0 < num * 2 ^ 1075) as Hx by (apply Z.mul_pos_pos; lia).
  destruct (Z.eqb_spec (num * 2 ^ 1075 / den) 0) as [H0|Hy0]; [discriminate|].
  assert (0 < num * 2 ^ 1075 / den) as Hy.
  { pose proof (Z.div_pos (num * 2 ^ 1075) den ltac:(lia) HD). lia. }
  cbv zeta.
  set (E := Z.max (Z.log2 (num * 2 ^ 1075 / den) - 1127) (-1074)).
  assert (-1074 <= E) as HE by (unfold E; lia).
  pose proof (pow2_pos (E + 1075) ltac:(lia)) as HP.
  assert (0 < den * 2 ^ (E + 1075)) as Hstep by (apply Z.mul_pos_pos; lia).
  set (mant := round_half_even _ _ _).
  pose proof (proj1 (round_half_even_spec (num * 2 ^ 1075) (den * 2 ^ (E + 1075)) mant
                       Hstep ltac:(lia)) eq_refl) as Hmant.
  literals.
  destruct (Z.eqb_spec mant 9007199254740992) as [Hm53|Hm53].
  - destruct (Z.leb_spec (E + 1) 971); [|discriminate].
    intros [= <- <- <-]. split; [reflexivity|].
    apply in_rounding_interval_step; [lia|done|]. cbv zeta. literals.
    replace (E + 1 + 1075) with (Z.succ (E + 1075)) by lia.
    rewrite Z.pow_succ_r by lia.
    rewrite Hm53 in Hmant. cbn [Z.even] in Hmant.
    change (Z.pos (Z.to_pos 4503599627370496)) with 4503599627370496.
    destruct (Z.ltb_spec (-1074) (E + 1)); [|lia].
    cbn [Z.even Z.eqb Pos.eqb andb]. lia.
  - destruct mant as [|p|p] eqn:Hp; try discriminate.
    destruct (Z.leb_spec E 971); [|discriminate].
    intros [= <- <- <-]. split; [reflexivity|].
    apply in_rounding_interval_step; [lia|done|]. cbv zeta. literals.
    destruct ((Z.pos p =? 4503599627370496) && (-1074 <? E)) eqn:Hbd.
    + apply andb_prop in Hbd as [Hp52 HEb].
      apply Z.eqb_eq in Hp52. apply Z.ltb_lt in HEb.
      pose proof (div_binade (num * 2 ^ 1075) den HD Hy) as [Hbin _].
      assert (Z.log2 (num * 2 ^ 1075 / den) = 52 + (E + 1075)) as Hlog by (unfold E in *; lia).
      rewrite Hlog, Z.pow_add_r in Hbin by lia. literals.
      rewrite Hp52 in *. cbn [Z.even] in *. lia.
    + destruct (Z.even (Z.pos p)); lia.
Qed.

(** ** The rounding interval as a set of fractions *)

Lemma midpoint_below_pos (m : positive) (e : Z) :
  -1074 <= e -> 0 < midpoint_below m e.
Proof.
  intros He. unfold midpoint_below.
  pose proof (pow2_pos (e + 1074) ltac:(lia)).
  apply Z.mul_pos_pos; [|done]. destruct (_ && _); lia.
Qed.

Lemma midpoints_order (m : positive) (e : Z) :
  -1074 <= e ->
  midpoint_below m e < 4 * Z.pos m * 2 ^ (e + 1074) < midpoint_above m e.
Proof.
  intros He. unfold midpoint_below, midpoint_above.
  pose proof (pow2_pos (e + 1074) ltac:(lia)).
  destruct (_ && _); nia.
Qed.

Lemma in_rounding_interval_iff (m : positive) (e num den : Z) :
  in_rounding_interval m e num den = true <->
  if Z.even (Z.pos m)
  then midpoint_below m e * den <= num * 2 ^ 1076 <= midpoint_above m e * den
  else midpoint_below m e * den < num * 2 ^ 1076 < midpoint_above m e * den.
Proof.
  unfold in_rounding_interval. cbv zeta.
  destruct (Z.even (Z.pos m)).
  - rewrite andb_true_iff, !Z.leb_le. reflexivity.
  - rewrite andb_true_iff, !Z.ltb_lt. reflexivity.
Qed.

(** Cross-multiplied comparisons of fractions with positive denominators. *)
Lemma frac_le_trans_l (a k n1 d1 n2 d2 : Z) :
  0 < d1 -> 0 < d2 -> 0 < k ->
  a * d1 <= n1 * k -> n1 * d2 <= n2 * d1 -> a * d2 <= n2 * k.
Proof.
  intros H1 H2 Hk Ha Hn.
  apply (Z.mul_le_mono_pos_r _ _ d1); [done|].
  apply (Z.mul_le_mono_nonneg_r _ _ d2) in Ha; [|lia].
  apply (Z.mul_le_mono_nonneg_r _ _ k) in Hn; lia.
Qed.

Lemma frac_lt_trans_l (a k n1 d1 n2 d2 : Z) :
  0 < d1 -> 0 < d2 -> 0 < k ->
  a * d1 < n1 * k -> n1 * d2 <= n2 * d1 -> a * d2 < n2 * k.
Proof.
  intros H1 H2 Hk Ha Hn.
  apply (Z.mul_lt_mono_pos_r d1); [done|].
  apply (Z.mul_lt_mono_pos_r d2) in Ha; [|lia].
  apply (Z.mul_le_mono_nonneg_r _ _ k) in Hn; lia.
Qed.

Lemma frac_le_trans_r (b k n2 d2 n3 d3 : Z) :
  0 < d2 -> 0 < d3 -> 0 < k ->
  n3 * k <= b * d3 -> n2 * d3 <= n3 * d2 -> n2 * k <= b * d2.
Proof.
  intros H2 H3 Hk Hb Hn.
  apply (Z.mul_le_mono_pos_r _ _ d3); [done|].
  apply (Z.mul_le_mono_nonneg_r _ _ d2) in Hb; [|lia].
  apply (Z.mul_le_mono_nonneg_r _ _ k) in Hn; lia.
Qed.

Lemma frac_lt_trans_r (b k n2 d2 n3 d3 : Z) :
  0 < d2 -> 0 < d3 -> 0 < k ->
  n3 * k < b * d3 -> n2 * d3 <= n3 * d2 -> n2 * k < b * d2.
Proof.
  intros H2 H3 Hk Hb Hn.
  apply (Z.mul_lt_mono_pos_r d3); [done|].
  apply (Z.mul_lt_mono_pos_r d2) in Hb; [|lia].
  apply (Z.mul_le_mono_nonneg_r _ _ k) in Hn; lia.
Qed.

(** The interval is convex. *)
Lemma in_rounding_interval_convex (m : positive) (e n1 d1 n2 d2 n3 d3 : Z) :
  0 < d1 -> 0 < d2 -> 0 < d3 ->
  in_rounding_interval m e n1 d1 = true ->
  in_rounding_interval m e n3 d3 = true ->
  n1 * d2 <= n2 * d1 -> n2 * d3 <= n3 * d2 ->
  in_rounding_interval m e n2 d2 = true.
Proof.
  intros H1 H2 H3. rewrite !in_rounding_interval_iff.
  pose proof (pow2_pos 1076 ltac:(lia)) as HK.
  intros Hi1 Hi3 H12 H23. destruct (Z.even (Z.pos m)).
  - split.
    + eapply frac_le_trans_l with (n1 := n1) (d1 := d1); try done. apply Hi1.
    + eapply frac_le_trans_r with (n3 := n3) (d3 := d3); try done. apply Hi3.
  - split.
    + eapply frac_lt_trans_l with (n1 := n1) (d1 := d1); try done. apply Hi1.
    + eapply frac_lt_trans_r with (n3 := n3) (d3 := d3); try done. apply Hi3.
Qed.

(** Equal fractions are in or out together. *)
Lemma in_rounding_interval_ratio (m : positive) (e n1 d1 n2 d2 : Z) :
  0 < d1 -> 0 < d2 -> n1 * d2 = n2 * d1 ->
  in_rounding_interval m e n1 d1 = true ->
  in_rounding_interval m e n2 d2 = true.
Proof.
  intros H1 H2 Heq Hin.
  apply (in_rounding_interval_convex m e n1 d1 n2 d2 n1 d1); try done; lia.
Qed.

(** ** The scaled value *)

Lemma pow_pos (b k : Z) : 0 < b -> 0 <= k -> 0 < b ^ k.
Proof. intros. apply Z.pow_pos_nonneg; lia. Qed.

Lemma pow10_split (k : Z) : 0 <= k -> 10 ^ k = 2 ^ k * 5 ^ k.
Proof. intros Hk. change 10 with (2 * 5). apply Z.pow_mul_l. Qed.

(** 2^1076 times the scaled value is the float times 2^1076, times the
    scale. *)
Lemma scaled_value_eq (m : positive) (e : Z) :
  -1074 <= e ->
  scaled_value m e * 2 ^ 1076
  = 4 * Z.pos m * 2 ^ (e + 1074) * 10 ^ dec_scale e.
Proof.
  intros He. unfold scaled_value, dec_scale.
  destruct (Z.le_gt_cases 0 e) as [Hpos|Hneg].
  - rewrite (Z.max_r 0 e), (Z.max_l 0 (- e)) by lia.
    change (5 ^ 0) with 1. change (10 ^ 0) with 1.
    replace 1076 with (2 + 1074) by lia.
    rewrite (Z.pow_add_r 2 2), (Z.pow_add_r 2 e) by lia.
    change (2 ^ 2) with 4. ring.
  - rewrite (Z.max_l 0 e), (Z.max_r 0 (- e)) by lia.
    change (2 ^ 0) with 1. rewrite pow10_split by lia.
    replace 1076 with (2 + ((e + 1074) + - e)) by lia.
    rewrite (Z.pow_add_r 2 2), (Z.pow_add_r 2 (e + 1074)) by lia.
    change (2 ^ 2) with 4. ring.
Qed.

Lemma scaled_value_pos (m : positive) (e : Z) : 0 < scaled_value m e.
Proof.
  unfold scaled_value.
  pose proof (pow_pos 2 (Z.max 0 e) ltac:(lia) ltac:(lia)).
  pose proof (pow_pos 5 (Z.max 0 (- e)) ltac:(lia) ltac:(lia)).
  apply Z.mul_pos_pos; [apply Z.mul_pos_pos|]; lia.
Qed.

(** The value itself is in its interval. *)
Lemma scaled_value_in (m : positive) (e : Z) :
  -1074 <= e ->
  in_rounding_interval m e (scaled_value m e) (10 ^ dec_scale e) = true.
Proof.
  intros He. apply in_rounding_interval_iff. rewrite scaled_value_eq by done.
  pose proof (midpoints_order m e He) as [Hlo Hhi].
  assert (0 < 10 ^ dec_scale e) as HT by (apply pow_pos; unfold dec_scale; lia).
  apply (Z.mul_lt_mono_pos_r _ _ _ HT) in Hlo, Hhi.
  destruct (Z.even (Z.pos m)); lia.
Qed.

(** A scaled integer of the interval is positive and at most twice the
    value. *)
Lemma in_interval_bounds (m : positive) (e c : Z) :
  -1074 <= e ->
  in_rounding_interval m e c (10 ^ dec_scale e) = true ->
  0 < c <= 2 * scaled_value m e.
Proof.
  intros He Hin. apply in_rounding_interval_iff in Hin.
  pose proof (scaled_value_eq m e He) as HV.
  pose proof (midpoint_below_pos m e He) as Hlo.
  assert (0 < 10 ^ dec_scale e) as HT by (apply pow_pos; unfold dec_scale; lia).
  pose proof (pow2_pos 1076 ltac:(lia)) as HK.
  pose proof (pow2_pos (e + 1074) ltac:(lia)) as HG.
  assert (0 < midpoint_below m e * 10 ^ dec_scale e) as HloT by (apply Z.mul_pos_pos; done).
  assert (midpoint_above m e * 10 ^ dec_scale e <= 2 * scaled_value m e * 2 ^ 1076) as Hhi.
  { replace (2 * scaled_value m e * 2 ^ 1076) with (2 * (scaled_value m e * 2 ^ 1076)) by ring.
    rewrite HV. unfold midpoint_above.
    assert (0 < 2 ^ (e + 1074) * 10 ^ dec_scale e) by (apply Z.mul_pos_pos; done).
    nia. }
  assert (0 < c * 2 ^ 1076 <= 2 * scaled_value m e * 2 ^ 1076) as [Hc1 Hc2]
    by (destruct (Z.even (Z.pos m)); lia).
  split.
  - destruct (Z.le_gt_cases c 0) as [Hneg|]; [|done].
    apply (Z.mul_le_mono_nonneg_r _ _ (2 ^ 1076)) in Hneg; lia.
  - apply (Z.mul_le_mono_pos_r _ _ (2 ^ 1076)); done.
Qed.

(** ** The conversions between int64 and float64 *)

Lemma digits2_unique (m : positive) (k : Z) :
  2 ^ (k - 1) <= Z.pos m < 2 ^ k -> Z.pos (digits2_pos m) = k.
Proof.
  intros [Hlo Hhi]. pose proof (digits2_pos_bounds m) as [Dlo Dhi].
  set (dg := Z.pos (digits2_pos m)) in *.
  assert (0 < dg) by (unfold dg; lia).
  destruct (Z.lt_trichotomy dg k) as [Hlt|[Heq|Hgt]]; [|done|].
  - assert (2 ^ dg <= 2 ^ (k - 1)) by (apply Z.pow_le_mono_r; lia). lia.
  - assert (0 < k).
    { destruct (Z_lt_le_dec 0 k); [done|].
      assert (2 ^ k <= 2 ^ 0) by (apply Z.pow_le_mono_r_iff; lia).
      change (2 ^ 0) with 1 in *.
      destruct (Z.eq_dec k 0) as [->|]; [change (2 ^ 0) with 1 in *; lia|].
      rewrite Z.pow_neg_r in Hhi by lia. lia. }
    assert (2 ^ k <= 2 ^ (dg - 1)) by (apply Z.pow_le_mono_r; lia). lia.
Qed.

Lemma digits2_shift (m : positive) (k : Z) (mk : positive) :
  0 <= k -> Z.pos mk = Z.pos m * 2 ^ k ->
  Z.pos (digits2_pos mk) = Z.pos (digits2_pos m) + k.
Proof.
  intros Hk Hmk. pose proof (digits2_pos_bounds m) as [Dlo Dhi].
  set (dg := Z.pos (digits2_pos m)) in *.
  assert (0 < dg) by (unfold dg; lia).
  assert (0 < 2 ^ k) by (apply Z.pow_pos_nonneg; lia).
  apply digits2_unique. rewrite Hmk.
  replace (dg + k - 1) with ((dg - 1) + k) by lia.
  rewrite !Z.pow_add_r by lia. split.
  - apply Z.mul_le_mono_nonneg_r; lia.
  - apply Z.mul_lt_mono_pos_r; lia.
Qed.

Lemma pos_iter_xO (m d : positive) : Z.pos (Pos.iter xO m d) = Z.pos m * 2 ^ Z.pos d.
Proof.
  induction d as [|d IH] using Pos.peano_ind.
  - cbn [Pos.iter]. change (2 ^ 1) with 2. lia.
  - rewrite Pos.iter_succ, Pos2Z.inj_succ, Z.pow_succ_r by lia.
    change (Z.pos (Pos.iter xO m d)~0) with (2 * Z.pos (Pos.iter xO m d)). lia.
Qed.

Lemma iter_pos_nat {A} (f : A -> A) (p : positive) (x : A) :
  SpecFloat.iter_pos f p x = Nat.iter (Pos.to_nat p) f x.
Proof.
  revert x. induction p as [p IH|p IH|]; intros x; cbn [SpecFloat.iter_pos].
  - rewrite !IH, Pos2Nat.inj_xI, Nat.iter_succ_r.
    replace (2 * Pos.to_nat p)%nat with (Pos.to_nat p + Pos.to_nat p)%nat by lia.
    by rewrite Nat.iter_add.
  - rewrite !IH, Pos2Nat.inj_xO.
    replace (2 * Pos.to_nat p)%nat with (Pos.to_nat p + Pos.to_nat p)%nat by lia.
    by rewrite Nat.iter_add.
  - reflexivity.
Qed.

Lemma shr_1_double (z : Z) :
  0 <= z -> shr_1 (Build_shr_record (2 * z) false false) = Build_shr_record z false false.
Proof. destruct z; [reflexivity|reflexivity|lia]. Qed.

(** Shifting out bits that are all zero is exact. *)
Lemma iter_shr_1_exact (k : nat) (z : Z) :
  0 <= z ->
  Nat.iter k shr_1 (Build_shr_record (z * 2 ^ Z.of_nat k) false false)
  = Build_shr_record z false false.
Proof.
  intros Hz. induction k as [|k IH].
  - cbn [Nat.iter]. change (2 ^ Z.of_nat 0) with 1. by rewrite Z.mul_1_r.
  - rewrite Nat.iter_succ_r.
    replace (z * 2 ^ Z.of_nat (S k)) with (2 * (z * 2 ^ Z.of_nat k)).
    + rewrite shr_1_double; [exact IH|].
      apply Z.mul_nonneg_nonneg; [done|]. apply Z.pow_nonneg. lia.
    + rewrite Nat2Z.inj_succ, Z.pow_succ_r by lia. lia.
Qed.

(** A mantissa that is canonical for its exponent is left as it is. *)
Lemma binary_round_aux_canonical (s : bool) (mz : positive) (ez : Z) :
  canonical_mantissa prec emax mz ez = true ->
  binary_round_aux prec emax s (Z.pos mz) ez loc_Exact
  = if ez <=? emax - prec then S754_finite s mz ez else S754_infinity s.
Proof.
  unfold canonical_mantissa. intros Hc. apply Z.eqb_eq in Hc.
  unfold binary_round_aux, shr_fexp. cbn [Zdigits2 shr_record_of_loc].
  rewrite Hc, Z.sub_diag. cbn [shr shr_m loc_of_shr_record round_nearest_even Zdigits2
                                shr_record_of_loc].
  rewrite Hc, Z.sub_diag. reflexivity.
Qed.

(** An integer of at most 53 bits converts to itself, shifted to 53 bits. *)
Lemma binary_round_small (s : bool) (t : positive) :
  Z.pos (digits2_pos t) <= 53 ->
  exists mz : positive,
    Z.pos mz = Z.pos t * 2 ^ (53 - Z.pos (digits2_pos t)) /\
    binary_round prec emax s t 0
    = S754_finite s mz (Z.pos (digits2_pos t) - 53).
Proof.
  intros Hd. unfold binary_round, shl_align, fexp, emin, prec, emax.
  set (dg := Z.pos (digits2_pos t)) in *.
  assert (0 < dg) by (unfold dg; lia).
  replace (Z.max (dg + 0 - 53) (3 - 1024 - 53)) with (dg - 53) by lia.
  rewrite Z.sub_0_r.
  destruct (dg - 53) as [|p|p] eqn:Hp; [|lia|].
  - exists t. split.
    + replace (53 - dg) with 0 by lia. change (2 ^ 0) with 1. lia.
    + rewrite binary_round_aux_canonical; [reflexivity|].
      unfold canonical_mantissa, fexp, emin, prec, emax. fold dg.
      apply Z.eqb_eq. lia.
  - exists (Pos.iter xO t p). split.
    + rewrite pos_iter_xO. f_equal. f_equal. lia.
    + rewrite <- Hp.
      rewrite binary_round_aux_canonical.
      * destruct (Z.leb_spec (dg - 53) (emax - prec)); [reflexivity|].
        unfold emax, prec in *. lia.
      * unfold canonical_mantissa, fexp, emin, prec, emax.
        rewrite (digits2_shift t (Z.pos p) (Pos.iter xO t p)) by (lia || apply pos_iter_xO).
        fold dg. apply Z.eqb_eq. lia.
Qed.

(** An integer of more than 53 bits whose low bits are zero converts to its
    53 high bits. *)
Lemma binary_round_shifted (s : bool) (m t : positive) (e : Z) :
  Z.pos (digits2_pos m) = 53 -> 0 <= e <= 971 -> Z.pos t = Z.pos m * 2 ^ e ->
  binary_round prec emax s t 0 = S754_finite s m e.
Proof.
  intros Hm He Ht.
  pose proof (digits2_shift m e t ltac:(lia) Ht) as Hdt. rewrite Hm in Hdt.
  destruct (Z.eq_dec e 0) as [->|Hne].
  - change (2 ^ 0) with 1 in Ht. assert (t = m) as -> by lia.
    destruct (binary_round_small s m ltac:(lia)) as (mz & Hmz & ->).
    rewrite Hm in *. change (2 ^ (53 - 53)) with 1 in Hmz.
    assert (mz = m) as -> by lia. reflexivity.
  - unfold binary_round, shl_align, fexp, emin, prec, emax.
    rewrite Hdt.
    replace (Z.max (53 + e + 0 - 53) (3 - 1024 - 53) - 0) with e by lia.
    destruct e as [|p|p] eqn:Hp; [done| |lia].
    unfold binary_round_aux, shr_fexp, fexp, emin. cbn [Zdigits2 shr_record_of_loc].
    rewrite Hdt.
    replace (Z.max (53 + Z.pos p + 0 - 53) (3 - 1024 - 53) - 0) with (Z.pos p) by lia.
    assert (SpecFloat.iter_pos shr_1 p (Build_shr_record (Z.pos t) false false)
            = Build_shr_record (Z.pos m) false false) as Hiter.
    { rewrite iter_pos_nat, Ht.
      replace (Z.pos p) with (Z.of_nat (Pos.to_nat p)) by lia.
      apply iter_shr_1_exact. lia. }
    cbn [shr]. rewrite Hiter.
    cbn [shr_m loc_of_shr_record round_nearest_even Zdigits2 shr_record_of_loc].
    rewrite Hm.
    replace (Z.max (53 + (0 + Z.pos p) - 53) (3 - 1024 - 53) - (0 + Z.pos p)) with 0 by lia.
    cbn [shr shr_m].
    destruct (Z.leb_spec (0 + Z.pos p) (1024 - 53)); [|lia].
    f_equal.
Qed.

Lemma SFeqb_refl_finite (s : bool) (m : positive) (e : Z) :
  SFeqb (S754_finite s m e) (S754_finite s m e) = true.
Proof.
  unfold SFeqb, SFcompare. rewrite Z.compare_refl.
  change (Pos.compare_cont Eq m m) with (Pos.compare m m). rewrite Pos.compare_refl.
  by destruct s.
Qed.

Lemma SFeqb_finite_inv (s s' : bool) (m m' : positive) (e e' : Z) :
  SFeqb (S754_finite s m e) (S754_finite s' m' e') = true ->
  s = s' /\ m = m' /\ e = e'.
Proof.
  unfold SFeqb, SFcompare.
  change (Pos.compare_cont Eq m m') with (Pos.compare m m').
  destruct s, s'; try discriminate;
    destruct (Z.compare_spec e e'); try discriminate;
    destruct (Pos.compare_spec m m'); try discriminate; done.
Qed.

Lemma float64_of_int64_signed (s : bool) (t : positive) :
  float64_of_int64 (if s then - Z.pos t else Z.pos t) = binary_round prec emax s t 0.
Proof. by destruct s. Qed.

(** A whole float64 within the range of int64 is what the two conversions
    give back. *)
Lemma float64_of_int64_integral (s : bool) (m : positive) (e : Z) :
  bounded prec emax m e = true -> is_integral (S754_finite s m e) = true ->
  float64_of_int64 (if s then - truncated m e else truncated m e) = S754_finite s m e.
Proof.
  intros Hb Hi.
  pose proof (bounded_inv m e Hb) as (He & Hm & Hn).
  pose proof Hb as Hc. unfold bounded in Hc. apply andb_prop in Hc as [Hc _].
  unfold canonical_mantissa, fexp, emin, prec, emax in Hc. apply Z.eqb_eq in Hc.
  pose proof (digits2_pos_bounds m) as [Dlo Dhi].
  set (dg := Z.pos (digits2_pos m)) in *.
  assert (0 < dg) by (unfold dg; lia).
  unfold truncated in *. cbn [is_integral] in Hi.
  destruct (Z.leb_spec 0 e) as [H0|H0].
  - assert (0 < 2 ^ e) by (apply Z.pow_pos_nonneg; lia).
    assert (0 < Z.pos m * 2 ^ e) as Hpos by lia.
    destruct (Z.pos m * 2 ^ e) as [|t|t] eqn:Ht; [lia| |lia].
    rewrite float64_of_int64_signed.
    apply binary_round_shifted; [fold dg; lia|lia|done].
  - cbn [orb] in Hi. apply Z.eqb_eq in Hi.
    assert (0 < 2 ^ (- e)) as Hp by (apply Z.pow_pos_nonneg; lia).
    pose proof (Z.div_mod (Z.pos m) (2 ^ (- e)) ltac:(lia)) as Hdm.
    rewrite Hi, Z.add_0_r in Hdm.
    assert (0 < Z.pos m / 2 ^ (- e)) as Hpos by nia.
    destruct (Z.pos m / 2 ^ (- e)) as [|t|t] eqn:Ht; [lia| |lia].
    rewrite float64_of_int64_signed.
    assert (Z.pos m = Z.pos t * 2 ^ (- e)) as Hmt by lia.
    pose proof (digits2_shift t (- e) m ltac:(lia) Hmt) as Hdt. fold dg in Hdt.
    destruct (binary_round_small s t ltac:(lia)) as (mz & Hmz & ->).
    assert (Z.pos (digits2_pos t) - 53 = e) as Hde by lia.
    rewrite Hde. f_equal.
    replace (53 - Z.pos (digits2_pos t)) with (- e) in Hmz by lia. lia.
Qed.

(** Cutting a float64 that is no whole number and converting back gives
    another float64. *)
Lemma float64_of_int64_fraction (s : bool) (m : positive) (e : Z) :
  bounded prec emax m e = true -> is_integral (S754_finite s m e) = false ->
  float64_eqb (S754_finite s m e)
    (float64_of_int64 (if s then - truncated m e else truncated m e)) = false.
Proof.
  intros Hb Hi.
  pose proof (bounded_inv m e Hb) as (He & Hm & Hn).
  cbn [is_integral] in Hi. apply orb_false_elim in Hi as [H0 Hi].
  apply Z.leb_gt in H0. apply Z.eqb_neq in Hi.
  unfold truncated. destruct (Z.leb_spec 0 e); [lia|].
  assert (0 < 2 ^ (- e)) as Hp by (apply Z.pow_pos_nonneg; lia).
  pose proof (Z.div_mod (Z.pos m) (2 ^ (- e)) ltac:(lia)) as Hdm.
  pose proof (Z.mod_pos_bound (Z.pos m) (2 ^ (- e)) Hp) as Hr.
  assert (0 <= Z.pos m / 2 ^ (- e)) as Hq by (apply Z.div_pos; lia).
  assert (Z.pos m / 2 ^ (- e) <= Z.pos m) as Hle.
  { apply Z.div_le_upper_bound; [lia|]. nia. }
  destruct (Z.pos m / 2 ^ (- e)) as [|t|t] eqn:Ht; [by destruct s| |lia].
  rewrite float64_of_int64_signed.
  assert (Z.pos (digits2_pos t) <= 53) as Hd.
  { pose proof (digits2_pos_bounds t) as [Dlo _].
    destruct (Z_le_gt_dec (Z.pos (digits2_pos t)) 53); [done|].
    assert (2 ^ 53 <= 2 ^ (Z.pos (digits2_pos t) - 1)) by (apply Z.pow_le_mono_r; lia).
    lia. }
  destruct (binary_round_small s t Hd) as (mz & Hmz & ->).
  unfold float64_eqb.
  destruct (SFeqb _ _) eqn:Heq; [|done].
  apply SFeqb_finite_inv in Heq as (_ & <- & Heq).
  exfalso. apply Hi.
  replace (53 - Z.pos (digits2_pos t)) with (- e) in Hmz by lia.
  rewrite Hmz. apply Z.mod_mul. lia.
Qed.

Lemma Sprintf_v_0 (a : arg) : Sprintf "%v.0" [a] = fmt_v a +:+ ".0".
Proof. reflexivity. Qed.

Lemma Sprintf_v (s : string) : Sprintf "%v" [AString s] = s.
Proof. cbn. apply app_nil_r. Qed.

Lemma int64_of_float64_finite (s : bool) (m : positive) (e : Z) :
  int64_of_float64 (S754_finite s m e) <> int_min ->
  int64_of_float64 (S754_finite s m e) = if s then - truncated m e else truncated m e.
Proof.
  unfold int64_of_float64. fold (truncated m e).
  destruct (_ && _); [done|]. by intros [].
Qed.

(** X9: the test [val == float64(int64(val))] of [formatFloat], on a finite
    float64 whose conversion to int64 is not the smallest int64 (what a
    conversion out of range gives), holds exactly when the float64 is a
    whole number; [formatFloat] then prints it with [%v] and appends [.0],
    and otherwise returns what [FormatFloat] gives for the format [f]. *)
Theorem formatFloat_branches (val : float64) :
  valid_float64 val = true -> is_finite val = true ->
  int64_of_float64 val <> int_min ->
  float64_eqb val (float64_of_int64 (int64_of_float64 val)) = is_integral val /\
  formatFloat val
  = if is_integral val then FormatFloat val verb_g +:+ ".0" else FormatFloat val verb_f.
Proof.
  intros Hv Hf Hr.
  assert (float64_eqb val (float64_of_int64 (int64_of_float64 val)) = is_integral val) as Ht.
  { destruct val as [s|s| |s m e]; try discriminate; [by destruct s|].
    rewrite (int64_of_float64_finite s m e Hr).
    destruct (is_integral (S754_finite s m e)) eqn:Hi.
    - rewrite float64_of_int64_integral by done. apply SFeqb_refl_finite.
    - by apply float64_of_int64_fraction. }
  split; [exact Ht|].
  unfold formatFloat. rewrite Ht.
  destruct (is_integral val); [apply Sprintf_v_0|apply Sprintf_v].
Qed.

Lemma formatFloat_branches_witness :
  formatFloat (float64_of_ratio 5 2) = FormatFloat (float64_of_ratio 5 2) verb_f.
Proof.
  assert (valid_float64 (float64_of_ratio 5 2) = true) as Hv by (vm_compute; reflexivity).
  assert (is_finite (float64_of_ratio 5 2) = true) as Hf by (vm_compute; reflexivity).
  assert (int64_of_float64 (float64_of_ratio 5 2) <> int_min) as Hr
    by (vm_compute; discriminate).
  destruct (formatFloat_branches (float64_of_ratio 5 2) Hv Hf Hr) as [_ H].
  rewrite H.
  assert (is_integral (float64_of_ratio 5 2) = false) as -> by (vm_compute; reflexivity).
  reflexivity.
Defined.

(** X10: a float64 that is not finite is no result of a conversion from int64:
    [formatFloat] returns Go's names for it, with no [.0] after them. *)
Theorem formatFloat_not_finite (val : float64) :
  is_finite val = false ->
  formatFloat val
  = match val with
    | S754_infinity true => "-Inf"
    | S754_infinity false => "+Inf"
    | _ => "NaN"
    end.
Proof. destruct val as [s|[]| |s m e]; try discriminate; vm_compute; reflexivity. Qed.

Lemma formatFloat_not_finite_witness :
  formatFloat (float64_of_ratio 1 0) = "+Inf"%string.
Proof.
  refine (formatFloat_not_finite (float64_of_ratio 1 0) _). vm_compute. reflexivity.
Defined.

(** ** The digits of an unsigned integer *)

Lemma utoa_app (fuel : nat) (u : Z) (acc : string) :
  utoa fuel u acc = utoa fuel u EmptyString +:+ acc.
Proof.
  revert u acc. induction fuel as [|fuel IH]; intros u acc; cbn [utoa]; [done|].
  destruct (u <? 10); [done|].
  rewrite IH, (IH _ (String _ EmptyString)), app_assoc. reflexivity.
Qed.

(** Fuel beyond the number of digits changes nothing. *)
Lemma utoa_fuel (f1 f2 : nat) (u : Z) (acc : string) :
  (1 <= f1)%nat -> (1 <= f2)%nat -> u < 10 ^ Z.of_nat f1 -> u < 10 ^ Z.of_nat f2 ->
  utoa f1 u acc = utoa f2 u acc.
Proof.
  revert f2 u acc. induction f1 as [|f1 IH]; intros f2 u acc H1 H2 Hu1 Hu2; [lia|].
  destruct f2 as [|f2]; [lia|]. cbn [utoa].
  destruct (Z.ltb_spec u 10) as [Hlt|Hge]; [done|].
  rewrite Nat2Z.inj_succ, Z.pow_succ_r in Hu1, Hu2 by lia.
  assert (f1 <> 0%nat) by (intros ->; change (10 ^ Z.of_nat 0) with 1 in Hu1; lia).
  assert (f2 <> 0%nat) by (intros ->; change (10 ^ Z.of_nat 0) with 1 in Hu2; lia).
  apply IH; try lia; apply Z.div_lt_upper_bound; lia.
Qed.

Lemma FormatUint_digit (u : Z) :
  u < 10 -> FormatUint u = String (digit_char u) EmptyString.
Proof.
  intros Hu. unfold FormatUint. cbn [utoa].
  by destruct (Z.ltb_spec u 10); [|lia].
Qed.

Lemma FormatUint_step (u : Z) :
  10 <= u ->
  FormatUint u = FormatUint (u / 10) +:+ String (digit_char (u mod 10)) EmptyString.
Proof.
  intros Hu. unfold FormatUint at 1. cbn [utoa].
  destruct (Z.ltb_spec u 10); [lia|].
  rewrite utoa_app. f_equal.
  pose proof (Z.log2_spec u ltac:(lia)) as [Hlo Hhi].
  assert (3 <= Z.log2 u) by (apply Z.log2_le_pow2; [lia|change (2 ^ 3) with 8; lia]).
  assert (0 <= u / 10) by (apply Z.div_pos; lia).
  apply utoa_fuel; try lia.
  - apply Z.div_lt_upper_bound; [lia|].
    rewrite Z2Nat.id by lia.
    rewrite Z.pow_succ_r in Hhi by lia.
    assert (2 ^ Z.log2 u <= 10 ^ Z.log2 u) by (apply Z.pow_le_mono_l; lia). lia.
  - rewrite Nat2Z.inj_succ, Z2Nat.id by apply Z.log2_nonneg.
    destruct (Z.eq_dec (u / 10) 0) as [->|Hne]; [done|].
    pose proof (Z.log2_spec (u / 10) ltac:(lia)) as [_ Hhi'].
    eapply Z.lt_le_trans; [exact Hhi'|].
    apply Z.pow_le_mono_l. lia.
Qed.

(** Induction on the digits, last digit first. *)
Lemma FormatUint_ind (P : Z -> string -> Prop) :
  (forall u, 0 <= u < 10 -> P u (String (digit_char u) EmptyString)) ->
  (forall u, 10 <= u -> P (u / 10) (FormatUint (u / 10)) ->
             P u (FormatUint (u / 10) +:+ String (digit_char (u mod 10)) EmptyString)) ->
  forall u, 0 <= u -> P u (FormatUint u).
Proof.
  intros Hbase Hstep u.
  induction (Z.lt_wf 0 u) as [u _ IH]. intros Hu.
  destruct (Z_lt_le_dec u 10).
  - rewrite FormatUint_digit by lia. apply Hbase. lia.
  - rewrite FormatUint_step by lia. apply Hstep; [lia|].
    assert (0 <= u / 10) by (apply Z.div_pos; lia).
    apply IH; [|done]. split; [done|]. apply Z.div_lt; lia.
Qed.

Lemma is_digit_digit_char (k : Z) : 0 <= k < 10 -> is_digit (digit_char k) = true.
Proof.
  intros Hk.
  assert (k = 0 \/ k = 1 \/ k = 2 \/ k = 3 \/ k = 4 \/ k = 5 \/ k = 6 \/ k = 7
          \/ k = 8 \/ k = 9) as Hc by lia.
  repeat (destruct Hc as [->|Hc]; [reflexivity|]). by subst.
Qed.

Lemma digit_value_digit_char (k : Z) : 0 <= k < 10 -> digit_value (digit_char k) = k.
Proof.
  intros Hk.
  assert (k = 0 \/ k = 1 \/ k = 2 \/ k = 3 \/ k = 4 \/ k = 5 \/ k = 6 \/ k = 7
          \/ k = 8 \/ k = 9) as Hc by lia.
  repeat (destruct Hc as [->|Hc]; [reflexivity|]). by subst.
Qed.

Lemma all_digits_app (s t : string) :
  all_digits (s +:+ t) = all_digits s && all_digits t.
Proof.
  induction s as [|c s IH]; rewrite ?app_cons, ?app_nil_l; cbn [all_digits]; [done|].
  rewrite IH. by destruct (is_digit c).
Qed.

Lemma all_digits_zeros (n : nat) : all_digits (zeros n) = true.
Proof. induction n as [|n IH]; cbn [zeros all_digits]; [done|]. by rewrite IH. Qed.

Lemma all_digits_FormatUint (u : Z) : 0 <= u -> all_digits (FormatUint u) = true.
Proof.
  apply (FormatUint_ind (fun _ s => all_digits s = true)).
  - intros k Hk. cbn [all_digits]. by rewrite is_digit_digit_char.
  - intros k Hk IH. rewrite all_digits_app, IH. cbn [all_digits andb].
    rewrite is_digit_digit_char; [done|]. apply Z.mod_pos_bound. lia.
Qed.

Lemma len_app (s t : string) : len (s +:+ t) = len s + len t.
Proof. unfold len. rewrite length_app. lia. Qed.

Lemma len_single (c : ascii) : len (String c EmptyString) = 1.
Proof. reflexivity. Qed.

Lemma len_zeros (n : nat) : len (zeros n) = Z.of_nat n.
Proof. unfold len. induction n as [|n IH]; cbn [zeros String.length]; lia. Qed.

Lemma len_FormatUint_pos (u : Z) : 0 <= u -> 1 <= len (FormatUint u).
Proof.
  apply (FormatUint_ind (fun _ s => 1 <= len s)).
  - intros k Hk. rewrite len_single. lia.
  - intros k Hk IH. rewrite len_app, len_single. lia.
Qed.

(** A number below 10^k has at most k digits, one with k digits is 10^(k-1)
    at least. *)
Lemma len_FormatUint_le (u k : Z) :
  0 <= u -> 1 <= k -> u < 10 ^ k -> len (FormatUint u) <= k.
Proof.
  intros Hu. revert k.
  apply (FormatUint_ind (fun u s => forall k, 1 <= k -> u < 10 ^ k -> len s <= k)); [| |done].
  - intros v Hv k Hk _. rewrite len_single. lia.
  - intros v Hv IH k Hk Hlt. rewrite len_app, len_single.
    assert (k <> 1) by (intros ->; change (10 ^ 1) with 10 in Hlt; lia).
    assert (len (FormatUint (v / 10)) <= k - 1); [|lia].
    apply IH; [lia|]. apply Z.div_lt_upper_bound; [lia|].
    rewrite <- Z.pow_succ_r by lia. by replace (Z.succ (k - 1)) with k by lia.
Qed.

Lemma len_FormatUint_ge (u : Z) :
  0 < u -> 10 ^ (len (FormatUint u) - 1) <= u.
Proof.
  intros Hu. assert (0 <= u) as Hu0 by lia. revert Hu.
  apply (FormatUint_ind (fun u s => 0 < u -> 10 ^ (len s - 1) <= u)); [| |done].
  - intros v Hv Hpos. rewrite len_single. lia.
  - intros v Hv IH _. rewrite len_app, len_single.
    pose proof (len_FormatUint_pos (v / 10) ltac:(apply Z.div_pos; lia)).
    replace (len (FormatUint (v / 10)) + 1 - 1)
      with (Z.succ (len (FormatUint (v / 10)) - 1)) by lia.
    rewrite Z.pow_succ_r by lia.
    assert (0 < v / 10) by (apply Z.div_str_pos; lia).
    pose proof (Z.mul_div_le v 10 ltac:(lia)). specialize (IH ltac:(lia)). lia.
Qed.

Lemma zeros_snoc (n : nat) : zeros n +:+ "0" = zeros (S n).
Proof.
  induction n as [|n IH]; [done|].
  cbn [zeros]. rewrite app_cons, IH. reflexivity.
Qed.

(** The digits of a multiple of a power of ten end in that many zeros. *)
Lemma FormatUint_pow10 (u : Z) (n : nat) :
  0 < u -> FormatUint (u * 10 ^ Z.of_nat n) = FormatUint u +:+ zeros n.
Proof.
  intros Hu. induction n as [|n IH].
  - change (10 ^ Z.of_nat 0) with 1. by rewrite Z.mul_1_r, app_nil_r.
  - rewrite Nat2Z.inj_succ, Z.pow_succ_r by lia.
    assert (0 < 10 ^ Z.of_nat n) by (apply Z.pow_pos_nonneg; lia).
    rewrite FormatUint_step by nia.
    replace (u * (10 * 10 ^ Z.of_nat n)) with (u * 10 ^ Z.of_nat n * 10) by lia.
    rewrite Z.div_mul, Z.mod_mul, IH by lia.
    rewrite app_assoc. f_equal. apply zeros_snoc.
Qed.

Lemma substring_all (s : string) : substring 0 (String.length s) s = s.
Proof. rewrite <- (app_nil_r s) at 2. apply substring_app. Qed.

(** ** The shortest digits of a whole number *)

(** With an exponent of 0 at most, neighbouring floats are 1 apart at most,
    and the reals that round to a float are less than 1 away from it. *)
Lemma interval_narrow (m : positive) (e c : Z) :
  -1074 <= e <= 0 ->
  in_rounding_interval m e c (10 ^ dec_scale e) = true ->
  scaled_value m e - 10 ^ dec_scale e < c < scaled_value m e + 10 ^ dec_scale e.
Proof.
  intros He Hin. apply in_rounding_interval_iff in Hin.
  pose proof (scaled_value_eq m e ltac:(lia)) as HV.
  set (V := scaled_value m e) in *. set (den := 10 ^ dec_scale e) in *.
  assert (0 < den) as Hden by (apply pow_pos; unfold dec_scale; lia).
  pose proof (pow2_pos (e + 1074) ltac:(lia)) as HG.
  pose proof (pow2_pos (- e) ltac:(lia)) as HK.
  assert (2 ^ 1076 = 4 * 2 ^ (- e) * 2 ^ (e + 1074)) as H1076.
  { replace 1076 with (2 + (- e) + (e + 1074)) by lia.
    rewrite !Z.pow_add_r by lia. reflexivity. }
  assert (midpoint_below m e * den <= c * 2 ^ 1076 <= midpoint_above m e * den) as [Hlo Hhi]
    by (destruct (Z.even (Z.pos m)); lia).
  clear Hin. unfold midpoint_below, midpoint_above in *.
  set (G := 2 ^ (e + 1074)) in *. set (K := 2 ^ (- e)) in *.
  assert ((4 * Z.pos m - 2) * G * den <= c * 2 ^ 1076) as Hlo'.
  { eapply Z.le_trans; [|exact Hlo].
    apply Z.mul_le_mono_nonneg_r; [lia|]. apply Z.mul_le_mono_nonneg_r; [lia|].
    destruct (_ && _); lia. }
  clear Hlo. rewrite H1076 in *.
  assert ((V - c) * (4 * K) * G <= 2 * den * G) as Hl by lia.
  assert ((c - V) * (4 * K) * G <= 2 * den * G) as Hr by lia.
  apply Z.mul_le_mono_pos_r in Hl, Hr; [|done|done].
  clearbody V den K G. clear HV Hlo' Hhi H1076. nia.
Qed.

Lemma pow10_succ (k : Z) : 0 <= k -> 10 ^ (k + 1) = 10 * 10 ^ k.
Proof. intros Hk. rewrite Z.pow_add_r by lia. change (10 ^ 1) with 10. lia. Qed.

Lemma round_down_multiple (m : positive) (e j : Z) :
  scaled_value m e mod 10 ^ j = 0 -> round_down m e j = scaled_value m e.
Proof.
  intros Hmod. unfold round_down.
  destruct (Z.eq_dec (10 ^ j) 0) as [H0|H0].
  - rewrite H0 in *. rewrite Z.mod_0_r in Hmod. lia.
  - pose proof (Z.div_mod (scaled_value m e) (10 ^ j) H0). lia.
Qed.

(** The search for the exponent stops at the first one that fails. *)
Lemma drop_digits_stop (fuel : nat) (m : positive) (e j J : Z) :
  (forall i, j < i <= J -> okdown m e i || okup m e i = true) ->
  okdown m e (J + 1) || okup m e (J + 1) = false ->
  j <= J -> (Z.to_nat (J - j) < fuel)%nat ->
  drop_digits fuel m e j = J.
Proof.
  revert j. induction fuel as [|fuel IH]; intros j Hok Hstop Hj Hfuel; [lia|].
  cbn [drop_digits]. destruct (Z.eq_dec j J) as [->|Hne].
  - by rewrite Hstop.
  - rewrite Hok by lia. apply IH; [|done|lia|lia].
    intros i Hi. apply Hok. lia.
Qed.

Lemma drop_digits_ge (fuel : nat) (m : positive) (e j : Z) :
  j <= drop_digits fuel m e j.
Proof.
  revert j. induction fuel as [|fuel IH]; intros j; cbn [drop_digits]; [lia|].
  destruct (_ || _); [|lia]. specialize (IH (j + 1)). lia.
Qed.

(** The digits of a whole number that is written with [tz] zeros at its
    end: the search drops the decimals and the zeros, and no digit more. *)
Lemma shortest_digits_whole (m : positive) (e Dg : Z) (tz : nat) :
  -1074 <= e <= 0 -> 0 < Dg -> Dg mod 10 <> 0 ->
  scaled_value m e = Dg * 10 ^ (dec_scale e + Z.of_nat tz) ->
  shortest_digits m e
  = {| d := FormatUint Dg; dp := len (FormatUint Dg) + Z.of_nat tz |}.
Proof.
  intros He HDg Hmod HV.
  set (q := dec_scale e) in *. set (J := q + Z.of_nat tz) in *.
  assert (0 <= q) as Hq by (unfold q, dec_scale; lia).
  assert (0 <= J) as HJ by lia.
  assert (0 < 10 ^ J) as HpJ by (apply pow_pos; lia).
  assert (0 < 10 ^ q) as Hpq by (apply pow_pos; lia).
  assert (10 ^ q <= 10 ^ J) as Hqj by (apply Z.pow_le_mono_r; lia).
  pose proof (Z.mod_pos_bound Dg 10 ltac:(lia)) as Hr.
  (* every exponent up to J keeps the value itself *)
  assert (forall i, 0 <= i <= J -> okdown m e i = true) as Hdown.
  { intros i Hi. unfold okdown. rewrite round_down_multiple.
    - apply scaled_value_in. lia.
    - rewrite HV. replace J with ((J - i) + i) by lia.
      rewrite Z.pow_add_r, Z.mul_assoc by lia. apply Z.mod_mul.
      apply Z.pow_nonzero; lia. }
  (* one more loses a digit that is not zero *)
  assert (scaled_value m e mod 10 ^ (J + 1) = Dg mod 10 * 10 ^ J) as Hrem.
  { rewrite HV, pow10_succ by lia.
    rewrite Z.mul_mod_distr_r by lia. reflexivity. }
  assert (round_down m e (J + 1) = scaled_value m e - Dg mod 10 * 10 ^ J) as Hrd.
  { unfold round_down.
    pose proof (Z.div_mod (scaled_value m e) (10 ^ (J + 1))
                  ltac:(apply Z.pow_nonzero; lia)) as Hdm.
    rewrite Hrem in Hdm. lia. }
  assert (okdown m e (J + 1) || okup m e (J + 1) = false) as Hstop.
  { apply orb_false_intro.
    - unfold okdown. destruct (in_rounding_interval _ _ _ _) eqn:Hin; [|done].
      apply interval_narrow in Hin; [|done]. fold q in Hin. rewrite Hrd in Hin. nia.
    - unfold okup, round_up. destruct (in_rounding_interval _ _ _ _) eqn:Hin; [|done].
      apply interval_narrow in Hin; [|done]. fold q in Hin. rewrite Hrd in Hin.
      rewrite (pow10_succ J) in Hin by lia. nia. }
  assert (shortest_exp m e = J) as Hexp.
  { unfold shortest_exp. apply drop_digits_stop; [|done|lia|].
    - intros i Hi. rewrite Hdown by lia. reflexivity.
    - assert (J <= Z.log2 (scaled_value m e)); [|lia].
      apply Z.log2_le_pow2; [apply scaled_value_pos|].
      eapply Z.le_trans; [apply (Z.pow_le_mono_l 2 10 J); lia|].
      rewrite HV. nia. }
  assert (okup m e J = false) as Hup.
  { unfold okup, round_up. rewrite round_down_multiple.
    - destruct (in_rounding_interval _ _ _ _) eqn:Hin; [|done].
      apply interval_narrow in Hin; [|done]. fold q in Hin. lia.
    - rewrite HV. apply Z.mod_mul. lia. }
  assert (shortest_scaled m e = scaled_value m e) as Hss.
  { unfold shortest_scaled. rewrite Hexp, Hup, Hdown by lia. cbn [andb].
    apply round_down_multiple. rewrite HV. apply Z.mod_mul. lia. }
  unfold shortest_digits. rewrite Hexp, Hss, HV, Z.div_mul by lia.
  f_equal. fold q. lia.
Qed.

(** Every positive number is a number that does not end in 0, followed by
    zeros. *)
Lemma trailing_zeros (n : Z) :
  0 < n -> exists (Dg : Z) (tz : nat), n = Dg * 10 ^ Z.of_nat tz /\ 0 < Dg /\ Dg mod 10 <> 0.
Proof.
  induction (Z.lt_wf 0 n) as [n _ IH]. intros Hn.
  destruct (Z.eq_dec (n mod 10) 0) as [H0|H0].
  - pose proof (Z.div_mod n 10 ltac:(lia)) as Hdm. rewrite H0 in Hdm.
    destruct (IH (n / 10) ltac:(lia) ltac:(lia)) as (Dg & tz & Heq & HDg & Hmod).
    exists Dg, (S tz). rewrite Nat2Z.inj_succ, Z.pow_succ_r by lia.
    split; [lia|done].
  - exists n, 0%nat. change (10 ^ Z.of_nat 0) with 1. split; [lia|done].
Qed.

(** [%g] of such digits, below a million: the digits and the zeros, and no
    exponent. *)
Lemma fmtG_whole (s : bool) (Dg : Z) (tz : nat) :
  0 < Dg -> Dg * 10 ^ Z.of_nat tz < 10 ^ 6 ->
  fmtG s {| d := FormatUint Dg; dp := len (FormatUint Dg) + Z.of_nat tz |}
  = (if s then "-" else EmptyString) +:+ FormatUint (Dg * 10 ^ Z.of_nat tz).
Proof.
  intros HDg Hlt. unfold fmtG, fmtF, nd. cbn [d dp].
  pose proof (len_FormatUint_pos Dg ltac:(lia)) as Hl1.
  assert (0 < 10 ^ Z.of_nat tz) by (apply pow_pos; lia).
  pose proof (len_FormatUint_le (Dg * 10 ^ Z.of_nat tz) 6 ltac:(nia) ltac:(lia) Hlt) as Hl6.
  rewrite FormatUint_pow10 in * by done. rewrite len_app, len_zeros in Hl6.
  set (ds := FormatUint Dg) in *.
  destruct (Z.ltb_spec (len ds + Z.of_nat tz - 1) (-4)); [lia|].
  destruct (Z.leb_spec 6 (len ds + Z.of_nat tz - 1)); [lia|]. cbn [orb].
  replace (Z.max (len ds - (len ds + Z.of_nat tz)) 0) with 0 by lia.
  destruct (Z.ltb_spec 0 (len ds + Z.of_nat tz)); [|lia].
  change (0 <? 0) with false. cbv iota.
  replace (Z.min (len ds) (len ds + Z.of_nat tz)) with (len ds) by lia.
  replace (len ds + Z.of_nat tz - len ds) with (Z.of_nat tz) by lia.
  unfold len. rewrite !Nat2Z.id, substring_all, app_nil_r. reflexivity.
Qed.

Lemma binary_round_small_bounded (t mz : positive) :
  Z.pos (digits2_pos t) <= 53 ->
  Z.pos mz = Z.pos t * 2 ^ (53 - Z.pos (digits2_pos t)) ->
  bounded prec emax mz (Z.pos (digits2_pos t) - 53) = true.
Proof.
  intros Hd Hmz. unfold bounded, canonical_mantissa, fexp, emin, prec, emax.
  rewrite (digits2_shift t (53 - Z.pos (digits2_pos t)) mz ltac:(lia) Hmz).
  apply andb_true_intro. split; [apply Z.eqb_eq|apply Z.leb_le]; lia.
Qed.

Lemma digits2_below (t : positive) (k : Z) :
  0 <= k -> Z.pos t < 2 ^ k -> Z.pos (digits2_pos t) <= k.
Proof.
  intros Hk Ht. pose proof (digits2_pos_bounds t) as [Dlo _].
  destruct (Z_le_gt_dec (Z.pos (digits2_pos t)) k); [done|].
  assert (2 ^ k <= 2 ^ (Z.pos (digits2_pos t) - 1)) by (apply Z.pow_le_mono_r; lia).
  lia.
Qed.

(** A float64 made from an integer below a million in size: [%v] prints the
    integer, and converting to int64 and back gives the float64 again. *)
Lemma float64_of_small_int (s : bool) (t : positive) :
  Z.pos t < 10 ^ 6 ->
  let val := float64_of_int64 (if s then Z.neg t else Z.pos t) in
  FormatFloat val verb_g = (if s then "-" else EmptyString) +:+ FormatUint (Z.pos t) /\
  float64_eqb val (float64_of_int64 (int64_of_float64 val)) = true.
Proof.
  intros Ht val. unfold val. clear val.
  assert (Z.pos (digits2_pos t) <= 20) as Hd20
    by (apply digits2_below; [lia|]; eapply Z.lt_trans; [exact Ht|reflexivity]).
  change (Z.neg t) with (- Z.pos t).
  pose proof (float64_of_int64_signed s t) as Hfl.
  destruct (binary_round_small s t ltac:(lia)) as (mz & Hmz & Hbr).
  rewrite Hbr in Hfl. clear Hbr. rewrite Hfl.
  set (e := Z.pos (digits2_pos t) - 53) in *.
  assert (-52 <= e <= -33) as He by (unfold e; lia).
  replace (53 - Z.pos (digits2_pos t)) with (- e) in Hmz by (unfold e; lia).
  assert (0 < 2 ^ (- e)) as Hp by (apply pow2_pos; lia).
  assert (truncated mz e = Z.pos t) as Htr.
  { unfold truncated. destruct (Z.leb_spec 0 e); [lia|].
    rewrite Hmz. apply Z.div_mul. lia. }
  assert (int64_of_float64 (S754_finite s mz e) = if s then - Z.pos t else Z.pos t) as Hint.
  { unfold int64_of_float64. fold (truncated mz e). rewrite Htr.
    assert (10 ^ 6 < int_max) by reflexivity. assert (int_min < - 10 ^ 6) by reflexivity.
    destruct s.
    - destruct (Z.leb_spec int_min (- Z.pos t)); [|lia].
      destruct (Z.leb_spec (- Z.pos t) int_max); [done|lia].
    - destruct (Z.leb_spec int_min (Z.pos t)); [|lia].
      destruct (Z.leb_spec (Z.pos t) int_max); [done|lia]. }
  split.
  - cbn [FormatFloat].
    destruct (trailing_zeros (Z.pos t) ltac:(lia)) as (Dg & tz & Heq & HDg & Hmod).
    rewrite (shortest_digits_whole mz e Dg tz); [|lia|done|done|].
    + rewrite fmtG_whole by (try done; rewrite <- Heq; done).
      by rewrite <- Heq.
    + unfold scaled_value, dec_scale.
      replace (Z.max 0 e) with 0 by lia. replace (Z.max 0 (- e)) with (- e) by lia.
      change (2 ^ 0) with 1. rewrite Hmz, Heq, Z.pow_add_r, (pow10_split (- e)) by lia.
      lia.
  - rewrite Hint, Hfl. apply SFeqb_refl_finite.
Qed.

Lemma FormatInt_signed (s : bool) (t : positive) :
  FormatInt (if s then Z.neg t else Z.pos t)
  = (if s then "-" else EmptyString) +:+ FormatUint (Z.pos t).
Proof. by destruct s. Qed.

Lemma float64_of_small_int_text (n : Z) :
  - 10 ^ 6 < n < 10 ^ 6 ->
  FormatFloat (float64_of_int64 n) verb_g = FormatInt n /\
  float64_eqb (float64_of_int64 n)
    (float64_of_int64 (int64_of_float64 (float64_of_int64 n))) = true.
Proof.
  intros Hn. destruct n as [|t|t].
  - split; vm_compute; reflexivity.
  - rewrite (FormatInt_signed false). apply (float64_of_small_int false). lia.
  - rewrite (FormatInt_signed true). apply (float64_of_small_int true). lia.
Qed.

(** X11: an integer below one million in size, converted to float64, is printed
    by [formatFloat] as the integer is printed, with [.0] after it. *)
Theorem formatFloat_small_integers (n : Z) :
  - 10 ^ 6 < n < 10 ^ 6 ->
  formatFloat (float64_of_int64 n) = FormatInt n +:+ ".0".
Proof.
  intros Hn. destruct (float64_of_small_int_text n Hn) as [Htext Htest].
  unfold formatFloat. rewrite Htest, Sprintf_v_0. cbn [fmt_v]. by rewrite Htext.
Qed.

Lemma formatFloat_small_integers_witness :
  formatFloat (float64_of_int64 (-120)) = FormatInt (-120) +:+ ".0".
Proof. apply formatFloat_small_integers. vm_compute. split; reflexivity. Defined.

(** ** The earlier [WriteFloat] *)

Lemma Sprintf_float_entry (key : string) (value : float64) :
  Sprintf ("%v = %v" +:+ nl) [AString key; AFloat value]
  = key +:+ " = " +:+ FormatFloat value verb_g +:+ nl.
Proof. rewrite ?app_assoc. reflexivity. Qed.

(** X12: [WriteFloat] hands the float64 to [%v]: a whole number below a million
    in size is written as an integer is, where [AddFloat] writes [.0] after
    it. *)
Theorem WriteFloat_whole_number (h : heap) (w : loc) (b : TomlBuilder)
    (text key : string) (n : Z) :
  builders h !! w = Some b -> buffers h !! buf b = Some text ->
  - 10 ^ 6 < n < 10 ^ 6 ->
  Legacy.WriteFloat w key (float64_of_int64 n) h
  = Ok tt (upd h w b (text +:+ indentation b +:+ key +:+ " = " +:+ FormatInt n +:+ nl)) /\
  AddFloat w key (float64_of_int64 n) h
  = Ok tt (upd h w b (text +:+ indentation b +:+ key +:+ " = " +:+ FormatInt n +:+ ".0" +:+ nl)).
Proof.
  intros Hb Ht Hn. destruct (float64_of_small_int_text n Hn) as [Htext Htest].
  rewrite <- (upd_id h w b text Hb Ht) at 1 3.
  unfold Legacy.WriteFloat, AddFloat.
  rewrite !write_upd, Sprintf_float_entry, Htext.
  unfold formatFloat. rewrite Htest, Sprintf_v_0. cbn [fmt_v]. rewrite Htext.
  split; [done|]. by rewrite Sprintf_entry, !app_assoc.
Qed.

Lemma WriteFloat_whole_number_witness :
  Legacy.WriteFloat 1%positive "k" (float64_of_int64 8) fresh_heap
  = Ok tt (upd fresh_heap 1%positive fresh_builder ("k = " +:+ FormatInt 8 +:+ nl)).
Proof.
  refine (proj1 (WriteFloat_whole_number fresh_heap 1%positive fresh_builder EmptyString
                   "k" 8 eq_refl eq_refl _)).
  vm_compute. split; reflexivity.
Defined.

(** ** Beyond the range of int64 *)

Lemma shortest_scaled_nonneg (m : positive) (e : Z) : 0 <= shortest_scaled m e.
Proof.
  pose proof (scaled_value_pos m e) as HV.
  assert (forall j, 0 <= round_down m e j) as Hrd.
  { intros j. unfold round_down. destruct (Z_lt_le_dec j 0).
    - rewrite Z.pow_neg_r by lia. lia.
    - apply Z.mul_nonneg_nonneg;
        [apply Z.div_pos; [lia|apply pow_pos; lia]|apply Z.pow_nonneg; lia]. }
  assert (forall j, 0 <= round_up m e j) as Hru.
  { intros j. unfold round_up. specialize (Hrd j).
    assert (0 <= 10 ^ j) by (apply Z.pow_nonneg; lia). lia. }
  unfold shortest_scaled. repeat case_match; auto.
Qed.

(** X13: a finite float64 larger in size than 2^63 fails the test of
    [formatFloat], whole number though it is: what [formatFloat] returns is
    the sign and digits, with no point and no [.0]. *)
Theorem formatFloat_beyond_int64 (s : bool) (m : positive) (e : Z) :
  bounded prec emax m e = true -> 2 ^ 63 < truncated m e ->
  exists digits : string,
    formatFloat (S754_finite s m e) = (if s then "-" else EmptyString) +:+ digits /\
    all_digits digits = true /\ 1 <= len digits.
Proof.
  intros Hb Ht.
  pose proof (bounded_inv m e Hb) as (He & Hm & _).
  assert (11 <= e) as He11.
  { unfold truncated in Ht. destruct (Z.leb_spec 0 e) as [H0|H0].
    - destruct (Z_le_gt_dec 11 e); [done|].
      assert (2 ^ e <= 2 ^ 10) by (apply Z.pow_le_mono_r; lia).
      assert (0 < 2 ^ e) by (apply pow2_pos; lia).
      change (2 ^ 63) with (2 ^ 53 * 2 ^ 10) in Ht. nia.
    - assert (0 < 2 ^ (- e)) by (apply pow2_pos; lia).
      assert (Z.pos m / 2 ^ (- e) <= Z.pos m)
        by (apply Z.div_le_upper_bound; [lia|nia]).
      assert (2 ^ 53 < 2 ^ 63) by reflexivity. lia. }
  assert (int64_of_float64 (S754_finite s m e) = int_min) as Hint.
  { unfold int64_of_float64. fold (truncated m e).
    assert (int_max < 2 ^ 63) by reflexivity. assert (int_min = - 2 ^ 63) by reflexivity.
    destruct s.
    - destruct (Z.leb_spec int_min (- truncated m e)); [lia|done].
    - destruct (Z.leb_spec (truncated m e) int_max); [lia|]. by rewrite andb_false_r. }
  assert (float64_of_int64 int_min = S754_finite true 4503599627370496 11) as Hmin
    by (vm_compute; reflexivity).
  assert (float64_eqb (S754_finite s m e) (float64_of_int64 int_min) = false) as Htest.
  { rewrite Hmin. unfold float64_eqb. destruct (SFeqb _ _) eqn:Heq; [|done].
    apply SFeqb_finite_inv in Heq as (_ & -> & ->).
    unfold truncated in Ht. cbn in Ht. lia. }
  unfold formatFloat. rewrite Hint, Htest, Sprintf_v. cbn [FormatFloat].
  unfold shortest_digits, fmtF, nd. cbn [d dp].
  pose proof (drop_digits_ge (Z.to_nat (Z.log2 (scaled_value m e)) + 1) m e 0) as Hj.
  fold (shortest_exp m e) in Hj. set (j := shortest_exp m e) in *.
  assert (0 < 10 ^ j) by (apply pow_pos; lia).
  pose proof (shortest_scaled_nonneg m e) as Hss.
  assert (0 <= shortest_scaled m e / 10 ^ j) as Hu by (apply Z.div_pos; lia).
  pose proof (len_FormatUint_pos _ Hu) as Hl.
  set (ds := FormatUint (shortest_scaled m e / 10 ^ j)) in *.
  unfold dec_scale. replace (Z.max 0 (- e)) with 0 by lia.
  replace (Z.max (len ds - (len ds + j - 0)) 0) with 0 by lia.
  destruct (Z.ltb_spec 0 (len ds + j - 0)); [|lia].
  change (0 <? 0) with false. cbv iota.
  replace (Z.min (len ds) (len ds + j - 0)) with (len ds) by lia.
  exists (ds +:+ zeros (Z.to_nat j)). split; [|split].
  - unfold len. rewrite Nat2Z.id, substring_all, app_nil_r.
    do 3 f_equal. lia.
  - rewrite all_digits_app, all_digits_zeros. unfold ds.
    by rewrite all_digits_FormatUint.
  - rewrite len_app, len_zeros. lia.
Qed.

Lemma formatFloat_beyond_int64_witness :
  exists digits : string,
    formatFloat (S754_finite false 4503599627370496 12) = EmptyString +:+ digits /\
    all_digits digits = true /\ 1 <= len digits.
Proof.
  refine (formatFloat_beyond_int64 false 4503599627370496 12 _ _).
  - vm_compute. reflexivity.
  - vm_compute. reflexivity.
Defined.

(** ** The shortest digits of any finite float64 *)

(** What the search for the exponent returns: every exponent on the way
    passed the test, and the next one failed it unless the fuel ran out. *)
Lemma drop_digits_spec (fuel : nat) (m : positive) (e j : Z) :
  let J := drop_digits fuel m e j in
  j <= J <= j + Z.of_nat fuel /\
  (forall i, j < i <= J -> okdown m e i || okup m e i = true) /\
  (J < j + Z.of_nat fuel -> okdown m e (J + 1) || okup m e (J + 1) = false).
Proof.
  revert j. induction fuel as [|fuel IH]; intros j; cbn [drop_digits].
  - split; [lia|]. split; [intros; lia|lia].
  - destruct (okdown m e (j + 1) || okup m e (j + 1)) eqn:Hok.
    + destruct (IH (j + 1)) as (Hr & Hall & Hnext).
      split; [lia|]. split.
      * intros i Hi. destruct (Z.eq_dec i (j + 1)) as [->|]; [done|]. apply Hall. lia.
      * intros Hlt. apply Hnext. lia.
    + split; [lia|]. split; [intros; lia|done].
Qed.

(** A multiple of 10^i that rounds to the float is 10^i at least. *)
Lemma ok_bound (m : positive) (e i : Z) :
  -1074 <= e -> 0 <= i -> okdown m e i || okup m e i = true ->
  10 ^ i <= 2 * scaled_value m e.
Proof.
  intros He Hi Hok.
  assert (0 < 10 ^ i) as Hp by (apply pow_pos; lia).
  pose proof (scaled_value_pos m e) as HV.
  assert (0 <= scaled_value m e / 10 ^ i) as Hq by (apply Z.div_pos; lia).
  unfold okdown, okup, round_up, round_down in Hok.
  set (P := 10 ^ i) in *. set (Q := scaled_value m e / P) in *.
  apply orb_prop in Hok as [Hok|Hok]; apply in_interval_bounds in Hok; try done.
  - assert (1 <= Q) by (destruct (Z.eq_dec Q 0) as [H0|]; [rewrite H0 in Hok|]; lia).
    assert (1 * P <= Q * P) by (apply Z.mul_le_mono_nonneg_r; lia). lia.
  - assert (0 <= Q * P) by (apply Z.mul_nonneg_nonneg; lia). lia.
Qed.

Lemma shortest_exp_spec (m : positive) (e : Z) :
  -1074 <= e ->
  let J := shortest_exp m e in
  0 <= J /\
  (forall i, 0 < i <= J -> okdown m e i || okup m e i = true) /\
  okdown m e (J + 1) || okup m e (J + 1) = false.
Proof.
  intros He J. unfold J, shortest_exp. clear J.
  set (fuel := (Z.to_nat (Z.log2 (scaled_value m e)) + 1)%nat).
  destruct (drop_digits_spec fuel m e 0) as (Hr & Hall & Hnext).
  set (J := drop_digits fuel m e 0) in *.
  split; [lia|]. split; [exact Hall|].
  apply Hnext. pose proof (scaled_value_pos m e) as HV.
  pose proof (Z.log2_spec _ HV) as [_ Hhi].
  pose proof (Z.log2_nonneg (scaled_value m e)) as Hl.
  assert (Z.of_nat fuel = Z.succ (Z.log2 (scaled_value m e))) as Hf by (unfold fuel; lia).
  destruct (Z_lt_le_dec J (0 + Z.of_nat fuel)) as [|Hge]; [done|exfalso].
  assert (J = Z.of_nat fuel) as HJ by lia.
  pose proof (ok_bound m e J He ltac:(lia) (Hall J ltac:(lia))) as Hb.
  rewrite HJ, Hf in Hb.
  set (L := Z.log2 (scaled_value m e)) in *.
  rewrite pow10_split in Hb by lia.
  assert (5 <= 5 ^ Z.succ L).
  { change 5 with (5 ^ 1) at 1. apply Z.pow_le_mono_r; lia. }
  assert (0 < 2 ^ Z.succ L) by (apply pow2_pos; lia).
  nia.
Qed.

Lemma round_down_0 (m : positive) (e : Z) : round_down m e 0 = scaled_value m e.
Proof. unfold round_down. change (10 ^ 0) with 1. rewrite Z.div_1_r. lia. Qed.

Lemma shortest_exp_ok (m : positive) (e : Z) :
  -1074 <= e ->
  okdown m e (shortest_exp m e) || okup m e (shortest_exp m e) = true.
Proof.
  intros He. destruct (shortest_exp_spec m e He) as (H0 & Hall & _).
  destruct (Z.eq_dec (shortest_exp m e) 0) as [->|Hne].
  - unfold okdown. rewrite round_down_0, scaled_value_in; done.
  - apply Hall. lia.
Qed.

(** The decimal the search settles on rounds to the float. *)
Lemma shortest_scaled_in (m : positive) (e : Z) :
  -1074 <= e ->
  in_rounding_interval m e (shortest_scaled m e) (10 ^ dec_scale e) = true.
Proof.
  intros He. pose proof (shortest_exp_ok m e He) as Hok.
  unfold shortest_scaled. set (j := shortest_exp m e) in *.
  destruct (okdown m e j) eqn:Hd; destruct (okup m e j) eqn:Hu;
    cbn [andb orb] in *; try done.
  repeat case_match; done.
Qed.

Lemma shortest_scaled_multiple (m : positive) (e : Z) :
  shortest_scaled m e
  = shortest_scaled m e / 10 ^ shortest_exp m e * 10 ^ shortest_exp m e.
Proof.
  pose proof (drop_digits_ge (Z.to_nat (Z.log2 (scaled_value m e)) + 1) m e 0) as Hj.
  fold (shortest_exp m e) in Hj. set (j := shortest_exp m e) in *.
  assert (0 < 10 ^ j) as Hp by (apply pow_pos; lia).
  assert (round_down m e j = round_down m e j / 10 ^ j * 10 ^ j) as Hd.
  { unfold round_down. by rewrite Z.div_mul by lia. }
  assert (round_up m e j = round_up m e j / 10 ^ j * 10 ^ j) as Hu.
  { unfold round_up, round_down.
    replace (scaled_value m e / 10 ^ j * 10 ^ j + 10 ^ j)
      with ((scaled_value m e / 10 ^ j + 1) * 10 ^ j) by ring.
    by rewrite Z.div_mul by lia. }
  unfold shortest_scaled. fold j. repeat case_match; done.
Qed.

(** No multiple of the next power of ten rounds to the float. *)
Lemma no_shorter_multiple (m : positive) (e k : Z) :
  -1074 <= e ->
  in_rounding_interval m e (k * 10 ^ (shortest_exp m e + 1)) (10 ^ dec_scale e) = false.
Proof.
  intros He. destruct (shortest_exp_spec m e He) as (H0 & _ & Hstop).
  set (j := shortest_exp m e) in *. set (P := 10 ^ (j + 1)) in *.
  set (den := 10 ^ dec_scale e). set (V := scaled_value m e).
  assert (0 < P) as HP by (apply pow_pos; lia).
  assert (0 < den) as Hden by (apply pow_pos; unfold dec_scale; lia).
  pose proof (scaled_value_in m e He) as HVin. fold V den in HVin.
  apply orb_false_elim in Hstop as [Hd Hu].
  unfold okdown, okup, round_up, round_down in Hd, Hu. fold P V den in Hd, Hu.
  pose proof (Z.div_mod V P ltac:(lia)) as Hdm.
  pose proof (Z.mod_pos_bound V P HP) as Hr.
  destruct (in_rounding_interval m e (k * P) den) eqn:Hin; [exfalso|done].
  destruct (Z_le_gt_dec (k * P) V) as [Hle|Hgt].
  - assert (k <= V / P) by (apply Z.div_le_lower_bound; lia).
    assert (k * P <= V / P * P) by (apply Z.mul_le_mono_nonneg_r; lia).
    rewrite (in_rounding_interval_convex m e (k * P) den (V / P * P) den V den) in Hd;
      try done; apply Z.mul_le_mono_nonneg_r; lia.
  - assert (V / P + 1 <= k) as Hk.
    { destruct (Z_le_gt_dec (V / P + 1) k) as [|Hlt]; [done|].
      assert (k <= V / P) as Hkq by lia.
      apply (Z.mul_le_mono_nonneg_r _ _ P) in Hkq; lia. }
    apply (Z.mul_le_mono_nonneg_r _ _ P) in Hk; [|lia].
    rewrite (in_rounding_interval_convex m e V den (V / P * P + P) den (k * P) den) in Hu;
      try done; apply Z.mul_le_mono_nonneg_r; lia.
Qed.

(** The digits the search settles on: a positive number that does not end
    in 0. *)
Lemma shortest_digits_number (m : positive) (e : Z) :
  -1074 <= e ->
  let Dg := shortest_scaled m e / 10 ^ shortest_exp m e in
  0 < Dg /\ Dg mod 10 <> 0.
Proof.
  intros He Dg. destruct (shortest_exp_spec m e He) as (H0 & _ & _).
  pose proof (shortest_scaled_in m e He) as Hin.
  pose proof (shortest_scaled_multiple m e) as Hmul. fold Dg in Hmul.
  pose proof (in_interval_bounds m e _ He Hin) as [Hpos _].
  set (j := shortest_exp m e) in *.
  assert (0 < 10 ^ j) as Hp by (apply pow_pos; lia).
  split; [nia|]. intros Hmod.
  pose proof (Z.div_mod Dg 10 ltac:(lia)) as Hdm. rewrite Hmod, Z.add_0_r in Hdm.
  pose proof (no_shorter_multiple m e (Dg / 10) He) as Hno. fold j in Hno.
  rewrite pow10_succ in Hno by lia.
  replace (Dg / 10 * (10 * 10 ^ j)) with (shortest_scaled m e) in Hno by lia.
  congruence.
Qed.

(** With an exponent of 0 at most, a real that rounds to the float is half
    a step from it at most. *)
Lemma interval_half_step (m : positive) (e c : Z) :
  -1074 <= e <= 0 ->
  in_rounding_interval m e c (10 ^ dec_scale e) = true ->
  2 * 2 ^ (- e) * (c - scaled_value m e) <= 10 ^ dec_scale e /\
  2 * 2 ^ (- e) * (scaled_value m e - c) <= 10 ^ dec_scale e.
Proof.
  intros He Hin. apply in_rounding_interval_iff in Hin.
  pose proof (scaled_value_eq m e ltac:(lia)) as HV.
  set (V := scaled_value m e) in *. set (den := 10 ^ dec_scale e) in *.
  assert (0 < den) as Hden by (apply pow_pos; unfold dec_scale; lia).
  pose proof (pow2_pos (e + 1074) ltac:(lia)) as HG.
  pose proof (pow2_pos (- e) ltac:(lia)) as HK.
  assert (2 ^ 1076 = 4 * 2 ^ (- e) * 2 ^ (e + 1074)) as H1076.
  { replace 1076 with (2 + (- e) + (e + 1074)) by lia.
    rewrite !Z.pow_add_r by lia. reflexivity. }
  assert (midpoint_below m e * den <= c * 2 ^ 1076 <= midpoint_above m e * den) as [Hlo Hhi]
    by (destruct (Z.even (Z.pos m)); lia).
  clear Hin. unfold midpoint_below, midpoint_above in *.
  set (G := 2 ^ (e + 1074)) in *. set (K := 2 ^ (- e)) in *.
  assert ((4 * Z.pos m - 2) * G * den <= c * 2 ^ 1076) as Hlo'.
  { eapply Z.le_trans; [|exact Hlo].
    apply Z.mul_le_mono_nonneg_r; [lia|]. apply Z.mul_le_mono_nonneg_r; [lia|].
    destruct (_ && _); lia. }
  clear Hlo. rewrite H1076 in *.
  assert ((2 * K * (V - c)) * (2 * G) <= den * (2 * G)) as Hl by lia.
  assert ((2 * K * (c - V)) * (2 * G) <= den * (2 * G)) as Hr by lia.
  apply Z.mul_le_mono_pos_r in Hl, Hr; [|lia|lia]. done.
Qed.

(** A float64 that is no whole number keeps a digit after the point. *)
Lemma shortest_exp_fraction (s : bool) (m : positive) (e : Z) :
  bounded prec emax m e = true -> is_integral (S754_finite s m e) = false ->
  shortest_exp m e < dec_scale e.
Proof.
  intros Hb Hi. pose proof (bounded_inv m e Hb) as (He & _ & _).
  cbn [is_integral] in Hi. apply orb_false_elim in Hi as [H0 Hi].
  apply Z.leb_gt in H0. apply Z.eqb_neq in Hi.
  destruct (shortest_exp_spec m e ltac:(lia)) as (HJ & _ & _).
  pose proof (shortest_scaled_in m e ltac:(lia)) as Hin.
  pose proof (shortest_scaled_multiple m e) as Hmul.
  apply interval_half_step in Hin; [|lia].
  set (j := shortest_exp m e) in *. set (c := shortest_scaled m e) in *.
  unfold dec_scale in *. replace (Z.max 0 (- e)) with (- e) in * by lia.
  set (q := - e) in *.
  destruct (Z_lt_le_dec j q) as [|Hge]; [done|exfalso].
  assert (scaled_value m e = Z.pos m * 5 ^ q) as HV.
  { unfold scaled_value. replace (Z.max 0 e) with 0 by lia.
    replace (Z.max 0 (- e)) with q by lia. change (2 ^ 0) with 1. lia. }
  rewrite HV in Hin.
  assert (0 < 2 ^ q) as H2 by (apply pow2_pos; lia).
  assert (0 < 5 ^ q) as H5 by (apply pow_pos; lia).
  (* the decimal is a whole number a *)
  set (a := c / 10 ^ j * 10 ^ (j - q)).
  assert (c = a * 2 ^ q * 5 ^ q) as Hc.
  { unfold a. rewrite Hmul at 1. replace j with ((j - q) + q) at 2 by lia.
    rewrite Z.pow_add_r, (pow10_split q) by lia. ring. }
  rewrite Hc, (pow10_split q) in Hin by lia. destruct Hin as [Hhi Hlo].
  assert (a * 2 ^ q <> Z.pos m) as Hne.
  { intros Heq. apply Hi. rewrite <- Heq. apply Z.mod_mul. lia. }
  replace (2 * 2 ^ q * (a * 2 ^ q * 5 ^ q - Z.pos m * 5 ^ q))
    with ((2 * (a * 2 ^ q - Z.pos m)) * (2 ^ q * 5 ^ q)) in Hhi by ring.
  replace (2 * 2 ^ q * (Z.pos m * 5 ^ q - a * 2 ^ q * 5 ^ q))
    with ((2 * (Z.pos m - a * 2 ^ q)) * (2 ^ q * 5 ^ q)) in Hlo by ring.
  assert (0 < 2 ^ q * 5 ^ q) as HT by (apply Z.mul_pos_pos; done).
  rewrite <- (Z.mul_1_l (2 ^ q * 5 ^ q)) in Hhi at 2.
  rewrite <- (Z.mul_1_l (2 ^ q * 5 ^ q)) in Hlo at 2.
  apply Z.mul_le_mono_pos_r in Hhi, Hlo; [|done|done]. lia.
Qed.

(** The decimal with the digits and the exponent rounds to the float. *)
Lemma shortest_digits_in (m : positive) (e : Z) :
  -1074 <= e -> shortest_exp m e <= dec_scale e ->
  in_rounding_interval m e (shortest_scaled m e / 10 ^ shortest_exp m e)
    (10 ^ (dec_scale e - shortest_exp m e)) = true.
Proof.
  intros He Hle. destruct (shortest_exp_spec m e He) as (HJ & _ & _).
  pose proof (shortest_scaled_in m e He) as Hin.
  pose proof (shortest_scaled_multiple m e) as Hmul.
  set (j := shortest_exp m e) in *. set (q := dec_scale e) in *.
  assert (0 < 10 ^ j) by (apply pow_pos; lia).
  assert (0 < 10 ^ (q - j)) by (apply pow_pos; lia).
  assert (0 < 10 ^ q) by (apply pow_pos; lia).
  apply (in_rounding_interval_ratio m e (shortest_scaled m e) (10 ^ q)); try done.
  rewrite Hmul at 1. replace q with ((q - j) + j) at 2 by lia.
  rewrite Z.pow_add_r by lia. ring.
Qed.

(** ** Texts of digits *)

Lemma is_digit_not_sign (c : ascii) :
  is_digit c = true ->
  Ascii.eqb c "." = false /\ Ascii.eqb c "-" = false /\ Ascii.eqb c "+" = false.
Proof.
  intros Hc. repeat split.
  - destruct (Ascii.eqb_spec c "."); [subst; discriminate|done].
  - destruct (Ascii.eqb_spec c "-"); [subst; discriminate|done].
  - destruct (Ascii.eqb_spec c "+"); [subst; discriminate|done].
Qed.

Lemma decimal_value_app (s t : string) (acc : Z) :
  decimal_value (s +:+ t) acc = decimal_value t (decimal_value s acc).
Proof.
  revert acc. induction s as [|c s IH]; intros acc; rewrite ?app_cons, ?app_nil_l;
    cbn [decimal_value]; [done|apply IH].
Qed.

Lemma decimal_value_zeros (n : nat) : decimal_value (zeros n) 0 = 0.
Proof. induction n as [|n IH]; cbn [zeros decimal_value]; [done|exact IH]. Qed.

Lemma decimal_value_FormatUint (u : Z) : 0 <= u -> decimal_value (FormatUint u) 0 = u.
Proof.
  apply (FormatUint_ind (fun u s => decimal_value s 0 = u)).
  - intros k Hk. cbn [decimal_value]. rewrite digit_value_digit_char; lia.
  - intros k Hk IH. rewrite decimal_value_app, IH. cbn [decimal_value].
    rewrite digit_value_digit_char by (apply Z.mod_pos_bound; lia).
    pose proof (Z.div_mod k 10 ltac:(lia)). lia.
Qed.

(** [scan_digits] over a run of digits. *)
Lemma scan_digits_run (s rest : string) (sawdot sawdigits : bool) (mant nfrac : Z) :
  all_digits s = true ->
  scan_digits (s +:+ rest) sawdot sawdigits mant nfrac
  = scan_digits rest sawdot (sawdigits || negb (String.eqb s EmptyString))
      (decimal_value s mant) (if sawdot then nfrac + len s else nfrac).
Proof.
  revert sawdigits mant nfrac.
  induction s as [|c s IH]; intros sawdigits mant nfrac Hs;
    rewrite ?app_cons, ?app_nil_l.
  - cbn [String.eqb negb decimal_value]. rewrite orb_false_r.
    change (len EmptyString) with 0. rewrite Z.add_0_r. by destruct sawdot.
  - cbn [all_digits] in Hs. apply andb_prop in Hs as [Hc Hs].
    destruct (is_digit_not_sign c Hc) as (Hp & _ & _).
    cbn [scan_digits decimal_value String.eqb negb]. rewrite Hp, Hc, IH by done.
    rewrite orb_true_r. cbn [orb]. f_equal.
    unfold len. cbn [String.length]. destruct sawdot; lia.
Qed.

(** Digits, a point, digits: the number of all the digits, and the count
    of those after the point. *)
Lemma scan_digits_decimal (A B : string) :
  all_digits A = true -> all_digits B = true -> 1 <= len B ->
  scan_digits (A +:+ "." +:+ B) false false 0 0
  = Some (decimal_value (A +:+ B) 0, len B).
Proof.
  intros HA HB Hl. rewrite scan_digits_run by done.
  rewrite app_cons, app_nil_l. cbn [scan_digits Ascii.eqb Bool.eqb].
  rewrite <- (app_nil_r B) at 1. rewrite scan_digits_run by done.
  cbn [scan_digits]. rewrite decimal_value_app.
  destruct B; [unfold len in Hl; cbn in Hl; lia|].
  cbn [String.eqb negb]. by rewrite orb_true_r.
Qed.

Lemma digits_point_digits_text (A B : string) (seen : bool) :
  all_digits A = true -> all_digits B = true -> 1 <= len B ->
  seen = true \/ 1 <= len A ->
  digits_point_digits (A +:+ "." +:+ B) seen = true.
Proof.
  revert seen. induction A as [|c A IH]; intros seen HA HB Hl Hs;
    rewrite ?app_cons, ?app_nil_l.
  - destruct Hs as [->|Hs]; [|unfold len in Hs; cbn in Hs; lia].
    cbn [digits_point_digits Ascii.eqb Bool.eqb]. rewrite HB.
    destruct B; [unfold len in Hl; cbn in Hl; lia|done].
  - cbn [all_digits] in HA. apply andb_prop in HA as [Hc HA].
    destruct (is_digit_not_sign c Hc) as (Hp & _ & _).
    cbn [digits_point_digits]. rewrite Hp, Hc. cbn [andb].
    apply IH; auto.
Qed.

Lemma last_char_app (s t : string) :
  1 <= len t -> last_char (s +:+ t) = last_char t.
Proof.
  intros Ht. induction s as [|c s IH]; rewrite ?app_cons, ?app_nil_l; [done|].
  cbn [last_char]. rewrite IH.
  destruct (s +:+ t) eqn:Hst; [|done].
  destruct s; [|discriminate]. rewrite app_nil_l in Hst. subst.
  unfold len in Ht. cbn in Ht. lia.
Qed.

Lemma last_char_FormatUint (u : Z) :
  0 <= u -> last_char (FormatUint u) = Some (digit_char (u mod 10)).
Proof.
  intros Hu. destruct (Z_lt_le_dec u 10).
  - rewrite FormatUint_digit, Z.mod_small by lia. reflexivity.
  - rewrite FormatUint_step, last_char_app by (rewrite ?len_single; lia). reflexivity.
Qed.

Lemma digit_char_not_0 (k : Z) : 0 < k < 10 -> digit_char k <> "0"%char.
Proof.
  intros Hk.
  assert (k = 1 \/ k = 2 \/ k = 3 \/ k = 4 \/ k = 5 \/ k = 6 \/ k = 7 \/ k = 8 \/ k = 9)
    as Hc by lia.
  repeat (destruct Hc as [->|Hc]; [discriminate|]). by subst.
Qed.

(** ** Parts of a text *)

Lemma substring_none (k : nat) (s : string) : substring k 0 s = EmptyString.
Proof. revert k. induction s as [|c s IH]; intros [|k]; cbn [substring]; auto. Qed.

Lemma get_lt (k : nat) (s : string) :
  (k < String.length s)%nat -> exists c, String.get k s = Some c.
Proof.
  revert k. induction s as [|a s IH]; intros k Hk; cbn [String.length] in Hk; [lia|].
  destruct k as [|k]; cbn [String.get]; [eauto|]. apply IH. lia.
Qed.

Lemma substring_get (s : string) (k n : nat) (c : ascii) :
  String.get k s = Some c ->
  substring k (S n) s = String c (substring (S k) n s).
Proof.
  revert k. induction s as [|a s IH]; intros k Hg; [by destruct k|].
  destruct k as [|k]; cbn [String.get] in Hg.
  - injection Hg as ->. reflexivity.
  - cbn [substring]. rewrite (IH k Hg). reflexivity.
Qed.

Lemma substring_split (s : string) (k : nat) :
  (k <= String.length s)%nat ->
  substring 0 k s +:+ substring k (String.length s - k) s = s.
Proof.
  revert k. induction s as [|a s IH]; intros k Hk; cbn [String.length] in *.
  - by destruct k.
  - destruct k as [|k].
    + cbn [substring]. rewrite app_nil_l.
      replace (S (String.length s) - 0)%nat with (S (String.length s)) by lia.
      cbn [substring]. by rewrite substring_all.
    + cbn [substring]. rewrite app_cons.
      replace (S (String.length s) - S k)%nat with (String.length s - k)%nat by lia.
      rewrite IH by lia. reflexivity.
Qed.

Lemma all_digits_substring (s : string) (k n : nat) :
  all_digits s = true -> all_digits (substring k n s) = true.
Proof.
  revert k n. induction s as [|a s IH]; intros k n Hs.
  - by destruct k, n.
  - cbn [all_digits] in Hs. apply andb_prop in Hs as [Ha Hs].
    destruct k as [|k]; [destruct n as [|n]|]; cbn [substring all_digits]; auto.
    rewrite Ha. cbn [andb]. auto.
Qed.

Lemma length_substring (s : string) (k n : nat) :
  (k + n <= String.length s)%nat -> String.length (substring k n s) = n.
Proof.
  revert k n. induction s as [|a s IH]; intros k n Hl; cbn [String.length] in Hl.
  - by destruct k, n; try lia.
  - destruct k as [|k]; [destruct n as [|n]|]; cbn [substring String.length]; auto.
    + rewrite IH; lia.
    + apply IH. lia.
Qed.

(** ** The digits after the point *)

Lemma fraction_digits (digs : decimalSlice) (i : Z) (n : nat) :
  0 <= dp digs + i -> dp digs + i + Z.of_nat n <= nd digs ->
  fraction digs i n = substring (Z.to_nat (dp digs + i)) n (d digs).
Proof.
  revert i. induction n as [|n IH]; intros i Hlo Hhi; cbn [fraction].
  - by rewrite substring_none.
  - unfold digit_at, nd, len in *.
    destruct (Z.leb_spec 0 (dp digs + i)); [|lia].
    destruct (Z.ltb_spec (dp digs + i) (Z.of_nat (String.length (d digs)))); [|lia].
    cbn [andb].
    destruct (get_lt (Z.to_nat (dp digs + i)) (d digs) ltac:(lia)) as [c Hc].
    rewrite Hc, (substring_get _ _ _ _ Hc), IH by lia.
    do 2 f_equal. lia.
Qed.

Lemma fraction_zeros (digs : decimalSlice) (i : Z) (a n : nat) :
  dp digs + i + Z.of_nat a <= 0 ->
  fraction digs i (a + n) = zeros a +:+ fraction digs (i + Z.of_nat a) n.
Proof.
  revert i. induction a as [|a IH]; intros i Hi.
  - cbn [Nat.add zeros]. rewrite app_nil_l. f_equal. lia.
  - cbn [Nat.add zeros fraction]. rewrite app_cons, IH by lia.
    unfold digit_at. destruct (Z.leb_spec 0 (dp digs + i)); [lia|]. cbn [andb].
    replace (i + 1 + Z.of_nat a) with (i + Z.of_nat (S a)) by lia. reflexivity.
Qed.

(** [%f] with digits after the point: the digits before the point, or a 0
    when there are none, the point, and the digits after it, zeros first
    when the number is below a tenth. *)
Lemma fmtF_fraction (s : bool) (ds : string) (dpv : Z) :
  dpv < len ds ->
  fmtF s {| d := ds; dp := dpv |} (len ds - dpv)
  = (if s then "-" else EmptyString) +:+
    (if 0 <? dpv then substring 0 (Z.to_nat dpv) ds else "0") +:+ "." +:+
    (if 0 <? dpv then substring (Z.to_nat dpv) (Z.to_nat (len ds - dpv)) ds
     else zeros (Z.to_nat (- dpv)) +:+ ds).
Proof.
  intros Hlt. unfold fmtF, nd. cbn [d dp].
  destruct (Z.ltb_spec 0 (len ds - dpv)); [|lia].
  destruct (Z.ltb_spec 0 dpv) as [Hpos|Hneg].
  - replace (Z.min (len ds) dpv) with dpv by lia.
    replace (dpv - dpv) with 0 by lia. cbn [Z.to_nat zeros]. rewrite app_nil_r.
    rewrite fraction_digits; cbn [d dp]; unfold nd; cbn [d]; try lia.
    by rewrite Z.add_0_r.
  - replace (Z.to_nat (len ds - dpv))
      with (Z.to_nat (- dpv) + String.length ds)%nat by (unfold len; lia).
    rewrite fraction_zeros by (cbn [dp]; lia).
    rewrite fraction_digits; cbn [d dp]; unfold nd; cbn [d]; unfold len; try lia.
    replace (Z.to_nat (dpv + (0 + Z.of_nat (Z.to_nat (- dpv))))) with 0%nat by lia.
    by rewrite substring_all.
Qed.

(** ** Counting digits *)

Lemma first_char_FormatUint (u : Z) :
  0 < u ->
  exists (c : ascii) (rest : string),
    FormatUint u = String c rest /\ is_digit c = true /\ Ascii.eqb c "0" = false.
Proof.
  intros Hu. assert (0 <= u) as Hu0 by lia. revert Hu.
  apply (FormatUint_ind (fun u s => 0 < u -> exists c rest,
           s = String c rest /\ is_digit c = true /\ Ascii.eqb c "0" = false)); [| |done].
  - intros k Hk Hpos. eexists _, _. split; [reflexivity|].
    split; [apply is_digit_digit_char; lia|].
    destruct (Ascii.eqb_spec (digit_char k) "0") as [Heq|]; [|done].
    by apply digit_char_not_0 in Heq; [|lia].
  - intros k Hk IH _.
    destruct IH as (c & rest & -> & Hc & H0); [apply Z.div_str_pos; lia|].
    rewrite app_cons. eauto.
Qed.

Lemma count_digits_app (s t : string) :
  count_digits (s +:+ t) = count_digits s + count_digits t.
Proof.
  induction s as [|c s IH]; rewrite ?app_cons, ?app_nil_l; cbn [count_digits]; lia.
Qed.

Lemma count_digits_all (s : string) : all_digits s = true -> count_digits s = len s.
Proof.
  induction s as [|c s IH]; intros Hs; [done|].
  cbn [all_digits] in Hs. apply andb_prop in Hs as [Hc Hs].
  cbn [count_digits]. rewrite Hc, IH by done. unfold len. cbn [String.length]. lia.
Qed.

Lemma significant_digits_zeros (n : nat) (t : string) :
  significant_digits (zeros n +:+ t) = significant_digits t.
Proof.
  induction n as [|n IH]; cbn [zeros]; rewrite ?app_cons, ?app_nil_l; [done|].
  cbn [significant_digits]. exact IH.
Qed.

(** From the first digit other than 0 on, every digit counts. *)
Lemma significant_digits_first (c : ascii) (rest : string) :
  is_digit c = true -> Ascii.eqb c "0" = false ->
  significant_digits (String c rest) = count_digits (String c rest).
Proof. intros Hc H0. cbn [significant_digits]. by rewrite Hc, H0. Qed.

(** ** A float64 that is no whole number *)

Lemma formatFloat_fraction (s : bool) (m : positive) (e : Z) :
  bounded prec emax m e = true -> is_integral (S754_finite s m e) = false ->
  formatFloat (S754_finite s m e) = FormatFloat (S754_finite s m e) verb_f.
Proof.
  intros Hb Hi. pose proof (bounded_inv m e Hb) as (He & Hm & _).
  pose proof Hi as Hi'. cbn [is_integral] in Hi'.
  apply orb_false_elim in Hi' as [H0 _]. apply Z.leb_gt in H0.
  assert (int64_of_float64 (S754_finite s m e)
          = if s then - truncated m e else truncated m e) as Hint.
  { apply int64_of_float64_finite. unfold int64_of_float64. fold (truncated m e).
    assert (0 <= truncated m e <= Z.pos m) as Ht.
    { unfold truncated. destruct (Z.leb_spec 0 e); [lia|].
      assert (0 < 2 ^ (- e)) by (apply pow2_pos; lia).
      split; [apply Z.div_pos; lia|]. apply Z.div_le_upper_bound; [lia|]. nia. }
    assert (2 ^ 53 < int_max) by reflexivity. assert (int_min < - 2 ^ 53) by reflexivity.
    destruct s.
    - destruct (Z.leb_spec int_min (- truncated m e)); [|lia].
      destruct (Z.leb_spec (- truncated m e) int_max); [|lia]. cbn [andb]. lia.
    - destruct (Z.leb_spec int_min (truncated m e)); [|lia].
      destruct (Z.leb_spec (truncated m e) int_max); [|lia]. cbn [andb]. lia. }
  unfold formatFloat. rewrite Hint, float64_of_int64_fraction by done.
  apply Sprintf_v.
Qed.

(** The text of such a float64: the sign, digits, the point, digits.  The
    digits are those of the shortest decimal, zeros before them apart, and
    the last of them is not 0. *)
Lemma formatFloat_fraction_text (s : bool) (m : positive) (e : Z) :
  bounded prec emax m e = true -> is_integral (S754_finite s m e) = false ->
  let Dg := shortest_scaled m e / 10 ^ shortest_exp m e in
  exists A B : string,
    formatFloat (S754_finite s m e)
    = (if s then "-" else EmptyString) +:+ A +:+ "." +:+ B /\
    all_digits A = true /\ all_digits B = true /\ 1 <= len A /\
    len B = dec_scale e - shortest_exp m e /\ 1 <= len B /\
    decimal_value (A +:+ B) 0 = Dg /\
    last_char B = Some (digit_char (Dg mod 10)) /\
    significant_digits (A +:+ "." +:+ B) = len (FormatUint Dg).
Proof.
  intros Hb Hi Dg. pose proof (bounded_inv m e Hb) as (He & _ & _).
  rewrite formatFloat_fraction by done. cbn [FormatFloat].
  pose proof (shortest_exp_fraction s m e Hb Hi) as HJq.
  destruct (shortest_exp_spec m e ltac:(lia)) as (HJ & _ & _).
  destruct (shortest_digits_number m e ltac:(lia)) as [HDg Hmod]. fold Dg in HDg, Hmod.
  unfold shortest_digits. fold Dg.
  set (J := shortest_exp m e) in *. set (q := dec_scale e) in *.
  pose proof (all_digits_FormatUint Dg ltac:(lia)) as Hall.
  pose proof (len_FormatUint_pos Dg ltac:(lia)) as Hlen.
  pose proof (decimal_value_FormatUint Dg ltac:(lia)) as Hval.
  pose proof (last_char_FormatUint Dg ltac:(lia)) as Hlast.
  set (ds := FormatUint Dg) in *. unfold nd. cbn [d dp].
  replace (Z.max (len ds - (len ds + J - q)) 0) with (len ds - (len ds + J - q)) by lia.
  rewrite fmtF_fraction by lia.
  set (dpv := len ds + J - q) in *.
  destruct (Z.ltb_spec 0 dpv) as [Hpos|Hneg].
  - exists (substring 0 (Z.to_nat dpv) ds),
           (substring (Z.to_nat dpv) (Z.to_nat (len ds - dpv)) ds).
    assert (substring 0 (Z.to_nat dpv) ds
            +:+ substring (Z.to_nat dpv) (Z.to_nat (len ds - dpv)) ds = ds) as Hsplit.
    { replace (Z.to_nat (len ds - dpv)) with (String.length ds - Z.to_nat dpv)%nat
        by (unfold len; lia).
      apply substring_split. unfold len in *. lia. }
    assert (len (substring 0 (Z.to_nat dpv) ds) = dpv) as HlA.
    { unfold len. rewrite length_substring; unfold len in *; lia. }
    assert (len (substring (Z.to_nat dpv) (Z.to_nat (len ds - dpv)) ds) = len ds - dpv) as HlB.
    { unfold len. rewrite length_substring; unfold len in *; lia. }
    split; [reflexivity|].
    split; [by apply all_digits_substring|]. split; [by apply all_digits_substring|].
    split; [lia|]. split; [lia|]. split; [lia|].
    split; [by rewrite Hsplit|]. split.
    + rewrite <- Hlast.
      rewrite <- (last_char_app (substring 0 (Z.to_nat dpv) ds)) by lia.
      by rewrite Hsplit.
    + destruct (first_char_FormatUint Dg HDg) as (c & rest & Hds & Hc & Hc0).
      fold ds in Hds.
      set (A := substring 0 (Z.to_nat dpv) ds) in *.
      set (B := substring (Z.to_nat dpv) (Z.to_nat (len ds - dpv)) ds) in *.
      assert (count_digits (A +:+ "." +:+ B) = len ds) as Hcount.
      { rewrite !count_digits_app.
        rewrite (count_digits_all A), (count_digits_all B)
          by (by apply all_digits_substring).
        change (count_digits ".") with 0. lia. }
      destruct A as [|a A']; [unfold len in HlA; cbn in HlA; lia|].
      rewrite Hds, app_cons in Hsplit. injection Hsplit as -> HAB.
      rewrite app_cons, significant_digits_first by done.
      by rewrite <- app_cons.
  - exists "0"%string, (zeros (Z.to_nat (- dpv)) +:+ ds).
    split; [reflexivity|]. split; [reflexivity|].
    split; [by rewrite all_digits_app, all_digits_zeros|].
    split; [rewrite len_single; lia|].
    rewrite len_app, len_zeros.
    split; [lia|]. split; [lia|]. split.
    + rewrite app_cons, app_nil_l. cbn [decimal_value].
      change (10 * 0 + digit_value "0") with 0.
      by rewrite decimal_value_app, decimal_value_zeros.
    + split; [by rewrite last_char_app by lia|].
      destruct (first_char_FormatUint Dg HDg) as (c & rest & Hds & Hc & Hc0).
      fold ds in Hds.
      rewrite !app_cons, !app_nil_l. cbn [significant_digits].
      change (is_digit "0" && negb (Ascii.eqb "0" "0")) with false.
      change (is_digit "." && negb (Ascii.eqb "." "0")) with false. cbv iota.
      rewrite significant_digits_zeros, Hds, significant_digits_first by done.
      rewrite <- Hds. by apply count_digits_all.
Qed.

Lemma pow10_add (x y : Z) : 0 <= x -> 0 <= y -> 10 ^ x * 10 ^ y = 10 ^ (x + y).
Proof. intros. by rewrite Z.pow_add_r. Qed.

Lemma ParseFloat_decimal (s : bool) (A B : string) :
  all_digits A = true -> all_digits B = true -> 1 <= len A -> 1 <= len B ->
  ParseFloat ((if s then "-" else EmptyString) +:+ A +:+ "." +:+ B)
  = Some (if decimal_value (A +:+ B) 0 =? 0 then S754_zero s
          else round_ratio s (decimal_value (A +:+ B) 0) (10 ^ len B)).
Proof.
  intros HA HB HlA HlB. unfold ParseFloat. destruct s.
  - rewrite app_cons, app_nil_l. cbn [Ascii.eqb Bool.eqb].
    by rewrite scan_digits_decimal.
  - rewrite app_nil_l. destruct A as [|c A']; [unfold len in HlA; cbn in HlA; lia|].
    pose proof HA as HA'. cbn [all_digits] in HA'. apply andb_prop in HA' as [Hc _].
    destruct (is_digit_not_sign c Hc) as (_ & Hm & Hp).
    rewrite app_cons, Hm, Hp, <- app_cons.
    by rewrite scan_digits_decimal.
Qed.

Lemma plain_decimal_text (s : bool) (A B : string) :
  all_digits A = true -> all_digits B = true -> 1 <= len A -> 1 <= len B ->
  plain_decimal ((if s then "-" else EmptyString) +:+ A +:+ "." +:+ B) = true.
Proof.
  intros HA HB HlA HlB. unfold plain_decimal. destruct s.
  - rewrite app_cons, app_nil_l. cbn [Ascii.eqb Bool.eqb].
    apply digits_point_digits_text; auto.
  - rewrite app_nil_l. destruct A as [|c A']; [unfold len in HlA; cbn in HlA; lia|].
    pose proof HA as HA'. cbn [all_digits] in HA'. apply andb_prop in HA' as [Hc _].
    destruct (is_digit_not_sign c Hc) as (_ & Hm & _).
    rewrite app_cons, Hm, <- app_cons.
    apply digits_point_digits_text; auto.
Qed.

(** X14: a finite float64 that is no whole number is written by
    [formatFloat] as a plain decimal (an optional minus sign, digits, a
    point, digits; no exponent) that [ParseFloat] reads back as the very
    same float64, and whose last digit is not 0. *)
Theorem formatFloat_round_trip (val : float64) :
  valid_float64 val = true -> is_finite val = true -> is_integral val = false ->
  plain_decimal (formatFloat val) = true /\
  ParseFloat (formatFloat val) = Some val /\
  last_char (formatFloat val) <> Some "0"%char.
Proof.
  intros Hv Hf Hi. destruct val as [s|s| |s m e]; try discriminate.
  cbn [valid_float64 valid_binary] in Hv. unfold valid_float64 in Hv. cbn in Hv.
  pose proof (bounded_inv m e Hv) as (He & _ & _).
  destruct (formatFloat_fraction_text s m e Hv Hi)
    as (A & B & -> & HA & HB & HlA & HlB & HlB1 & Hval & Hlast & _).
  destruct (shortest_digits_number m e ltac:(lia)) as [HDg Hmod].
  pose proof (shortest_exp_fraction s m e Hv Hi) as HJq.
  split; [by apply plain_decimal_text|]. split.
  - rewrite ParseFloat_decimal, Hval, HlB by done.
    destruct (Z.eqb_spec (shortest_scaled m e / 10 ^ shortest_exp m e) 0); [lia|].
    f_equal. apply round_ratio_interval; try done.
    + apply pow_pos; lia.
    + apply shortest_digits_in; lia.
  - rewrite <- !app_assoc, last_char_app, Hlast by done.
    intros [= Heq]. revert Heq. apply digit_char_not_0.
    pose proof (Z.mod_pos_bound (shortest_scaled m e / 10 ^ shortest_exp m e) 10
                  ltac:(lia)). lia.
Qed.

Lemma formatFloat_round_trip_witness :
  ParseFloat (formatFloat (float64_of_ratio 2345 100)) = Some (float64_of_ratio 2345 100).
Proof.
  refine (proj1 (proj2 (formatFloat_round_trip (float64_of_ratio 2345 100) _ _ _)));
    vm_compute; reflexivity.
Defined.

(** ** No decimal with fewer digits *)

Lemma round_decimal_inv (sgn s : bool) (m : positive) (e D t : Z) :
  0 < D -> round_decimal sgn D t = S754_finite s m e ->
  in_rounding_interval m e (D * 10 ^ Z.max 0 t) (10 ^ Z.max 0 (- t)) = true.
Proof.
  intros HD. unfold round_decimal. destruct (Z.leb_spec 0 t) as [Ht|Ht]; intros Hr.
  - apply round_ratio_inv in Hr as [_ Hr]; [|apply Z.mul_pos_pos; [lia|apply pow_pos; lia]|lia].
    replace (Z.max 0 t) with t by lia. replace (Z.max 0 (- t)) with 0 by lia. exact Hr.
  - apply round_ratio_inv in Hr as [_ Hr]; [|lia|apply pow_pos; lia].
    replace (Z.max 0 t) with 0 by lia. replace (Z.max 0 (- t)) with (- t) by lia.
    change (10 ^ 0) with 1. by rewrite Z.mul_1_r.
Qed.

(** A decimal with fewer digits than the shortest one does not round to
    the float: were it larger in its last digit's place, it would be a
    multiple of the next power of ten; were it smaller, a power of ten
    would lie between it and the shortest decimal. *)
Lemma no_fewer_digits (m : positive) (e D t : Z) :
  -1074 <= e ->
  0 < D < 10 ^ (len (FormatUint (shortest_scaled m e / 10 ^ shortest_exp m e)) - 1) ->
  in_rounding_interval m e (D * 10 ^ Z.max 0 t) (10 ^ Z.max 0 (- t)) = false.
Proof.
  intros He HD.
  destruct (shortest_exp_spec m e He) as (HJ & _ & _).
  destruct (shortest_digits_number m e He) as [HDg _].
  pose proof (shortest_scaled_in m e He) as Hc.
  pose proof (shortest_scaled_multiple m e) as Hmul.
  pose proof (len_FormatUint_ge _ HDg) as Hge.
  set (Dg := shortest_scaled m e / 10 ^ shortest_exp m e) in *.
  set (J := shortest_exp m e) in *. set (q := dec_scale e) in *.
  set (n := len (FormatUint Dg)) in *.
  set (a := Z.max 0 t). set (b := Z.max 0 (- t)).
  assert (0 <= q) as Hq by (unfold q, dec_scale; lia).
  assert (2 <= n) as Hn.
  { destruct (Z_le_gt_dec 2 n); [done|].
    assert (10 ^ (n - 1) <= 10 ^ 0) by (apply Z.pow_le_mono_r_iff; lia).
    change (10 ^ 0) with 1 in *.
    destruct (Z_lt_le_dec (n - 1) 0); [rewrite Z.pow_neg_r in HD by lia|]; lia. }
  assert (0 < 10 ^ q) as Hpq by (apply pow_pos; lia).
  assert (0 < 10 ^ b) as Hpb by (apply pow_pos; lia).
  assert (0 < 10 ^ a) as Hpa by (apply pow_pos; lia).
  assert (0 < 10 ^ J) as HpJ by (apply pow_pos; lia).
  destruct (in_rounding_interval m e (D * 10 ^ a) (10 ^ b)) eqn:Hin; [exfalso|done].
  destruct (Z_le_gt_dec (J + 1 - q) t) as [Hbig|Hsmall].
  - pose proof (no_shorter_multiple m e (D * 10 ^ (t + q - J - 1)) He) as Hno.
    fold J q in Hno.
    rewrite (in_rounding_interval_ratio m e (D * 10 ^ a) (10 ^ b)) in Hno; try done.
    rewrite <- !Z.mul_assoc, !pow10_add by lia. do 2 f_equal. lia.
  - pose proof (no_shorter_multiple m e (10 ^ (n - 2)) He) as Hno. fold J q in Hno.
    rewrite pow10_add in Hno by lia.
    rewrite (in_rounding_interval_convex m e (D * 10 ^ a) (10 ^ b)
               (10 ^ (n - 2 + (J + 1))) (10 ^ q) (shortest_scaled m e) (10 ^ q)) in Hno;
      try done.
    + replace (n - 2 + (J + 1)) with ((n - 1) + J) by lia.
      rewrite <- Z.mul_assoc, pow10_add, <- (pow10_add (n - 1)), <- Z.mul_assoc,
        (pow10_add J) by lia.
      apply Z.mul_le_mono_nonneg; try lia;
        first [apply Z.pow_nonneg; lia | apply Z.pow_le_mono_r; lia].
    + apply Z.mul_le_mono_nonneg_r; [lia|].
      replace (n - 2 + (J + 1)) with ((n - 1) + J) by lia.
      rewrite <- pow10_add, Hmul by lia. fold Dg J.
      apply Z.mul_le_mono_nonneg_r; lia.
Qed.

(** X15: no decimal with fewer significant digits than the text of
    [formatFloat] has rounds to the float64: the text has the fewest digits
    that read back as the value. *)
Theorem formatFloat_fewest_digits (val : float64) (sgn : bool) (digits exp10 : Z) :
  valid_float64 val = true -> is_finite val = true -> is_integral val = false ->
  0 < digits < 10 ^ (significant_digits (formatFloat val) - 1) ->
  round_decimal sgn digits exp10 <> val.
Proof.
  intros Hv Hf Hi. destruct val as [s|s| |s m e]; try discriminate.
  unfold valid_float64 in Hv. cbn in Hv.
  pose proof (bounded_inv m e Hv) as (He & _ & _).
  destruct (formatFloat_fraction_text s m e Hv Hi)
    as (A & B & -> & _ & _ & _ & _ & _ & _ & _ & Hsig).
  assert (significant_digits ((if s then "-" else EmptyString) +:+ A +:+ "." +:+ B)
          = significant_digits (A +:+ "." +:+ B)) as -> by (by destruct s).
  rewrite Hsig. intros HD Hr.
  apply round_decimal_inv in Hr; [|lia].
  rewrite no_fewer_digits in Hr; [done|lia|done].
Qed.

Lemma formatFloat_fewest_digits_witness :
  round_decimal false 234 (-1) <> float64_of_ratio 2345 100.
Proof.
  refine (formatFloat_fewest_digits (float64_of_ratio 2345 100) false 234 (-1) _ _ _ _);
    vm_compute; try reflexivity. split; reflexivity.
Defined.

(** ** The text of a float64 that is no whole number *)

(** C5: a finite float64 that is no whole number is written by
    [formatFloat] as a plain decimal (an optional minus sign, digits, a
    point, digits; never an exponent) that [ParseFloat] reads back as the
    very same float64; no decimal with fewer significant digits rounds to
    that float64, and the last digit of the text is not 0. *)
Theorem formatFloat_shortest_round_trip (val : float64) :
  valid_float64 val = true -> is_finite val = true -> is_integral val = false ->
  plain_decimal (formatFloat val) = true /\
  ParseFloat (formatFloat val) = Some val /\
  (forall (sgn : bool) (digits exp10 : Z),
     0 < digits < 10 ^ (significant_digits (formatFloat val) - 1) ->
     round_decimal sgn digits exp10 <> val) /\
  last_char (formatFloat val) <> Some "0"%char.
Proof.
  intros Hv Hf Hi. destruct val as [s|s| |s m e]; try discriminate.
  unfold valid_float64 in Hv. cbn in Hv.
  pose proof (bounded_inv m e Hv) as (He & _ & _).
  destruct (formatFloat_fraction_text s m e Hv Hi)
    as (A & B & -> & HA & HB & HlA & HlB & HlB1 & Hval & Hlast & Hsig).
  destruct (shortest_digits_number m e ltac:(lia)) as [HDg Hmod].
  pose proof (shortest_exp_fraction s m e Hv Hi) as HJq.
  split; [by apply plain_decimal_text|]. split; [|split].
  - rewrite ParseFloat_decimal, Hval, HlB by done.
    destruct (Z.eqb_spec (shortest_scaled m e / 10 ^ shortest_exp m e) 0); [lia|].
    f_equal. apply round_ratio_interval; try done.
    + apply pow_pos; lia.
    + apply shortest_digits_in; lia.
  - intros sgn digits exp10.
    assert (significant_digits ((if s then "-" else EmptyString) +:+ A +:+ "." +:+ B)
            = significant_digits (A +:+ "." +:+ B)) as -> by (by destruct s).
    rewrite Hsig. intros HD Hr.
    apply round_decimal_inv in Hr; [|lia].
    rewrite no_fewer_digits in Hr; [done|lia|done].
  - rewrite <- !app_assoc, last_char_app, Hlast by done.
    intros [= Heq]. revert Heq. apply digit_char_not_0.
    pose proof (Z.mod_pos_bound (shortest_scaled m e / 10 ^ shortest_exp m e) 10
                  ltac:(lia)). lia.
Qed.

(** The float64 nearest to 0.004: the text is [0.004], it reads back as the
    float64, and no single digit does. *)
Lemma formatFloat_shortest_round_trip_witness :
  formatFloat (float64_of_ratio 4 1000) = "0.004"%string /\
  ParseFloat (formatFloat (float64_of_ratio 4 1000)) = Some (float64_of_ratio 4 1000).
Proof.
  split; [vm_compute; reflexivity|].
  refine (proj1 (proj2 (formatFloat_shortest_round_trip (float64_of_ratio 4 1000) _ _ _)));
    vm_compute; reflexivity.
Defined.

(** ** When an array leaves the prefix as it was *)

Lemma len_unindented (n : Z) (ind : string) :
  0 <= n -> len (unindented n ind) = Z.max 0 (len ind - n).
Proof.
  intros Hn. unfold unindented.
  destruct (Z.leb_spec (len ind) n) as [Hle|Hgt].
  - change (len EmptyString) with 0. lia.
  - unfold len in *. rewrite length_substring; lia.
Qed.

Lemma len_0 (s : string) : len s = 0 -> s = EmptyString.
Proof. destruct s; [done|]. unfold len. cbn [String.length]. lia. Qed.

Lemma unindented_restores (n : Z) (ind : string) :
  0 <= n ->
  unindented n (ind +:+ "  ") = ind <-> n = 2 \/ (ind = EmptyString /\ 2 <= n).
Proof.
  intros Hn. split.
  - intros Heq. pose proof (len_unindented n (ind +:+ "  ") Hn) as Hl.
    rewrite Heq, len_app in Hl. change (len "  ") with 2 in Hl.
    assert (0 <= len ind) by (unfold len; lia).
    destruct (Z.eq_dec n 2); [by left|right].
    assert (len ind = 0) as H0 by lia. split; [by apply len_0|lia].
  - intros [->|[-> Hge]]; [apply unindented_default|].
    rewrite app_nil_l. unfold unindented. change (len "  ") with 2.
    by destruct (Z.leb_spec 2 n); [|lia].
Qed.

(** X16: for a builder whose IndentSize is not negative, an array emitter
    leaves the prefix as it was before the call exactly when IndentSize is
    2, or the prefix was empty and IndentSize is 2 at least. *)
Theorem array_prefix_restored_iff (h : heap) (w : loc) (b : TomlBuilder)
    (text key : string) (strs : list string) (ints : list Z)
    (floats : list float64) (bools : list bool) :
  builders h !! w = Some b -> buffers h !! buf b = Some text ->
  0 <= IndentSize b -> len (indentation b) + 2 <= int_max ->
  let restored (r : result unit) : Prop :=
    indentation_at (heap_of r) w = Some (indentation b) in
  let fits : Prop :=
    IndentSize b = 2 \/ (indentation b = EmptyString /\ 2 <= IndentSize b) in
  (restored (AddStringArray w key strs h) <-> fits) /\
  (restored (AddIntArray w key ints h) <-> fits) /\
  (restored (AddFloatArray w key floats h) <-> fits) /\
  (restored (AddBoolArray w key bools h) <-> fits).
Proof.
  intros Hb Ht Hn Hl restored fits.
  assert (forall vals, restored (addArray w key vals h) <-> fits) as Hall.
  { intros vals. unfold restored, fits.
    rewrite <- (upd_id h w b text Hb Ht) at 1. rewrite addArray_upd by done.
    unfold indentation_at, upd. cbn [heap_of builders]. rewrite lookup_insert_eq.
    cbn [fmap option_fmap option_map indentation].
    rewrite <- unindented_restores by done. split; [by intros [= ->]|by intros ->]. }
  unfold AddStringArray, AddIntArray, AddFloatArray, AddBoolArray. auto.
Qed.

Lemma array_prefix_restored_iff_witness :
  indentation_at
    (heap_of (AddIntArray 1%positive "a" [1; 2]
                (upd empty_heap 1%positive (mkTomlBuilder 5 EmptyString 1%positive) EmptyString)))
    1%positive
  = Some EmptyString.
Proof.
  refine (proj2 (proj1 (proj2 (array_prefix_restored_iff
            (upd empty_heap 1%positive (mkTomlBuilder 5 EmptyString 1%positive) EmptyString)
            1%positive (mkTomlBuilder 5 EmptyString 1%positive) EmptyString "a"
            [] [1; 2] [] [] eq_refl eq_refl _ _))) _).
  - vm_compute. discriminate.
  - vm_compute. discriminate.
  - right. split; [reflexivity|]. vm_compute. discriminate.
Defined.

(** ** A builder without a buffer *)

Lemma write_no_buffer (h : heap) (w : loc) (format : string) (args : list arg) :
  (builders h !! w = None \/
   exists b, builders h !! w = Some b /\ buffers h !! buf b = None) ->
  write w format args h = Panic nil_dereference h.
Proof.
  unfold write, bind, load, Buffer_Write.
  intros [->|(b & -> & ->)]; reflexivity.
Qed.

(** X17: a method called through a nil pointer, or on a builder whose buffer
    pointer is nil, as in a TomlBuilder that did not come from [New],
    panics with Go's nil-dereference error at its first write and leaves
    everything as it was; a table method panics before it calls the
    callback. *)
Theorem emitters_need_a_buffer (h : heap) (w : loc) :
  (builders h !! w = None \/
   exists b, builders h !! w = Some b /\ buffers h !! buf b = None) ->
  let stops (r : result unit) : Prop := r = Panic nil_dereference h in
  stops (AddNewLine w h) /\
  (forall msg, stops (AddComment w msg h)) /\
  (forall key value, stops (AddString w key value h)) /\
  (forall key value, stops (AddInt w key value h)) /\
  (forall key value, stops (AddFloat w key value h)) /\
  (forall key value, stops (AddBool w key value h)) /\
  (forall key array, stops (AddStringArray w key array h)) /\
  (forall key array, stops (AddIntArray w key array h)) /\
  (forall key array, stops (AddFloatArray w key array h)) /\
  (forall key array, stops (AddBoolArray w key array h)) /\
  (forall name write_body, stops (AddTable w name write_body h)) /\
  (forall name write_body, stops (AddArrayOfTables w name write_body h)).
Proof.
  intros Hw stops. unfold stops.
  repeat split; intros;
    unfold AddNewLine, AddComment, AddString, AddInt, AddFloat, AddBool,
      AddStringArray, AddIntArray, AddFloatArray, AddBoolArray, addArray,
      AddTable, AddArrayOfTables;
    try (by apply write_no_buffer);
    by apply bind_Panic, write_no_buffer.
Qed.

Lemma emitters_need_a_buffer_witness :
  AddTable 1%positive "t" (fun c => AddInt c "n" 1)
    (mkHeap {[ 1%positive := mkTomlBuilder 0 EmptyString 1%positive ]} ∅)
  = Panic nil_dereference
      (mkHeap {[ 1%positive := mkTomlBuilder 0 EmptyString 1%positive ]} ∅).
Proof.
  refine (proj1 (proj2 (proj2 (proj2 (proj2 (proj2 (proj2 (proj2 (proj2 (proj2 (proj2
            (emitters_need_a_buffer
               (mkHeap {[ 1%positive := mkTomlBuilder 0 EmptyString 1%positive ]} ∅)
               1%positive _)))))))))))
            "t" (fun c => AddInt c "n" 1)).
  right. exists (mkTomlBuilder 0 EmptyString 1%positive). split; reflexivity.
Defined.
